(** * Hue light controller: light records, bridge commands and colour conversion

    A shallow embedding of [HueLightProject.py] (class [LightApp]).

    - A light is a Python dict; the list [self.lights] and the callbacks of
      the widgets hold references to the same dict objects.  The dicts live
      in a [store] addressed by position, and [lights] is a list of
      references into it.
    - The Hue bridge is an external service.  Every call made on
      [self.bridge] is appended to the field [bridge]; what the bridge
      answers (a value, or an exception) is an argument of the operation
      that makes the call.
    - Python exceptions are the [Raise] results of the monad [M]; a state
      change made before the exception stays, as in Python.
    - A Python float is modelled by the rational it holds.  The result of
      a float operation is the exact result rounded to a float by [fl], a
      parameter of the model ([FloatModel]); what is proved holds for every
      rounding that obeys [FloatLaws] (and [FloatAccuracy], where errors
      are bounded).  Double precision with rounding to nearest, [binary64],
      is defined and shown to obey both; overflow is left out.  Division
      by zero raises [ZeroDivisionError].
    - [int] of a string follows the grammar of integer literals; the
      limit of the interpreter on their digits is a parameter ([PyConfig]).
    - The value held by a Tk variable when a callback runs is chosen by the
      user, so it is an argument of the callback. *)

From Stdlib Require Import ZArith QArith Qround Qminmax Qabs Qpower Lia Lqa.
From Stdlib Require Import Ascii String DecimalString.
From Stdlib Require DecimalPos.
From stdpp Require Import base option list gmap strings.

Local Open Scope Z_scope.

(** ** Data model *)

(** The dict built for one light by [get_lights_from_hue]. *)
Module Light.

Record t : Type := mk {
  id : Z;
  name : string;
  environment : string;
  state : bool;
  brightness : Z;
  hue : Z;
  saturation : Z
}.

(** [light["state"] = v] *)
Definition set_state (v : bool) (r : t) : t :=
  mk (id r) (name r) (environment r) v (brightness r) (hue r) (saturation r).

End Light.

(** A reference to a dict object: its position in the store. *)
Definition loc : Type := nat.

(** Values passed to [Bridge.set_light]. *)
Inductive py_val : Type :=
  | VBool (b : bool)
  | VInt (z : Z).

(** The calls the program makes on [self.bridge]: [connect()],
    [get_light_objects(mode)], [set_light(light_id, parameter, value)] and
    [set_light(light_id, {parameter: value, ...})]. *)
Inductive bridge_call : Type :=
  | Connect
  | GetLightObjects (mode : string)
  | SetLight (light_id : Z) (parameter : string) (value : py_val)
  | SetLightDict (light_id : Z) (parameter : list (string * py_val)).

(** What a bridge call answers: a value, or an exception. *)
Inductive reply (A : Type) : Type :=
  | Returns (a : A)
  | Fails (e : string).
Arguments Returns {A} a.
Arguments Fails {A} e.

(** The exceptions that can leave a method of [LightApp]: [ValueError] from
    [int(light_id)], [ZeroDivisionError] from a float division, [KeyError]
    from reading a parameter that the bridge does not report for a light,
    [AttributeError] from reading an attribute that an object does not
    have, and whatever a bridge call raised. *)
Inductive exn : Type :=
  | ValueError (literal : string)
  | ZeroDivisionError
  | KeyError (parameter : string)
  | AttributeError (attribute : string)
  | BridgeError (e : string).

Inductive result (A : Type) : Type :=
  | Ok (a : A)
  | Raise (e : exn).
Arguments Ok {A} a.
Arguments Raise {A} e.

(** Sequencing of computations that return or raise. *)
#[global] Instance result_ret : MRet result := fun A a => Ok a.

#[global] Instance result_bind : MBind result :=
  fun A B f r =>
    match r with
    | Ok a => f a
    | Raise e => Raise e
    end.

(** The control block packed for one light by [populate_lights]: the name
    label, the initial values of the toggle and brightness variables, and
    the dict the three callbacks are bound to ([l=light]). *)
Record LightBlock : Type := mkBlock {
  light_label : string;
  toggle : bool;
  bright_slider : Z;
  bound_light : loc
}.

(** An environment label followed by the frame holding its light blocks. *)
Record EnvFrame : Type := mkEnvFrame {
  env_label : string;
  env_children : list LightBlock
}.

(** [{"toggle": var, "brightness": bright_var}] *)
Record Controls : Type := mkControls {
  ctl_toggle : bool;
  ctl_brightness : Z
}.

Record LightApp : Type := mkApp {
  store : list Light.t;              (* the dict objects *)
  lights : list loc;                 (* self.lights *)
  light_controls : gmap Z Controls;  (* self.light_controls *)
  light_frame : list EnvFrame;       (* children of self.light_frame *)
  bridge : list bridge_call;         (* calls made on self.bridge, oldest first *)
  stdout : list string               (* lines printed, oldest first *)
}.

(** ** The monad of the methods: state, exceptions, and [None] when a
    reference does not point into the store (no Python run does that). *)

Definition M (A : Type) : Type := LightApp -> option (result A * LightApp).

Definition ret {A} (a : A) : M A := fun st => Some (Ok a, st).

Definition bind {A B} (m : M A) (f : A -> M B) : M B :=
  fun st =>
    match m st with
    | None => None
    | Some (Ok a, st') => f a st'
    | Some (Raise e, st') => Some (Raise e, st')
    end.

(** A computation that touches nothing: it returns or raises. *)
Definition lift {A} (r : result A) : M A := fun st => Some (r, st).

Declare Scope hue_scope.
Delimit Scope hue_scope with hue.
Notation "x <- m ;; k" := (bind m (fun x => k))
  (at level 100, m at next level, right associativity) : hue_scope.
Notation "m ;; k" := (bind m (fun _ => k))
  (at level 100, right associativity) : hue_scope.
Local Open Scope hue_scope.

(** Reading a dict through a reference. *)
Definition getdict (l : loc) : M Light.t :=
  fun st => match store st !! l with
            | Some r => Some (Ok r, st)
            | None => None
            end.

(** Updating a dict in place: every holder of the reference sees it. *)
Definition setdict (l : loc) (f : Light.t -> Light.t) : M unit :=
  fun st => match store st !! l with
            | Some r =>
                Some (Ok tt, mkApp (<[l := f r]> (store st)) (lights st)
                                   (light_controls st) (light_frame st)
                                   (bridge st) (stdout st))
            | None => None
            end.

(** A dict literal: a new object, at the end of the store. *)
Definition newdict (r : Light.t) : M loc :=
  fun st => Some (Ok (length (store st)),
                  mkApp (store st ++ [r]) (lights st) (light_controls st)
                        (light_frame st) (bridge st) (stdout st)).

(** A call on [self.bridge]: logged, then it returns or raises. *)
Definition call_bridge {A} (c : bridge_call) (answer : reply A) : M A :=
  fun st =>
    let st' := mkApp (store st) (lights st) (light_controls st)
                     (light_frame st) (bridge st ++ [c]) (stdout st) in
    match answer with
    | Returns a => Some (Ok a, st')
    | Fails e => Some (Raise (BridgeError e), st')
    end.

Definition print (line : string) : M unit :=
  fun st => Some (Ok tt, mkApp (store st) (lights st) (light_controls st)
                               (light_frame st) (bridge st)
                               (stdout st ++ [line])).

(** ** Python numbers *)

(** [str(n)] for an int. *)
Definition str (n : Z) : string := NilZero.string_of_int (Z.to_int n).

(** [int(x)] for a float: truncation toward zero. *)
Definition int_of_float (x : Q) : Z := Z.quot (Qnum x) (Z.pos (Qden x)).

Definition Qltb (x y : Q) : bool := negb (Qle_bool y x).

(** [max(a, b, c)] and [min(a, b, c)]: the first extremal argument. *)
Definition max3 (a b c : Q) : Q :=
  let m := if Qltb a b then b else a in if Qltb m c then c else m.

Definition min3 (a b c : Q) : Q :=
  let m := if Qltb b a then b else a in if Qltb c m then c else m.

(** Float arithmetic: [fl] rounds a rational to a float, and [is_float]
    tells the rationals that are floats. *)
Class FloatModel : Type := {
  fl : Q -> Q;
  is_float : Q -> Prop
}.

(** [x / y] on floats, and on ints (true division). *)
Definition fdiv `{FloatModel} (x y : Q) : result Q :=
  if Qeq_bool y 0 then Raise ZeroDivisionError else Ok (fl (x / y)).

(** [x % 1.0]: [fmod(x, 1.0)] is exact and has the sign of [x]; when it is
    negative the divisor is added to it, and that sum is rounded. *)
Definition fmod1 `{FloatModel} (x : Q) : Q :=
  let m := (x - inject_Z (int_of_float x))%Q in
  if Qltb m 0 then fl (m + 1) else m.

(** ** colorsys.rgb_to_hsv (Python standard library) *)

Definition rgb_to_hsv `{FloatModel} (r g b : Q) : result (Q * Q * Q) :=
  let maxc := max3 r g b in
  let minc := min3 r g b in
  let rangec := fl (maxc - minc) in
  let v := maxc in
  if Qeq_bool minc maxc then Ok (0%Q, 0%Q, v)
  else
    s ← fdiv rangec maxc;
    rc ← fdiv (fl (maxc - r)) rangec;
    gc ← fdiv (fl (maxc - g)) rangec;
    bc ← fdiv (fl (maxc - b)) rangec;
    let h := if Qeq_bool r maxc then fl (bc - gc)
             else if Qeq_bool g maxc then fl (fl (2 + rc) - bc)
             else fl (fl (4 + gc) - rc) in
    h ← fdiv h 6;
    Ok (fmod1 h, s, v).

(** ** The callbacks *)

(** [toggle_light(self, light, var)]; [var] is [var.get()]. *)
Definition toggle_light (light : loc) (var : bool) (ack : reply unit) : M unit :=
  setdict light (Light.set_state var) ;;
  r <- getdict light ;;
  call_bridge (SetLight (Light.id r) "on" (VBool (Light.state r))) ack ;;
  print ("Toggled " +:+ Light.name r +:+ " to " +:+
         (if Light.state r then "ON" else "OFF")).

(** [set_brightness(self, light, var)]; [var] is the number held by the
    slider variable. *)
Definition set_brightness (light : loc) (var : Q) (ack : reply unit) : M unit :=
  let brightness := int_of_float var in
  r <- getdict light ;;
  call_bridge (SetLight (Light.id r) "bri" (VInt brightness)) ack ;;
  print ("Set " +:+ Light.name r +:+ " brightness to " +:+ str brightness).

(** [color[k] / 255] *)
Definition normalize `{FloatModel} (c : Z) : result Q := fdiv (inject_Z c) 255.

(** [int(h * 65535)] and [int(s * 254)] *)
Definition hue_value `{FloatModel} (h : Q) : Z := int_of_float (fl (h * 65535)).

Definition saturation_value `{FloatModel} (s : Q) : Z :=
  int_of_float (fl (s * 254)).

(** [pick_color(self, light)]; [color] is [colorchooser.askcolor()[0]]:
    [None] when the dialog is dismissed, else the RGB triple (a non-empty
    tuple, hence true in [if color:]). *)
Definition pick_color `{FloatModel} (light : loc) (color : option (Z * Z * Z))
    (ack : reply unit) : M unit :=
  match color with
  | Some (c0, c1, c2) =>
      r <- lift (normalize c0) ;;
      g <- lift (normalize c1) ;;
      b <- lift (normalize c2) ;;
      hsv <- lift (rgb_to_hsv r g b) ;;
      let '(h, s, v) := hsv in
      rec <- getdict light ;;
      print ("Set " +:+ Light.name rec +:+ " to Hue: " +:+ str (hue_value h)
             +:+ ", Saturation: " +:+ str (saturation_value s)) ;;
      call_bridge (SetLightDict (Light.id rec)
                     [("hue", VInt (hue_value h));
                      ("sat", VInt (saturation_value s));
                      ("on", VBool true)]) ack
  | None => ret tt
  end.

(** ** Fetching the lights *)

(** [int(s)] for a string of code points below 256.  The literal is:
    optional white space, an optional sign, decimal digits that single
    underscores may separate, optional white space. *)
Definition is_space (c : ascii) : bool :=
  let n := N_of_ascii c in
  ((9 <=? n) && (n <=? 13) || (n =? 32) || (n =? 133) || (n =? 160))%N.

Definition digit_of (c : ascii) : option Z :=
  let n := N_of_ascii c in
  if ((48 <=? n) && (n <=? 57))%N then Some (Z.of_N n - 48) else None.

Fixpoint skip_space (s : string) : string :=
  match s with
  | String c s' => if is_space c then skip_space s' else s
  | EmptyString => s
  end.

Fixpoint all_space (s : string) : bool :=
  match s with
  | String c s' => is_space c && all_space s'
  | EmptyString => true
  end.

(** The digits after the first one; [underscore] tells that the previous
    character was an underscore. *)
Fixpoint digits (s : string) (acc : Z) (underscore : bool) : option Z :=
  match s with
  | EmptyString => if underscore then None else Some acc
  | String c s' =>
      match digit_of c with
      | Some d => digits s' (10 * acc + d) false
      | None =>
          if underscore then None
          else if Ascii.eqb c "_" then digits s' acc true
          else if all_space s then Some acc
          else None
      end
  end.

Definition unsigned_of_str (s : string) : option Z :=
  match s with
  | String c s' =>
      match digit_of c with
      | Some d => digits s' d false
      | None => None
      end
  | EmptyString => None
  end.

Definition literal_value (s : string) : option Z :=
  match skip_space s with
  | String "+" s' => unsigned_of_str s'
  | String "-" s' => Z.opp <$> unsigned_of_str s'
  | s' => unsigned_of_str s'
  end.

Fixpoint count_digits (s : string) : nat :=
  match s with
  | String c s' =>
      match digit_of c with
      | Some _ => S (count_digits s')
      | None => count_digits s'
      end
  | EmptyString => 0
  end.

(** The limit of the interpreter on the digits of an integer literal,
    [sys.get_int_max_str_digits()]: 4300 unless configured, and 0 when
    there is none (as before CPython 3.11). *)
Class PyConfig : Type := { int_max_str_digits : nat }.

(** [None] stands for [ValueError]: the string is no literal, or it has
    more digits than the limit. *)
Definition int_of_str `{PyConfig} (s : string) : option Z :=
  match literal_value s with
  | Some n =>
      if (0 <? int_max_str_digits)%nat && (int_max_str_digits <? count_digits s)%nat
      then None
      else Some n
  | None => None
  end.

(** A key of the dict returned by [get_light_objects('id')]: an int, or
    the identifier as the bridge spells it. *)
Inductive device_id : Type :=
  | IdInt (n : Z)
  | IdStr (s : string).

(** [int(light_id)] *)
Definition py_int `{PyConfig} (light_id : device_id) : result Z :=
  match light_id with
  | IdInt n => Ok n
  | IdStr s =>
      match int_of_str s with
      | Some n => Ok n
      | None => Raise (ValueError s)
      end
  end.

(** A light object of the bridge library ([phue.Light]), as far as the
    program reads it.  The record holds what the bridge reports for the
    light; a light without colour (a white bulb) reports no hue and no
    saturation.  Every light object has the attributes [hue] and
    [saturation]: they are properties that ask the bridge for the
    parameter ("hue", "sat") and raise [KeyError] when the state of the
    light has no such parameter.  (What the library asks the bridge while
    an attribute is read is not an entry of [bridge], which records the
    calls that the program itself makes.) *)
Module Device.

Record t : Type := mk {
  name : string;
  on : bool;
  brightness : Z;
  hue : option Z;
  saturation : option Z
}.

(** Reading a parameter of the state of the light through its property. *)
Definition get (parameter : string) (reported : option Z) : result Z :=
  match reported with
  | Some z => Ok z
  | None => Raise (KeyError parameter)
  end.

End Device.

(** [getattr(obj, attr, default)], on the outcome of reading the attribute:
    the default stands in for [AttributeError] only, and any other
    exception of the read goes through. *)
Definition getattr {A} (read : result A) (default : A) : result A :=
  match read with
  | Raise (AttributeError _) => Ok default
  | _ => read
  end.

(** The dict literal of lines 47-56; its values are evaluated in the order
    they are written. *)
Definition light_dict `{PyConfig} (light_id : device_id) (light : Device.t) :
    result Light.t :=
  n ← py_int light_id;
  hue ← getattr (Device.get "hue" (Device.hue light)) 0;
  saturation ← getattr (Device.get "sat" (Device.saturation light)) 254;
  Ok (Light.mk n (Device.name light) "Default" (Device.on light)
               (Device.brightness light) hue saturation).

(** The loop of [get_lights_from_hue] over [lights.items()]. *)
Fixpoint fetch_loop `{PyConfig} (items : list (device_id * Device.t))
    (light_list : list loc) : M (list loc) :=
  match items with
  | [] => ret light_list
  | (light_id, light) :: rest =>
      r <- lift (light_dict light_id light) ;;
      d <- newdict r ;;
      fetch_loop rest (light_list ++ [d])
  end.

Definition get_lights_from_hue `{PyConfig}
    (answer : reply (list (device_id * Device.t))) : M (list loc) :=
  lights <- call_bridge (GetLightObjects "id") answer ;;
  fetch_loop lights [].

(** ** Building the widgets *)

Definition stuck {A} : M A := fun _ => None.

Definition getitem {A} (o : option A) : M A :=
  match o with
  | Some a => ret a
  | None => stuck
  end.

Definition set_lights (l : list loc) : M unit :=
  fun st => Some (Ok tt, mkApp (store st) l (light_controls st)
                               (light_frame st) (bridge st) (stdout st)).

Definition set_light_controls (c : gmap Z Controls) : M unit :=
  fun st => Some (Ok tt, mkApp (store st) (lights st) c
                               (light_frame st) (bridge st) (stdout st)).

Definition set_light_frame (f : list EnvFrame) : M unit :=
  fun st => Some (Ok tt, mkApp (store st) (lights st) (light_controls st)
                               f (bridge st) (stdout st)).

(** Lines 73-76: a label and an empty frame for a new environment; the
    result is the position of the frame. *)
Definition pack_env (env : string) : M nat :=
  fun st => Some (Ok (length (light_frame st)),
                  mkApp (store st) (lights st) (light_controls st)
                        (light_frame st ++ [mkEnvFrame env []])
                        (bridge st) (stdout st)).

(** Lines 79-103: a control block packed at the end of an environment
    frame. *)
Definition pack_light (frame : nat) (blk : LightBlock) : M unit :=
  fun st =>
    match light_frame st !! frame with
    | Some fr =>
        set_light_frame
          (<[frame := mkEnvFrame (env_label fr) (env_children fr ++ [blk])]>
             (light_frame st)) st
    | None => None
    end.

(** Line 106 *)
Definition store_controls (n : Z) (c : Controls) : M unit :=
  fun st => set_light_controls (<[n := c]> (light_controls st)) st.

(** The body of the loop of [populate_lights] (lines 69-106);
    [env_frames] maps an environment to its frame, and the body returns it
    as the next iteration finds it. *)
Definition populate_step (light : loc) (env_frames : gmap string nat)
    : M (gmap string nat) :=
  r <- getdict light ;;
  let env := Light.environment r in
  env_frames <- match env_frames !! env with
                | None => i <- pack_env env ;; ret (<[env := i]> env_frames)
                | Some _ => ret env_frames
                end ;;
  frame <- getitem (env_frames !! env) ;;
  pack_light frame (mkBlock (Light.name r) (Light.state r)
                            (Light.brightness r) light) ;;
  store_controls (Light.id r)
                 (mkControls (Light.state r) (Light.brightness r)) ;;
  ret env_frames.

Fixpoint populate_loop (ls : list loc) (env_frames : gmap string nat) : M unit :=
  match ls with
  | [] => ret tt
  | light :: rest =>
      env_frames <- populate_step light env_frames ;;
      populate_loop rest env_frames
  end.

Definition populate_lights : M unit :=
  set_light_frame [] ;;
  set_light_controls ∅ ;;
  fun st => populate_loop (lights st) ∅ st.

Definition refresh_lights `{PyConfig}
    (answer : reply (list (device_id * Device.t))) : M unit :=
  l <- get_lights_from_hue answer ;;
  set_lights l ;;
  populate_lights.

(** [LightApp.__init__], from an application with nothing in it. *)
Definition new_app : LightApp := mkApp [] [] ∅ [] [] [].

Definition init `{PyConfig} (connected : reply unit)
    (answer : reply (list (device_id * Device.t))) : M unit :=
  call_bridge Connect connected ;;
  l <- get_lights_from_hue answer ;;
  set_lights l ;;
  set_light_controls ∅ ;;
  populate_lights.

(** ** Notions used by the statements *)

(** What a callback returns when its bridge call gets the answer [ack]. *)
Definition outcome (ack : reply unit) : result unit :=
  match ack with
  | Returns _ => Ok tt
  | Fails e => Raise (BridgeError e)
  end.

(** Every reference of [self.lights] points to a dict. *)
Definition well_formed (st : LightApp) : Prop :=
  Forall (fun l => is_Some (store st !! l)) (lights st).

(** The bridge reports a hue and a saturation for the light. *)
Definition reports_color (light : Device.t) : Prop :=
  is_Some (Device.hue light) /\ is_Some (Device.saturation light).

(** The identifiers of the lights of the registry. *)
Definition registry_ids (st : LightApp) : list Z :=
  omap (fun l => Light.id <$> store st !! l) (lights st).

(** The distinct names of a list, in the order of their first occurrence. *)
Fixpoint first_seen (l : list string) : list string :=
  match l with
  | [] => []
  | e :: l' => e :: filter (fun x => x <> e) (first_seen l')
  end.

(** The environment of the dict behind a reference, and those behind a
    list of references. *)
Definition env_of (dicts : list Light.t) (l : loc) : option string :=
  Light.environment <$> dicts !! l.

Definition envs (dicts : list Light.t) (ls : list loc) : list string :=
  omap (env_of dicts) ls.

(** What the loop of [populate_lights] maintains, once it has gone through
    the lights [done]: the frames are labelled by the environments seen,
    in the order they were first seen; the blocks of a frame are bound to
    the lights of its environment, in the order of [done]; and
    [env_frames] maps each label to the position of its frame. *)
Record view_inv (dicts : list Light.t) (done : list loc)
    (env_frames : gmap string nat) (frames : list EnvFrame) : Prop := {
  inv_labels : env_label <$> frames = first_seen (envs dicts done);
  inv_children : forall i f,
    frames !! i = Some f ->
    bound_light <$> env_children f
    = filter (fun l => env_of dicts l = Some (env_label f)) done;
  inv_frames : forall e i,
    env_frames !! e = Some i <-> exists f, frames !! i = Some f /\ env_label f = e
}.

(** What is assumed of the rounding: it is compatible with the equality of
    rationals, gives floats, leaves floats as they are, is monotone; the
    integers up to 2^53 are floats; and the difference of two distinct
    floats does not round to zero (gradual underflow). *)
Class FloatLaws (F : FloatModel) : Prop := {
  fl_proper : forall x y, (x == y)%Q -> (fl x == fl y)%Q;
  is_float_proper : forall x y, (x == y)%Q -> is_float x -> is_float y;
  fl_float : forall x, is_float (fl x);
  fl_exact : forall x, is_float x -> (fl x == x)%Q;
  fl_monotone : forall x y, (x <= y)%Q -> (fl x <= fl y)%Q;
  float_int : forall n, Z.abs n <= 2 ^ 53 -> is_float (inject_Z n);
  fl_sub_nonzero : forall x y,
    is_float x -> is_float y -> ~ (x == y)%Q -> ~ (fl (x - y) == 0)%Q
}.

(** How close the rounding is, with [u] the unit of roundoff: the
    difference of two floats is rounded with a relative error of [u] at
    most (it is exact where it would underflow), and a number of size [m]
    at most, [m] at least 1, with an error of [u * m] at most. *)
Class FloatAccuracy (F : FloatModel) (u : Q) : Prop := {
  acc_unit : (0 <= u)%Q /\ (u <= 1 # 16777216)%Q;
  acc_sub : forall x y, is_float x -> is_float y -> (y <= x)%Q ->
    ((x - y) * (1 - u) <= fl (x - y))%Q /\ (fl (x - y) <= (x - y) * (1 + u))%Q;
  acc_round : forall x m, (1 <= m)%Q -> (- m <= x)%Q -> (x <= m)%Q ->
    (x - u * m <= fl x)%Q /\ (fl x <= x + u * m)%Q
}.

(** The interpreter as it comes: literals of at most 4300 digits. *)
Definition cpython_default : PyConfig := {| int_max_str_digits := 4300 |}.

(** Exact arithmetic: every rational is a float and nothing is rounded. *)
Definition exact : FloatModel := {| fl := fun x => x; is_float := fun _ => True |}.

(** Double precision (binary64), rounding to nearest with ties to even:
    53 bits of precision and exponents from -1022 up, so that every float
    is a multiple of [2 ^ -1074].  Overflow is left out: a colour stays
    far from it. *)

(** The integer nearest to [x], the even one on a tie. *)
Definition rne (x : Q) : Z :=
  let f := Qfloor x in
  match (x - inject_Z f ?= 1 # 2)%Q with
  | Lt => f
  | Gt => f + 1
  | Eq => if Z.even f then f else f + 1
  end.

(** The integer part of the binary logarithm of [|x|], for [x] not 0. *)
Definition exponent (x : Q) : Z :=
  if Qle_bool 1 (Qabs x) then Z.log2 (Qfloor (Qabs x))
  else - Z.log2_up (Qceiling (/ Qabs x)).

(** The exponent of the last of the 53 bits of the floats next to [x]. *)
Definition quantum (x : Q) : Z := Z.max (exponent x) (-1022) - 52.

Definition round64 (x : Q) : Q :=
  (inject_Z (rne (x / 2 ^ quantum x)) * 2 ^ quantum x)%Q.

Definition binary64 : FloatModel :=
  {| fl := round64; is_float := fun x => (round64 x == x)%Q |}.

(** The unit of roundoff of double precision, [2 ^ -53]. *)
Definition u64 : Q := 1 # 9007199254740992.

(** The textbook transform from RGB to hue and saturation, to compare
    [rgb_to_hsv] with.  With [M] the largest and [m] the smallest channel
    and [C = M - m]: the hue is [60 * (h' mod 6)] degrees, where [h'] is 0
    when [C = 0], [(g - b) / C] when [M] is red, [(b - r) / C + 2] when it
    is green and [(r - g) / C + 4] when it is blue; as a fraction of the
    turn that is the fractional part of [h' / 6].  The saturation is 0
    when [M = 0], else [C / M]. *)
Definition hue_standard (r g b : Q) : Q :=
  let M := Qmax r (Qmax g b) in
  let C := (M - Qmin r (Qmin g b))%Q in
  let h' := if Qeq_bool C 0 then 0%Q
            else if Qeq_bool M r then ((g - b) / C)%Q
            else if Qeq_bool M g then ((b - r) / C + 2)%Q
            else ((r - g) / C + 4)%Q in
  (h' / 6 - inject_Z (Qfloor (h' / 6)))%Q.

Definition saturation_standard (r g b : Q) : Q :=
  let M := Qmax r (Qmax g b) in
  if Qeq_bool M 0 then 0%Q else ((M - Qmin r (Qmin g b)) / M)%Q.

(** ** Widgets on display and the events they send *)

(** The blocks on display, frame after frame. *)
Definition all_blocks (frames : list EnvFrame) : list LightBlock :=
  frames ≫= env_children.

(** The dicts the callbacks of the widgets on display are bound to. *)
Definition bound_lights (st : LightApp) : list loc :=
  bound_light <$> all_blocks (light_frame st).

(** The block and the control entry that [populate_lights] makes for the
    dict [r] behind the reference [l] (lines 83-106). *)
Definition block_of (l : loc) (r : Light.t) : LightBlock :=
  mkBlock (Light.name r) (Light.state r) (Light.brightness r) l.

Definition controls_of (r : Light.t) : Controls :=
  mkControls (Light.state r) (Light.brightness r).

(** The blocks of the lights [ls], and their identifiers. *)
Definition blocks_of (dicts : list Light.t) (ls : list loc) : list LightBlock :=
  omap (fun l => block_of l <$> dicts !! l) ls.

Definition ids_of (dicts : list Light.t) (ls : list loc) : list Z :=
  omap (fun l => Light.id <$> dicts !! l) ls.

(** The assignments of line 106 for the lights [ls], in order, on the
    table [m]. *)
Definition controls_after (dicts : list Light.t) (ls : list loc)
    (m : gmap Z Controls) : gmap Z Controls :=
  foldl (fun m l => match dicts !! l with
                    | Some r => <[Light.id r := controls_of r]> m
                    | None => m
                    end) m ls.

(** What the user can do, once the window is up: tick the toggle of a
    block, move its slider, press its "Pick Color" button (the callbacks
    bound at lines 89, 96 and 102 to the dict of the block), or press
    "Refresh Lights" (line 39).  Each event carries what the outside
    answers: the value of the Tk variable, the colour of the dialog, the
    reply of the bridge. *)
Inductive event : Type :=
  | ToggleTicked (light : loc) (var : bool) (ack : reply unit)
  | SliderMoved (light : loc) (var : Q) (ack : reply unit)
  | ColorPressed (light : loc) (color : option (Z * Z * Z)) (ack : reply unit)
  | RefreshPressed (answer : reply (list (device_id * Device.t))).

Definition fire `{FloatModel} `{PyConfig} (e : event) : M unit :=
  match e with
  | ToggleTicked light var ack => toggle_light light var ack
  | SliderMoved light var ack => set_brightness light var ack
  | ColorPressed light color ack => pick_color light color ack
  | RefreshPressed answer => refresh_lights answer
  end.

(** The widget that sends the event is on display. *)
Definition on_display (st : LightApp) (e : event) : Prop :=
  match e with
  | ToggleTicked light _ _ | SliderMoved light _ _ | ColorPressed light _ _ =>
      light ∈ bound_lights st
  | RefreshPressed _ => True
  end.

(** The registry refers to dicts, and the widgets on display are those of
    the lights of the registry, one block each. *)
Definition app_inv (st : LightApp) : Prop :=
  well_formed st /\ bound_lights st ≡ₚ lights st.

(** The states the window goes through (lines 139-142): the one that
    [__init__] builds when it returns, then the one each event leaves,
    whether its callback returned or raised (the Tk main loop reports the
    exception of a callback and goes on). *)
Inductive reachable `{FloatModel} `{PyConfig} : LightApp -> Prop :=
  | reachable_init connected answer st :
      init connected answer new_app = Some (Ok tt, st) -> reachable st
  | reachable_fire st e res st' :
      reachable st -> on_display st e -> fire e st = Some (res, st') ->
      reachable st'.

(** * Properties *)

(** Running the primitives of the monad. *)
Ltac run :=
  repeat progress
    (unfold bind, ret, lift, getitem, getdict, setdict, newdict,
       call_bridge, print, pack_env, pack_light, store_controls, set_lights,
       set_light_frame, set_light_controls;
     cbn [store lights light_controls light_frame bridge stdout]).

(** ** Python numbers *)

Lemma int_of_float_nonneg (x : Q) :
  (0 <= x)%Q -> int_of_float x = Qfloor x.
Proof.
  destruct x as [p q]. unfold Qle, int_of_float, Qfloor. simpl. intros Hp.
  apply Z.quot_div_nonneg; lia.
Qed.

Lemma int_of_float_range (x : Q) (lo hi : Z) :
  0 <= lo -> (inject_Z lo <= x)%Q -> (x <= inject_Z hi)%Q ->
  lo <= int_of_float x <= hi.
Proof.
  intros Hlo Hl Hh.
  rewrite int_of_float_nonneg.
  - split.
    + rewrite <- (Qfloor_Z lo). now apply Qfloor_resp_le.
    + rewrite <- (Qfloor_Z hi). now apply Qfloor_resp_le.
  - apply Qle_trans with (inject_Z lo); [| exact Hl].
    change 0%Q with (inject_Z 0). rewrite <- Zle_Qle. exact Hlo.
Qed.

Lemma Qltb_true (a b : Q) : Qltb a b = true -> (a < b)%Q.
Proof.
  unfold Qltb. destruct (Qle_bool b a) eqn:E; [discriminate |]. intros _.
  apply Qnot_le_lt. intros H. apply Qle_bool_iff in H. congruence.
Qed.

Lemma Qltb_false (a b : Q) : Qltb a b = false -> (b <= a)%Q.
Proof.
  unfold Qltb. destruct (Qle_bool b a) eqn:E; [| discriminate]. intros _.
  now apply Qle_bool_iff.
Qed.

Lemma max3_spec (a b c : Q) :
  (a <= max3 a b c)%Q /\ (b <= max3 a b c)%Q /\ (c <= max3 a b c)%Q /\
  (max3 a b c = a \/ max3 a b c = b \/ max3 a b c = c).
Proof.
  unfold max3.
  destruct (Qltb a b) eqn:E1;
    [apply Qltb_true in E1 | apply Qltb_false in E1];
    match goal with
    | |- context [Qltb ?m c] =>
        destruct (Qltb m c) eqn:E2;
        [apply Qltb_true in E2 | apply Qltb_false in E2]
    end;
    repeat split; try lra; auto.
Qed.

Lemma min3_spec (a b c : Q) :
  (min3 a b c <= a)%Q /\ (min3 a b c <= b)%Q /\ (min3 a b c <= c)%Q /\
  (min3 a b c = a \/ min3 a b c = b \/ min3 a b c = c).
Proof.
  unfold min3.
  destruct (Qltb b a) eqn:E1;
    [apply Qltb_true in E1 | apply Qltb_false in E1];
    match goal with
    | |- context [Qltb c ?m] =>
        destruct (Qltb c m) eqn:E2;
        [apply Qltb_true in E2 | apply Qltb_false in E2]
    end;
    repeat split; try lra; auto.
Qed.

Lemma int_of_float_floor (x : Q) :
  (0 <= x)%Q ->
  (inject_Z (int_of_float x) <= x)%Q /\ (x < inject_Z (int_of_float x + 1))%Q.
Proof.
  intros Hx. rewrite int_of_float_nonneg by exact Hx.
  split; [apply Qfloor_le | apply Qlt_floor].
Qed.

Lemma int_of_float_comp (x y : Q) : (x == y)%Q -> int_of_float x = int_of_float y.
Proof.
  destruct x as [p q], y as [p' q']. unfold Qeq, int_of_float. cbn [Qnum Qden].
  intros H.
  rewrite <- (Z.quot_mul_cancel_r p (Z.pos q) (Z.pos q')) by lia.
  rewrite <- (Z.quot_mul_cancel_r p' (Z.pos q') (Z.pos q)) by lia.
  rewrite H. f_equal. lia.
Qed.

#[local] Instance int_of_float_proper : Proper (Qeq ==> eq) int_of_float.
Proof. intros x y. apply int_of_float_comp. Qed.

(** What [int] cuts off is less than one, and has the sign of the number. *)
Lemma int_of_float_frac (x : Q) :
  (-1 < x - inject_Z (int_of_float x))%Q /\
  (x - inject_Z (int_of_float x) < 1)%Q /\
  ((0 <= x)%Q -> (0 <= x - inject_Z (int_of_float x))%Q).
Proof.
  destruct x as [p q]. unfold int_of_float. cbn [Qnum Qden].
  pose proof (Z.quot_rem' p (Z.pos q)) as Hqr.
  pose proof (Z.rem_bound_abs p (Z.pos q) ltac:(lia)) as Habs.
  pose proof (Z.rem_sign_nz p (Z.pos q) ltac:(lia)) as Hsgn.
  unfold Qlt, Qle, Qminus, Qplus, Qopp, inject_Z. cbn [Qnum Qden].
  repeat split; try intros Hx; try lia; nia.
Qed.

Lemma Qeq_bool_false (x y : Q) : ~ (x == y)%Q -> Qeq_bool x y = false.
Proof.
  intros H. destruct (Qeq_bool x y) eqn:E; [| reflexivity].
  apply Qeq_bool_iff in E. contradiction.
Qed.

Lemma Qltb_comp (x x' y y' : Q) :
  (x == x')%Q -> (y == y')%Q -> Qltb x y = Qltb x' y'.
Proof.
  intros Hx Hy.
  destruct (Qltb x y) eqn:E1, (Qltb x' y') eqn:E2; try reflexivity.
  - apply Qltb_true in E1. apply Qltb_false in E2. lra.
  - apply Qltb_false in E1. apply Qltb_true in E2. lra.
Qed.

(** *** Rounding *)

Section Rounding.

Context {F : FloatModel} {L : FloatLaws F}.

#[local] Instance fl_Proper : Proper (Qeq ==> Qeq) fl.
Proof. intros x y. apply fl_proper. Qed.

Lemma fl_int (n : Z) : Z.abs n <= 2 ^ 53 -> (fl (inject_Z n) == inject_Z n)%Q.
Proof. intros Hn. apply fl_exact. now apply float_int. Qed.

Lemma fl_0 : (fl 0 == 0)%Q.
Proof. apply (fl_int 0). lia. Qed.

Lemma fl_1 : (fl 1 == 1)%Q.
Proof. apply (fl_int 1). lia. Qed.

Lemma fl_nonneg (x : Q) : (0 <= x)%Q -> (0 <= fl x)%Q.
Proof. intros Hx. rewrite <- fl_0. now apply fl_monotone. Qed.

Lemma fl_le_int (x : Q) (n : Z) :
  Z.abs n <= 2 ^ 53 -> (x <= inject_Z n)%Q -> (fl x <= inject_Z n)%Q.
Proof. intros Hn Hx. rewrite <- (fl_int n Hn). now apply fl_monotone. Qed.

Lemma fl_le_1 (x : Q) : (x <= 1)%Q -> (fl x <= 1)%Q.
Proof. apply (fl_le_int x 1). lia. Qed.

(** [x % 1.0] lies in [0, 1]: the upper bound is reached when a tiny
    negative remainder plus one rounds to one. *)
Lemma fmod1_range (x : Q) : (0 <= fmod1 x)%Q /\ (fmod1 x <= 1)%Q.
Proof.
  unfold fmod1. destruct (int_of_float_frac x) as (Hlo & Hhi & _).
  destruct (Qltb _ 0) eqn:E.
  - apply Qltb_true in E. split; [apply fl_nonneg | apply fl_le_1]; lra.
  - apply Qltb_false in E. split; lra.
Qed.

Lemma fmod1_comp (x y : Q) : (x == y)%Q -> (fmod1 x == fmod1 y)%Q.
Proof.
  intros H. unfold fmod1.
  assert (Hm : (x - inject_Z (int_of_float x) == y - inject_Z (int_of_float y))%Q)
    by (rewrite (int_of_float_comp x y H); lra).
  rewrite (Qltb_comp _ _ _ _ Hm (Qeq_refl 0)).
  destruct (Qltb _ 0); [now rewrite Hm | exact Hm].
Qed.

Lemma hue_value_comp (h h' : Q) : (h == h')%Q -> hue_value h = hue_value h'.
Proof. intros H. unfold hue_value. now rewrite H. Qed.

Lemma saturation_value_comp (s s' : Q) :
  (s == s')%Q -> saturation_value s = saturation_value s'.
Proof. intros H. unfold saturation_value. now rewrite H. Qed.

(** The values sent for a hue and a saturation in [0, 1]. *)
Lemma hue_value_range (h : Q) :
  (0 <= h)%Q -> (h <= 1)%Q ->
  0 <= hue_value h <= 65535 /\
  (inject_Z (hue_value h) <= fl (h * 65535))%Q /\
  (fl (h * 65535) < inject_Z (hue_value h + 1))%Q.
Proof.
  intros H0 H1. unfold hue_value.
  assert (Hlo : (0 <= fl (h * 65535))%Q) by (apply fl_nonneg; nra).
  assert (Hhi : (fl (h * 65535) <= inject_Z 65535)%Q).
  { apply fl_le_int; [lia |]. change (inject_Z 65535) with 65535%Q. nra. }
  split; [apply int_of_float_range; [lia | exact Hlo | exact Hhi] |].
  apply int_of_float_floor. exact Hlo.
Qed.

Lemma saturation_value_range (s : Q) :
  (0 <= s)%Q -> (s <= 1)%Q ->
  0 <= saturation_value s <= 254 /\
  (inject_Z (saturation_value s) <= fl (s * 254))%Q /\
  (fl (s * 254) < inject_Z (saturation_value s + 1))%Q.
Proof.
  intros H0 H1. unfold saturation_value.
  assert (Hlo : (0 <= fl (s * 254))%Q) by (apply fl_nonneg; nra).
  assert (Hhi : (fl (s * 254) <= inject_Z 254)%Q).
  { apply fl_le_int; [lia |]. change (inject_Z 254) with 254%Q. nra. }
  split; [apply int_of_float_range; [lia | exact Hlo | exact Hhi] |].
  apply int_of_float_floor. exact Hlo.
Qed.

Lemma hue_value_0 : hue_value 0 = 0.
Proof.
  unfold hue_value. assert (0 * 65535 == 0)%Q as -> by ring.
  now rewrite fl_0.
Qed.

Lemma saturation_value_0 : saturation_value 0 = 0.
Proof.
  unfold saturation_value. assert (0 * 254 == 0)%Q as -> by ring.
  now rewrite fl_0.
Qed.

Lemma saturation_value_1 : saturation_value 1 = 254.
Proof.
  unfold saturation_value. assert (1 * 254 == inject_Z 254)%Q as -> by ring.
  rewrite fl_int by lia. reflexivity.
Qed.

End Rounding.
(** *** [int] and [str] *)








(** ** Colour conversion *)

(** Exact arithmetic obeys the laws of rounding. *)
Lemma exact_laws : FloatLaws exact.
Proof.
  split; cbn [fl is_float exact].
  - intros x y H. exact H.
  - intros x y _ _. exact I.
  - intros x. exact I.
  - intros x _. reflexivity.
  - intros x y H. exact H.
  - intros n _. exact I.
  - intros x y _ _ Hne H0. apply Hne. lra.
Qed.

Section UnitCube.

Context {F : FloatModel} {L : FloatLaws F}.

(** A colour whose channels are floats in [0, 1]. *)
Variables r g b : Q.
Hypothesis r_float : is_float r.
Hypothesis g_float : is_float g.
Hypothesis b_float : is_float b.
Hypothesis r_range : (0 <= r)%Q /\ (r <= 1)%Q.
Hypothesis g_range : (0 <= g)%Q /\ (g <= 1)%Q.
Hypothesis b_range : (0 <= b)%Q /\ (b <= 1)%Q.

Lemma max3_float : is_float (max3 r g b).
Proof.
  destruct (max3_spec r g b) as (_ & _ & _ & [E | [E | E]]); now rewrite E.
Qed.

Lemma min3_float : is_float (min3 r g b).
Proof.
  destruct (min3_spec r g b) as (_ & _ & _ & [E | [E | E]]); now rewrite E.
Qed.

Lemma min3_nonneg : (0 <= min3 r g b)%Q.
Proof.
  destruct (min3_spec r g b) as (_ & _ & _ & [E | [E | E]]); rewrite E; tauto.
Qed.

Lemma max3_le_1 : (max3 r g b <= 1)%Q.
Proof.
  destruct (max3_spec r g b) as (_ & _ & _ & [E | [E | E]]); rewrite E; tauto.
Qed.

Lemma min3_le_max3 : (min3 r g b <= max3 r g b)%Q.
Proof.
  destruct (max3_spec r g b) as (Mr & _). destruct (min3_spec r g b) as (mr & _).
  lra.
Qed.

(** [rgb_to_hsv] returns: no division is by zero.  The hue and the
    saturation it returns are in [0, 1], and the value is the largest
    channel. *)
Lemma rgb_to_hsv_returns :
  exists h s v,
    rgb_to_hsv r g b = Ok (h, s, v) /\
    (0 <= h)%Q /\ (h <= 1)%Q /\ (0 <= s)%Q /\ (s <= 1)%Q /\ v = max3 r g b.
Proof.
  pose proof min3_nonneg as Hmin0. pose proof max3_le_1 as Hmax1.
  pose proof min3_le_max3 as Hle.
  pose proof max3_float as Hmaxf. pose proof min3_float as Hminf.
  unfold rgb_to_hsv.
  set (maxc := max3 r g b) in *. set (minc := min3 r g b) in *.
  destruct (Qeq_bool minc maxc) eqn:Heq.
  - exists 0%Q, 0%Q, maxc. repeat split; lra.
  - apply Qeq_bool_neq in Heq.
    assert (Hrange : ~ (fl (maxc - minc) == 0)%Q).
    { apply fl_sub_nonzero; [exact Hmaxf | exact Hminf |].
      intros H. apply Heq. now symmetry. }
    assert (Hrange0 : (0 <= fl (maxc - minc))%Q) by (apply fl_nonneg; lra).
    assert (Hrange1 : (fl (maxc - minc) <= maxc)%Q).
    { rewrite <- (fl_exact maxc Hmaxf) at 2. apply fl_monotone. lra. }
    assert (Hmax : ~ (maxc == 0)%Q) by lra.
    unfold fdiv. rewrite (Qeq_bool_false _ _ Hmax), (Qeq_bool_false _ _ Hrange).
    change (Qeq_bool 6 0) with false. cbn [mbind result_bind].
    eexists _, _, _. split; [reflexivity |].
    split; [apply fmod1_range |]. split; [apply fmod1_range |].
    split; [| split; [| reflexivity]].
    + apply fl_nonneg. apply Qle_shift_div_l; lra.
    + apply fl_le_1. apply Qle_shift_div_r; lra.
Qed.

End UnitCube.

Section NamedColours.

Context {F : FloatModel} {L : FloatLaws F}.

#[local] Existing Instance fl_Proper.

(** White: no saturation. *)
Lemma rgb_to_hsv_white : rgb_to_hsv 1 1 1 = Ok (0%Q, 0%Q, 1%Q).
Proof. reflexivity. Qed.

(** Red: hue 0 and full saturation. *)
Lemma rgb_to_hsv_red :
  exists h s, rgb_to_hsv 1 0 0 = Ok (h, s, 1%Q) /\ (h == 0)%Q /\ (s == 1)%Q.
Proof.
  assert (Hrange : (fl (1 - 0) == 1)%Q).
  { assert (1 - 0 == 1)%Q as -> by ring. apply fl_1. }
  unfold rgb_to_hsv.
  change (max3 1 0 0) with 1%Q. change (min3 1 0 0) with 0%Q.
  change (Qeq_bool 0 1) with false. change (Qeq_bool 1 1) with true.
  cbv iota. unfold fdiv.
  change (Qeq_bool 1 0) with false. change (Qeq_bool 6 0) with false.
  rewrite (Qeq_bool_false (fl (1 - 0)) 0) by (rewrite Hrange; discriminate).
  cbn [mbind result_bind].
  eexists _, _. split; [reflexivity |]. split.
  - assert (Hh : (fl (fl (fl (fl (1 - 0) / fl (1 - 0))
                          - fl (fl (1 - 0) / fl (1 - 0))) / 6) == 0)%Q).
    { assert (fl (fl (1 - 0) / fl (1 - 0)) - fl (fl (1 - 0) / fl (1 - 0)) == 0)%Q
        as -> by ring.
      rewrite fl_0. assert (0 / 6 == 0)%Q as -> by reflexivity. apply fl_0. }
    rewrite (fmod1_comp _ _ Hh). reflexivity.
  - rewrite Hrange. assert (1 / 1 == 1)%Q as -> by reflexivity. apply fl_1.
Qed.

End NamedColours.

(** [max3] and [min3] are the largest and the smallest of the three. *)
Lemma max3_Qmax (a b c : Q) : (max3 a b c == Qmax a (Qmax b c))%Q.
Proof.
  destruct (max3_spec a b c) as (Ha & Hb & Hc & Hin).
  assert (Hin' : (max3 a b c == a \/ max3 a b c == b \/ max3 a b c == c)%Q)
    by (destruct Hin as [E | [E | E]]; rewrite E; auto using Qeq_refl).
  clear Hin. set (M := max3 a b c) in *.
  destruct (Q.max_spec b c) as [[H1 E1] | [H1 E1]];
    destruct (Q.max_spec a (Qmax b c)) as [[H2 E2] | [H2 E2]];
    destruct Hin' as [E | [E | E]]; lra.
Qed.

Lemma min3_Qmin (a b c : Q) : (min3 a b c == Qmin a (Qmin b c))%Q.
Proof.
  destruct (min3_spec a b c) as (Ha & Hb & Hc & Hin).
  assert (Hin' : (min3 a b c == a \/ min3 a b c == b \/ min3 a b c == c)%Q)
    by (destruct Hin as [E | [E | E]]; rewrite E; auto using Qeq_refl).
  clear Hin. set (M := min3 a b c) in *.
  destruct (Q.min_spec b c) as [[H1 E1] | [H1 E1]];
    destruct (Q.min_spec a (Qmin b c)) as [[H2 E2] | [H2 E2]];
    destruct Hin' as [E | [E | E]]; lra.
Qed.

Section Accuracy.

Context {F : FloatModel} {L : FloatLaws F} {u : Q} {A : FloatAccuracy F u}.

#[local] Existing Instance fl_Proper.

Lemma quotient_near (N D N' D' : Q) :
  (0 <= N)%Q -> (N <= D)%Q -> (0 < D)%Q ->
  (N * (1 - u) <= N')%Q -> (N' <= N * (1 + u))%Q ->
  (D * (1 - u) <= D')%Q -> (D' <= D * (1 + u))%Q ->
  (N / D - 2 * u <= N' / D')%Q /\ (N' / D' <= N / D + 3 * u)%Q.
Proof.
  destruct acc_unit as [Hu0 Hu1].
  intros HN0 HND HD HN1 HN2 HD1 HD2.
  assert (HD' : (0 < D')%Q) by nra.
  set (p := (N / D)%Q).
  assert (Hp : (N == p * D)%Q) by (unfold p; field; lra).
  assert (Hp0 : (0 <= p)%Q) by (apply Qle_shift_div_l; lra).
  assert (Hp1 : (p <= 1)%Q) by (apply Qle_shift_div_r; lra).
  split.
  - apply Qle_shift_div_l; [exact HD' |]. nra.
  - apply Qle_shift_div_r; [exact HD' |]. nra.
Qed.

End Accuracy.

Lemma Qfloor_unique (x : Q) (z : Z) :
  (inject_Z z <= x)%Q -> (x < inject_Z (z + 1))%Q -> Qfloor x = z.
Proof.
  intros Hlo Hhi.
  pose proof (Qfloor_resp_le _ _ Hlo) as H1. rewrite Qfloor_Z in H1.
  pose proof (Qfloor_le x) as H2.
  assert (H3 : (inject_Z (Qfloor x) < inject_Z (z + 1))%Q) by lra.
  rewrite <- Zlt_Qlt in H3. lia.
Qed.

(** The textbook transform, case by case. *)
Section Standard.

Variables r g b : Q.
Let M := Qmax r (Qmax g b).
Let m := Qmin r (Qmin g b).

Lemma standard_bounds :
  (r <= M)%Q /\ (g <= M)%Q /\ (b <= M)%Q /\
  (m <= r)%Q /\ (m <= g)%Q /\ (m <= b)%Q /\
  (M == r \/ M == g \/ M == b)%Q.
Proof.
  unfold M, m.
  rewrite <- !max3_Qmax, <- !min3_Qmin.
  destruct (max3_spec r g b) as (H1 & H2 & H3 & H4).
  destruct (min3_spec r g b) as (H5 & H6 & H7 & _).
  repeat split; try assumption.
  destruct H4 as [E | [E | E]]; rewrite E; auto using Qeq_refl.
Qed.

Lemma hue_standard_grey : (m == M)%Q -> (hue_standard r g b == 0)%Q.
Proof.
  intros H. unfold hue_standard. fold M m.
  assert (E : Qeq_bool (M - m) 0 = true) by (apply Qeq_bool_iff; lra).
  rewrite E. reflexivity.
Qed.

Lemma hue_standard_red :
  ~ (m == M)%Q -> (M == r)%Q ->
  ((b <= g)%Q -> (hue_standard r g b == (g - b) / (M - m) / 6)%Q) /\
  ((g < b)%Q -> (hue_standard r g b == (g - b) / (M - m) / 6 + 1)%Q).
Proof.
  intros Hne Hr. destruct standard_bounds as (H1 & H2 & H3 & H4 & H5 & H6 & _).
  assert (HD : (0 < M - m)%Q) by lra.
  unfold hue_standard. fold M m.
  rewrite (Qeq_bool_false (M - m) 0) by lra.
  assert (E : Qeq_bool M r = true) by (now apply Qeq_bool_iff).
  rewrite E. set (t := ((g - b) / (M - m))%Q).
  assert (Ht1 : (t <= 1)%Q) by (apply Qle_shift_div_r; lra).
  assert (Ht0 : (-1 <= t)%Q) by (apply Qle_shift_div_l; lra).
  split; intros Hgb.
  - assert (0 <= t)%Q by (apply Qle_shift_div_l; lra).
    rewrite (Qfloor_unique (t / 6) 0).
    + change (inject_Z 0) with 0%Q. lra.
    + change (inject_Z 0) with 0%Q. apply Qle_shift_div_l; lra.
    + change (inject_Z (0 + 1)) with 1%Q. apply Qlt_shift_div_r; lra.
  - assert (t < 0)%Q by (apply Qlt_shift_div_r; lra).
    rewrite (Qfloor_unique (t / 6) (-1)).
    + change (inject_Z (-1)) with (-1)%Q. lra.
    + change (inject_Z (-1)) with (-1)%Q. apply Qle_shift_div_l; lra.
    + change (inject_Z (-1 + 1)) with 0%Q. apply Qlt_shift_div_r; lra.
Qed.

Lemma hue_standard_green :
  ~ (m == M)%Q -> ~ (M == r)%Q -> (M == g)%Q ->
  (hue_standard r g b == ((b - r) / (M - m) + 2) / 6)%Q.
Proof.
  intros Hne Hr Hg. destruct standard_bounds as (H1 & H2 & H3 & H4 & H5 & H6 & _).
  assert (HD : (0 < M - m)%Q) by lra.
  unfold hue_standard. fold M m.
  rewrite (Qeq_bool_false (M - m) 0) by lra.
  rewrite (Qeq_bool_false M r) by exact Hr.
  assert (E : Qeq_bool M g = true) by (now apply Qeq_bool_iff).
  rewrite E. set (t := ((b - r) / (M - m))%Q).
  assert (Ht1 : (t <= 1)%Q) by (apply Qle_shift_div_r; lra).
  assert (Ht0 : (-1 <= t)%Q) by (apply Qle_shift_div_l; lra).
  rewrite (Qfloor_unique ((t + 2) / 6) 0).
  - change (inject_Z 0) with 0%Q. lra.
  - change (inject_Z 0) with 0%Q. apply Qle_shift_div_l; lra.
  - change (inject_Z (0 + 1)) with 1%Q. apply Qlt_shift_div_r; lra.
Qed.

Lemma hue_standard_blue :
  ~ (m == M)%Q -> ~ (M == r)%Q -> ~ (M == g)%Q ->
  (hue_standard r g b == ((r - g) / (M - m) + 4) / 6)%Q.
Proof.
  intros Hne Hr Hg. destruct standard_bounds as (H1 & H2 & H3 & H4 & H5 & H6 & _).
  assert (HD : (0 < M - m)%Q) by lra.
  unfold hue_standard. fold M m.
  rewrite (Qeq_bool_false (M - m) 0) by lra.
  rewrite (Qeq_bool_false M r) by exact Hr.
  rewrite (Qeq_bool_false M g) by exact Hg.
  set (t := ((r - g) / (M - m))%Q).
  assert (Ht1 : (t <= 1)%Q) by (apply Qle_shift_div_r; lra).
  assert (Ht0 : (-1 <= t)%Q) by (apply Qle_shift_div_l; lra).
  rewrite (Qfloor_unique ((t + 4) / 6) 0).
  - change (inject_Z 0) with 0%Q. lra.
  - change (inject_Z 0) with 0%Q. apply Qle_shift_div_l; lra.
  - change (inject_Z (0 + 1)) with 1%Q. apply Qlt_shift_div_r; lra.
Qed.

Lemma saturation_standard_grey :
  (m == M)%Q -> (saturation_standard r g b == 0)%Q.
Proof.
  intros H. unfold saturation_standard. fold M m.
  destruct (Qeq_bool M 0); [reflexivity |].
  assert (M - m == 0)%Q as -> by lra. reflexivity.
Qed.

Lemma saturation_standard_coloured :
  (0 < M)%Q -> (saturation_standard r g b == (M - m) / M)%Q.
Proof.
  intros H. unfold saturation_standard. fold M m.
  rewrite (Qeq_bool_false M 0) by lra. reflexivity.
Qed.

End Standard.

Lemma int_of_float_opp (x : Q) : int_of_float (- x) = (- int_of_float x)%Z.
Proof.
  destruct x as [p q]. unfold int_of_float. cbn [Qnum Qden Qopp].
  apply Z.quot_opp_l. lia.
Qed.

Lemma int_of_float_small (x : Q) :
  (-1 < x)%Q -> (x < 1)%Q -> int_of_float x = 0%Z.
Proof.
  intros Hlo Hhi.
  destruct (int_of_float_frac x) as (Hf1 & Hf2 & Hf3).
  destruct (int_of_float_frac (- x)) as (Hf4 & Hf5 & Hf6).
  rewrite int_of_float_opp, inject_Z_opp in Hf4, Hf5, Hf6.
  assert (Hi1 : (inject_Z (-1) < inject_Z (int_of_float x))%Q).
  { change (inject_Z (-1)) with (-1)%Q.
    destruct (Qlt_le_dec x 0) as [Hneg | Hpos]; [specialize (Hf6 ltac:(lra)) |]; lra. }
  assert (Hi2 : (inject_Z (int_of_float x) < inject_Z 1)%Q).
  { change (inject_Z 1) with 1%Q.
    destruct (Qlt_le_dec x 0) as [Hneg | Hpos]; [| specialize (Hf3 Hpos)]; lra. }
  rewrite <- Zlt_Qlt in Hi1, Hi2. lia.
Qed.

Section Remainder.

Context {F : FloatModel} {L : FloatLaws F}.

Lemma fmod1_unit (x : Q) : (0 <= x)%Q -> (x < 1)%Q -> (fmod1 x == x)%Q.
Proof.
  intros H0 H1. unfold fmod1. rewrite int_of_float_small by lra.
  change (inject_Z 0) with 0%Q.
  destruct (Qltb (x - 0) 0) eqn:E; [apply Qltb_true in E; lra | lra].
Qed.

Lemma fmod1_wrap (x : Q) : (-1 < x)%Q -> (x < 0)%Q -> (fmod1 x == fl (x + 1))%Q.
Proof.
  intros H0 H1. unfold fmod1. rewrite int_of_float_small by lra.
  change (inject_Z 0) with 0%Q.
  destruct (Qltb (x - 0) 0) eqn:E; [| apply Qltb_false in E; lra].
  apply fl_proper. lra.
Qed.

End Remainder.

Section NearStandard.

Context {F : FloatModel} {L : FloatLaws F} {u : Q} {A : FloatAccuracy F u}.

#[local] Existing Instance fl_Proper.

Variables r g b : Q.
Hypothesis r_float : is_float r.
Hypothesis g_float : is_float g.
Hypothesis b_float : is_float b.
Hypothesis r_range : (0 <= r)%Q /\ (r <= 1)%Q.
Hypothesis g_range : (0 <= g)%Q /\ (g <= 1)%Q.
Hypothesis b_range : (0 <= b)%Q /\ (b <= 1)%Q.

Let maxc := max3 r g b.
Let minc := min3 r g b.

Hypothesis coloured : ~ (minc == maxc)%Q.

Lemma range_near :
  (0 < maxc - minc)%Q /\
  ((maxc - minc) * (1 - u) <= fl (maxc - minc))%Q /\
  (fl (maxc - minc) <= (maxc - minc) * (1 + u))%Q /\
  (0 < fl (maxc - minc))%Q.
Proof.
  destruct acc_unit as [Hu0 Hu1].
  pose proof (min3_le_max3 r g b) as Hle. fold maxc minc in Hle.
  assert (HD : (0 < maxc - minc)%Q) by lra.
  destruct (acc_sub maxc minc (max3_float r g b r_float g_float b_float)
              (min3_float r g b r_float g_float b_float) Hle) as [H1 H2].
  split; [exact HD |]. split; [exact H1 |]. split; [exact H2 |]. nra.
Qed.

(** One of [rc], [gc], [bc]. *)
Lemma channel_near (x : Q) :
  is_float x -> (minc <= x)%Q -> (x <= maxc)%Q ->
  ((maxc - x) / (maxc - minc) - 4 * u
   <= fl (fl (maxc - x) / fl (maxc - minc)))%Q /\
  (fl (fl (maxc - x) / fl (maxc - minc))
   <= (maxc - x) / (maxc - minc) + 5 * u)%Q.
Proof.
  intros Hx Hlo Hhi. destruct acc_unit as [Hu0 Hu1].
  destruct range_near as (HD & HD1 & HD2 & HD').
  destruct (acc_sub maxc x (max3_float r g b r_float g_float b_float) Hx Hhi)
    as [HN1 HN2].
  destruct (quotient_near (maxc - x) (maxc - minc) (fl (maxc - x))
              (fl (maxc - minc)) ltac:(lra) ltac:(lra) HD HN1 HN2 HD1 HD2)
    as [Hq1 Hq2].
  set (q := (fl (maxc - x) / fl (maxc - minc))%Q) in *.
  set (p := ((maxc - x) / (maxc - minc))%Q) in *.
  assert (Hp0 : (0 <= p)%Q) by (apply Qle_shift_div_l; lra).
  assert (Hp1 : (p <= 1)%Q) by (apply Qle_shift_div_r; lra).
  destruct (acc_round q 2 ltac:(lra) ltac:(lra) ltac:(lra)) as [H1 H2].
  split; lra.
Qed.

Lemma channel_monotone (x y : Q) :
  (x <= y)%Q ->
  (fl (fl (maxc - y) / fl (maxc - minc))
   <= fl (fl (maxc - x) / fl (maxc - minc)))%Q.
Proof.
  intros Hxy. destruct range_near as (_ & _ & _ & HD').
  apply fl_monotone. unfold Qdiv. apply Qmult_le_compat_r.
  - apply fl_monotone. lra.
  - apply Qinv_le_0_compat. lra.
Qed.


Lemma channel_bounds :
  (minc <= r)%Q /\ (r <= maxc)%Q /\ (minc <= g)%Q /\ (g <= maxc)%Q /\
  (minc <= b)%Q /\ (b <= maxc)%Q /\ (0 <= minc)%Q /\ (maxc <= 1)%Q.
Proof.
  destruct (max3_spec r g b) as (H1 & H2 & H3 & _).
  destruct (min3_spec r g b) as (H4 & H5 & H6 & _).
  pose proof (min3_nonneg r g b r_range g_range b_range).
  pose proof (max3_le_1 r g b r_range g_range b_range).
  unfold maxc, minc. tauto.
Qed.

(** The saturation. *)
Lemma saturation_near :
  ((maxc - minc) / maxc - 3 * u <= fl (fl (maxc - minc) / maxc))%Q /\
  (fl (fl (maxc - minc) / maxc) <= (maxc - minc) / maxc + 3 * u)%Q.
Proof.
  destruct acc_unit as [Hu0 Hu1].
  destruct range_near as (HD & HD1 & HD2 & HD').
  destruct channel_bounds as (_ & _ & _ & _ & _ & _ & Hm0 & HM1).
  assert (HM : (0 < maxc)%Q) by lra.
  set (p := ((maxc - minc) / maxc)%Q).
  assert (Hp : (maxc - minc == p * maxc)%Q) by (unfold p; field; lra).
  assert (Hp0 : (0 <= p)%Q) by (apply Qle_shift_div_l; lra).
  assert (Hp1 : (p <= 1)%Q) by (apply Qle_shift_div_r; lra).
  set (q := (fl (maxc - minc) / maxc)%Q).
  assert (Hq1 : (p - u <= q)%Q) by (apply Qle_shift_div_l; [exact HM | nra]).
  assert (Hq2 : (q <= p + u)%Q) by (apply Qle_shift_div_r; [exact HM | nra]).
  destruct (acc_round q 2 ltac:(lra) ltac:(lra) ltac:(lra)) as [H1 H2].
  split; lra.
Qed.

(** The hue, when red is the largest channel. *)
Lemma hue_near_red :
  let bc := fl (fl (maxc - b) / fl (maxc - minc)) in
  let gc := fl (fl (maxc - g) / fl (maxc - minc)) in
  let h := fmod1 (fl (fl (bc - gc) / 6)) in
  let t := ((g - b) / (maxc - minc) / 6)%Q in
  ((b <= g)%Q -> (t - 3 * u <= h)%Q /\ (h <= t + 3 * u)%Q) /\
  ((g < b)%Q ->
   ((t + 1 - 4 * u <= h)%Q /\ (h <= t + 1 + 4 * u)%Q) \/
   ((h == 0)%Q /\ (- (3 * u) <= t)%Q)).
Proof.
  intros bc gc h t. destruct acc_unit as [Hu0 Hu1].
  destruct range_near as (HD & _ & _ & HD').
  destruct channel_bounds as (_ & _ & Hg0 & Hg1 & Hb0 & Hb1 & _ & _).
  destruct (channel_near b b_float Hb0 Hb1) as [Hbc1 Hbc2].
  destruct (channel_near g g_float Hg0 Hg1) as [Hgc1 Hgc2].
  fold bc in Hbc1, Hbc2. fold gc in Hgc1, Hgc2.
  set (pb := ((maxc - b) / (maxc - minc))%Q) in *.
  set (pg := ((maxc - g) / (maxc - minc))%Q) in *.
  assert (Hpb0 : (0 <= pb)%Q) by (apply Qle_shift_div_l; lra).
  assert (Hpb1 : (pb <= 1)%Q) by (apply Qle_shift_div_r; lra).
  assert (Hpg0 : (0 <= pg)%Q) by (apply Qle_shift_div_l; lra).
  assert (Hpg1 : (pg <= 1)%Q) by (apply Qle_shift_div_r; lra).
  assert (Ht : (t == (pb - pg) * (1 # 6))%Q) by (unfold t, pb, pg; field; lra).
  destruct (acc_round (bc - gc) 2 ltac:(lra) ltac:(lra) ltac:(lra)) as [H1 H2].
  set (h0 := fl (bc - gc)) in *.
  assert (Hy : (h0 / 6 == h0 * (1 # 6))%Q) by field.
  set (y := (h0 / 6)%Q) in *.
  destruct (acc_round y 1 ltac:(lra) ltac:(lra) ltac:(lra)) as [H3 H4].
  set (h1 := fl y) in *.
  assert (Hh1 : (t - 3 * u <= h1)%Q /\ (h1 <= t + 3 * u)%Q) by (split; lra).
  split; intros Hgb.
  - assert (Hsign : (0 <= h1)%Q).
    { apply fl_nonneg.
      assert (0 <= h0)%Q; [| lra].
      apply fl_nonneg.
      pose proof (channel_monotone b g Hgb) as Hmono.
      fold gc bc in Hmono. lra. }
    assert (Hh : (h == h1)%Q) by (apply fmod1_unit; lra).
    rewrite Hh. exact Hh1.
  - assert (Hsign : (h1 <= 0)%Q).
    { rewrite <- fl_0. apply fl_monotone.
      assert (h0 <= 0)%Q; [| lra].
      unfold h0. rewrite <- fl_0. apply fl_monotone.
      pose proof (channel_monotone g b ltac:(lra)) as Hmono.
      fold gc bc in Hmono. lra. }
    destruct (Qlt_le_dec h1 0) as [Hneg | Hzero].
    + left.
      assert (Hh : (h == fl (h1 + 1))%Q) by (apply fmod1_wrap; lra).
      destruct (acc_round (h1 + 1) 1 ltac:(lra) ltac:(lra) ltac:(lra)) as [H5 H6].
      rewrite Hh. split; lra.
    + right. assert (Hz : (h1 == 0)%Q) by lra.
      split; [| lra].
      unfold h. rewrite (fmod1_comp h1 0 Hz). reflexivity.
Qed.


(** The hue, when green is the largest channel. *)
Lemma hue_near_green :
  let rc := fl (fl (maxc - r) / fl (maxc - minc)) in
  let bc := fl (fl (maxc - b) / fl (maxc - minc)) in
  let h := fmod1 (fl (fl (fl (2 + rc) - bc) / 6)) in
  let t := (((b - r) / (maxc - minc) + 2) / 6)%Q in
  (t - 4 * u <= h)%Q /\ (h <= t + 4 * u)%Q.
Proof.
  intros rc bc h t. destruct acc_unit as [Hu0 Hu1].
  destruct range_near as (HD & _ & _ & HD').
  destruct channel_bounds as (Hr0 & Hr1 & _ & _ & Hb0 & Hb1 & _ & _).
  destruct (channel_near r r_float Hr0 Hr1) as [Hrc1 Hrc2].
  destruct (channel_near b b_float Hb0 Hb1) as [Hbc1 Hbc2].
  fold rc in Hrc1, Hrc2. fold bc in Hbc1, Hbc2.
  set (pr := ((maxc - r) / (maxc - minc))%Q) in *.
  set (pb := ((maxc - b) / (maxc - minc))%Q) in *.
  assert (Hpr0 : (0 <= pr)%Q) by (apply Qle_shift_div_l; lra).
  assert (Hpr1 : (pr <= 1)%Q) by (apply Qle_shift_div_r; lra).
  assert (Hpb0 : (0 <= pb)%Q) by (apply Qle_shift_div_l; lra).
  assert (Hpb1 : (pb <= 1)%Q) by (apply Qle_shift_div_r; lra).
  assert (Ht : (t == (2 + pr - pb) * (1 # 6))%Q) by (unfold t, pr, pb; field; lra).
  destruct (acc_round (2 + rc) 4 ltac:(lra) ltac:(lra) ltac:(lra)) as [H1 H2].
  set (a := fl (2 + rc)) in *.
  destruct (acc_round (a - bc) 4 ltac:(lra) ltac:(lra) ltac:(lra)) as [H3 H4].
  set (h0 := fl (a - bc)) in *.
  assert (Hy : (h0 / 6 == h0 * (1 # 6))%Q) by field.
  set (y := (h0 / 6)%Q) in *.
  destruct (acc_round y 1 ltac:(lra) ltac:(lra) ltac:(lra)) as [H5 H6].
  set (h1 := fl y) in *.
  assert (Hh : (h == h1)%Q) by (apply fmod1_unit; lra).
  rewrite Hh. split; lra.
Qed.

(** The hue, when blue is the largest channel. *)
Lemma hue_near_blue :
  let rc := fl (fl (maxc - r) / fl (maxc - minc)) in
  let gc := fl (fl (maxc - g) / fl (maxc - minc)) in
  let h := fmod1 (fl (fl (fl (4 + gc) - rc) / 6)) in
  let t := (((r - g) / (maxc - minc) + 4) / 6)%Q in
  (t - 6 * u <= h)%Q /\ (h <= t + 6 * u)%Q.
Proof.
  intros rc gc h t. destruct acc_unit as [Hu0 Hu1].
  destruct range_near as (HD & _ & _ & HD').
  destruct channel_bounds as (Hr0 & Hr1 & Hg0 & Hg1 & _ & _ & _ & _).
  destruct (channel_near r r_float Hr0 Hr1) as [Hrc1 Hrc2].
  destruct (channel_near g g_float Hg0 Hg1) as [Hgc1 Hgc2].
  fold rc in Hrc1, Hrc2. fold gc in Hgc1, Hgc2.
  set (pr := ((maxc - r) / (maxc - minc))%Q) in *.
  set (pg := ((maxc - g) / (maxc - minc))%Q) in *.
  assert (Hpr0 : (0 <= pr)%Q) by (apply Qle_shift_div_l; lra).
  assert (Hpr1 : (pr <= 1)%Q) by (apply Qle_shift_div_r; lra).
  assert (Hpg0 : (0 <= pg)%Q) by (apply Qle_shift_div_l; lra).
  assert (Hpg1 : (pg <= 1)%Q) by (apply Qle_shift_div_r; lra).
  assert (Ht : (t == (4 + pg - pr) * (1 # 6))%Q) by (unfold t, pr, pg; field; lra).
  destruct (acc_round (4 + gc) 8 ltac:(lra) ltac:(lra) ltac:(lra)) as [H1 H2].
  set (a := fl (4 + gc)) in *.
  destruct (acc_round (a - rc) 8 ltac:(lra) ltac:(lra) ltac:(lra)) as [H3 H4].
  set (h0 := fl (a - rc)) in *.
  assert (Hy : (h0 / 6 == h0 * (1 # 6))%Q) by field.
  set (y := (h0 / 6)%Q) in *.
  destruct (acc_round y 1 ltac:(lra) ltac:(lra) ltac:(lra)) as [H5 H6].
  set (h1 := fl y) in *.
  assert (Hh : (h == h1)%Q) by (apply fmod1_unit; lra).
  rewrite Hh. split; lra.
Qed.

End NearStandard.

Section Conversion.

Context {F : FloatModel} {L : FloatLaws F} {u : Q} {A : FloatAccuracy F u}.

#[local] Existing Instance fl_Proper.

(** For a colour whose channels are floats in [0, 1], [rgb_to_hsv] returns
    the largest channel as the value, a saturation within [3 u] of the
    textbook one, and a hue within [6 u] of the textbook one; or the hue 0
    where the textbook hue is within [6 u] of a full turn. *)
Lemma rgb_to_hsv_near_standard (r g b : Q) :
  is_float r -> is_float g -> is_float b ->
  (0 <= r)%Q /\ (r <= 1)%Q ->
  (0 <= g)%Q /\ (g <= 1)%Q ->
  (0 <= b)%Q /\ (b <= 1)%Q ->
  exists h s v,
    rgb_to_hsv r g b = Ok (h, s, v) /\
    (v == Qmax r (Qmax g b))%Q /\
    ((saturation_standard r g b - 3 * u <= s)%Q /\
     (s <= saturation_standard r g b + 3 * u)%Q) /\
    (((hue_standard r g b - 6 * u <= h)%Q /\
      (h <= hue_standard r g b + 6 * u)%Q) \/
     ((h == 0)%Q /\ (1 - 6 * u <= hue_standard r g b)%Q)).
Proof.
  intros Hrf Hgf Hbf Hr Hg Hb. destruct acc_unit as [Hu0 Hu1].
  pose proof (max3_Qmax r g b) as HM. pose proof (min3_Qmin r g b) as Hm.
  pose proof (max3_float r g b Hrf Hgf Hbf) as Hmaxf.
  pose proof (min3_float r g b Hrf Hgf Hbf) as Hminf.
  destruct (channel_bounds r g b Hr Hg Hb)
    as (Hr0 & Hr1 & Hg0 & Hg1 & Hb0 & Hb1 & Hmin0 & Hmax1).
  unfold rgb_to_hsv.
  set (maxc := max3 r g b) in *. set (minc := min3 r g b) in *.
  destruct (Qeq_bool minc maxc) eqn:Heq.
  - apply Qeq_bool_iff in Heq.
    assert (Hgrey : (Qmin r (Qmin g b) == Qmax r (Qmax g b))%Q)
      by (rewrite <- HM, <- Hm; exact Heq).
    exists 0%Q, 0%Q, maxc. split; [reflexivity |]. split; [exact HM |].
    rewrite (saturation_standard_grey r g b Hgrey), (hue_standard_grey r g b Hgrey).
    split; [split; lra |]. left. split; lra.
  - apply Qeq_bool_neq in Heq.
    assert (Hcol : ~ (Qmin r (Qmin g b) == Qmax r (Qmax g b))%Q)
      by (rewrite <- HM, <- Hm; exact Heq).
    destruct (range_near r g b Hrf Hgf Hbf Heq) as (HD & _ & _ & HD').
    fold maxc minc in HD, HD'.
    assert (Hmax : ~ (maxc == 0)%Q) by lra.
    assert (Hrange : ~ (fl (maxc - minc) == 0)%Q) by lra.
    unfold fdiv. rewrite (Qeq_bool_false _ _ Hmax), (Qeq_bool_false _ _ Hrange).
    change (Qeq_bool 6 0) with false. cbn [mbind result_bind].
    eexists _, _, _. split; [reflexivity |]. split; [exact HM |].
    split.
    { rewrite (saturation_standard_coloured r g b) by (rewrite <- HM; lra).
      rewrite <- HM, <- Hm.
      apply (saturation_near r g b Hrf Hgf Hbf Hr Hg Hb Heq). }
    destruct (Qeq_bool r maxc) eqn:Er.
    + apply Qeq_bool_iff in Er.
      destruct (hue_standard_red r g b Hcol ltac:(rewrite <- HM; now symmetry))
        as [Hstd1 Hstd2].
      rewrite <- HM, <- Hm in Hstd1, Hstd2. fold maxc minc in Hstd1, Hstd2.
      destruct (hue_near_red r g b Hrf Hgf Hbf Hr Hg Hb Heq) as [Hn1 Hn2].
      fold maxc minc in Hn1, Hn2.
      destruct (Qlt_le_dec g b) as [Hgb | Hgb].
      * rewrite (Hstd2 Hgb).
        destruct (Hn2 Hgb) as [[H1 H2] | [H1 H2]]; [left; split; lra | right].
        split; [exact H1 | lra].
      * rewrite (Hstd1 Hgb). left. destruct (Hn1 Hgb). split; lra.
    + apply Qeq_bool_neq in Er.
      assert (Er' : ~ (Qmax r (Qmax g b) == r)%Q)
        by (rewrite <- HM; intros E; apply Er; now symmetry).
      destruct (Qeq_bool g maxc) eqn:Eg.
      * apply Qeq_bool_iff in Eg.
        rewrite (hue_standard_green r g b Hcol Er'
                   ltac:(rewrite <- HM; now symmetry)).
        rewrite <- HM, <- Hm. fold maxc minc.
        destruct (hue_near_green r g b Hrf Hgf Hbf Hr Hg Hb Heq) as [H1 H2].
        fold maxc minc in H1, H2. left. split; lra.
      * apply Qeq_bool_neq in Eg.
        assert (Eg' : ~ (Qmax r (Qmax g b) == g)%Q)
          by (rewrite <- HM; intros E; apply Eg; now symmetry).
        rewrite (hue_standard_blue r g b Hcol Er' Eg').
        rewrite <- HM, <- Hm. fold maxc minc.
        destruct (hue_near_blue r g b Hrf Hgf Hbf Hr Hg Hb Heq) as [H1 H2].
        fold maxc minc in H1, H2. left. split; lra.
Qed.

End Conversion.

(** ** Double precision obeys the laws of rounding *)

(** *** Rounding to the nearest integer *)

Lemma rne_floor (x : Q) : Qfloor x <= rne x <= Qfloor x + 1.
Proof.
  unfold rne. destruct (_ ?= _)%Q; [destruct (Z.even _) |..]; lia.
Qed.

Lemma rne_spec (x : Q) :
  (inject_Z (rne x) - (1 # 2) <= x)%Q /\ (x <= inject_Z (rne x) + (1 # 2))%Q.
Proof.
  unfold rne. pose proof (Qfloor_le x) as H1. pose proof (Qlt_floor x) as H2.
  rewrite inject_Z_plus in H2. change (inject_Z 1) with 1%Q in H2.
  destruct (_ ?= _)%Q eqn:E.
  - apply Qeq_alt in E.
    destruct (Z.even _); rewrite ?inject_Z_plus; change (inject_Z 1) with 1%Q;
      split; lra.
  - apply Qlt_alt in E. split; lra.
  - apply Qgt_alt in E. rewrite inject_Z_plus. change (inject_Z 1) with 1%Q.
    split; lra.
Qed.

Lemma rne_Z (k : Z) : rne (inject_Z k) = k.
Proof.
  unfold rne. rewrite Qfloor_Z.
  assert (E : (inject_Z k - inject_Z k ?= 1 # 2)%Q = Lt)
    by (apply (proj1 (Qlt_alt _ _)); lra).
  now rewrite E.
Qed.

Lemma rne_comp (x y : Q) : (x == y)%Q -> rne x = rne y.
Proof.
  intros H. unfold rne. rewrite (Qfloor_comp _ _ H).
  assert (E : (x - inject_Z (Qfloor y) ?= 1 # 2)%Q
              = (y - inject_Z (Qfloor y) ?= 1 # 2)%Q)
    by (apply Qcompare_comp; [now rewrite H | reflexivity]).
  now rewrite E.
Qed.

Lemma rne_monotone (x y : Q) : (x <= y)%Q -> rne x <= rne y.
Proof.
  intros H. pose proof (Qfloor_resp_le _ _ H) as Hf.
  destruct (Z.eq_dec (Qfloor x) (Qfloor y)) as [E | E].
  - unfold rne. rewrite E.
    destruct (Qcompare_spec (x - inject_Z (Qfloor y)) (1 # 2)) as [E1 | E1 | E1];
      destruct (Qcompare_spec (y - inject_Z (Qfloor y)) (1 # 2)) as [E2 | E2 | E2];
      try destruct (Z.even _); try lia; exfalso; lra.
  - pose proof (rne_floor x). pose proof (rne_floor y). lia.
Qed.

(** *** Powers of two *)

Lemma pow2_pos (e : Z) : (0 < 2 ^ e)%Q.
Proof. apply Qpower_0_lt. reflexivity. Qed.

Lemma pow2_Z (n : Z) : 0 <= n -> (inject_Z (2 ^ n) == 2 ^ n)%Q.
Proof. intros H. apply (Zpower_Qpower 2 n H). Qed.

Lemma pow2_plus (a b : Z) : (2 ^ (a + b) == 2 ^ a * 2 ^ b)%Q.
Proof. apply Qpower_plus. discriminate. Qed.

Lemma pow2_succ (a : Z) : (2 ^ (a + 1) == 2 * 2 ^ a)%Q.
Proof. rewrite pow2_plus. change (2 ^ 1)%Q with 2%Q. ring. Qed.

Lemma pow2_le (a b : Z) : a <= b -> (2 ^ a <= 2 ^ b)%Q.
Proof. intros H. apply Qpower_le_compat_l; [exact H | discriminate]. Qed.

Lemma pow2_lt (a b : Z) : a < b -> (2 ^ a < 2 ^ b)%Q.
Proof. intros H. apply Qpower_lt_compat_l; [exact H | reflexivity]. Qed.

Lemma pow2_lt_inv (a b : Z) : (2 ^ a < 2 ^ b)%Q -> a < b.
Proof. intros H. apply (Qpower_lt_compat_l_inv 2 a b H). reflexivity. Qed.

Lemma pow2_div (a b : Z) : (2 ^ a / 2 ^ b == 2 ^ (a - b))%Q.
Proof.
  pose proof (pow2_pos b) as Hb.
  replace a with ((a - b) + b) at 1 by lia. rewrite pow2_plus.
  field. lra.
Qed.

(** *** The exponent *)

Lemma exponent_spec (x : Q) :
  ~ (x == 0)%Q ->
  (2 ^ exponent x <= Qabs x)%Q /\ (Qabs x < 2 ^ (exponent x + 1))%Q.
Proof.
  intros Hx. unfold exponent.
  assert (Ha : (0 < Qabs x)%Q).
  { pose proof (Qabs_nonneg x) as H0.
    destruct (Qeq_dec (Qabs x) 0) as [E | E]; [| lra].
    exfalso. apply Hx. revert E. apply Qabs_case; intros; lra. }
  set (a := Qabs x) in *.
  destruct (Qle_bool 1 a) eqn:E.
  - apply Qle_bool_iff in E.
    pose proof (Qfloor_le a) as H1. pose proof (Qlt_floor a) as H2.
    assert (Hf : 0 < Qfloor a).
    { pose proof (Qfloor_resp_le _ _ E) as H. change (Qfloor 1) with 1 in H. lia. }
    destruct (Z.log2_spec (Qfloor a) Hf) as [H3 H4].
    pose proof (Z.log2_nonneg (Qfloor a)) as H5.
    rewrite Zle_Qle, pow2_Z in H3 by exact H5.
    assert (H6 : 2 ^ (Z.log2 (Qfloor a) + 1) >= Qfloor a + 1)
      by (rewrite <- Z.add_1_r in H4; lia).
    apply Z.ge_le in H6. rewrite Zle_Qle, pow2_Z in H6 by lia.
    split; lra.
  - assert (E' : (a < 1)%Q).
    { destruct (Qlt_le_dec a 1) as [H | H]; [exact H |].
      apply Qle_bool_iff in H. congruence. }
    clear E.
    assert (Hy : (1 < / a)%Q).
    { apply Qlt_shift_inv_l; [exact Ha | lra]. }
    set (y := (/ a)%Q) in *.
    pose proof (Qle_ceiling y) as H1. pose proof (Qceiling_lt y) as H2.
    assert (Hc : 1 < Qceiling y).
    { assert (H : (inject_Z 1 < inject_Z (Qceiling y))%Q)
        by (change (inject_Z 1) with 1%Q; lra).
      now rewrite <- Zlt_Qlt in H. }
    destruct (Z.log2_up_spec (Qceiling y) Hc) as [H3 H4].
    set (k := Z.log2_up (Qceiling y)) in *.
    assert (Hk : 0 < k) by (apply Z.log2_up_pos; exact Hc).
    rewrite Zle_Qle, pow2_Z in H4 by lia.
    assert (H5 : 2 ^ Z.pred k <= Qceiling y - 1) by lia.
    rewrite Zle_Qle, pow2_Z in H5 by lia.
    assert (Hay : (a == / y)%Q) by (unfold y; field; lra).
    assert (Hy0 : (0 < y)%Q) by lra.
    pose proof (pow2_pos k) as Hk0. pose proof (pow2_pos (Z.pred k)) as Hk1.
    rewrite Qpower_opp.
    replace (- k + 1) with (- Z.pred k) by lia. rewrite Qpower_opp.
    rewrite Hay. split.
    + apply Qle_shift_inv_l; [exact Hy0 |].
      assert (/ 2 ^ k * y == y / 2 ^ k)%Q as -> by (field; lra).
      apply Qle_shift_div_r; lra.
    + apply Qlt_shift_inv_l; [exact Hk1 |].
      assert (/ y * 2 ^ Z.pred k == 2 ^ Z.pred k / y)%Q as -> by (field; lra).
      apply Qlt_shift_div_r; lra.
Qed.

Lemma exponent_unique (x : Q) (e : Z) :
  (2 ^ e <= Qabs x)%Q -> (Qabs x < 2 ^ (e + 1))%Q -> exponent x = e.
Proof.
  intros H1 H2.
  assert (Hx : ~ (x == 0)%Q).
  { intros E. pose proof (pow2_pos e). rewrite E in H1. change (Qabs 0) with 0%Q in H1. lra. }
  destruct (exponent_spec x Hx) as [H3 H4].
  assert (H5 : (2 ^ e < 2 ^ (exponent x + 1))%Q) by lra.
  assert (H6 : (2 ^ exponent x < 2 ^ (e + 1))%Q) by lra.
  apply pow2_lt_inv in H5, H6. lia.
Qed.

Lemma exponent_comp (x y : Q) : (x == y)%Q -> exponent x = exponent y.
Proof.
  intros H. unfold exponent.
  assert (Ha : (Qabs x == Qabs y)%Q) by now rewrite H.
  assert (E : Qle_bool 1 (Qabs x) = Qle_bool 1 (Qabs y)).
  { destruct (Qle_bool 1 (Qabs x)) eqn:E1, (Qle_bool 1 (Qabs y)) eqn:E2;
      try reflexivity.
    - apply Qle_bool_iff in E1. rewrite Ha in E1. apply Qle_bool_iff in E1. congruence.
    - apply Qle_bool_iff in E2. rewrite <- Ha in E2. apply Qle_bool_iff in E2. congruence. }
  rewrite E. destruct (Qle_bool 1 (Qabs y)).
  - now rewrite (Qfloor_comp _ _ Ha).
  - assert (Hi : (/ Qabs x == / Qabs y)%Q) by now rewrite Ha.
    now rewrite (Qceiling_comp _ _ Hi).
Qed.

(** *** Rounding to a float *)

Lemma quantum_comp (x y : Q) : (x == y)%Q -> quantum x = quantum y.
Proof. intros H. unfold quantum. now rewrite (exponent_comp x y H). Qed.

Lemma round64_comp (x y : Q) : (x == y)%Q -> (round64 x == round64 y)%Q.
Proof.
  intros H. unfold round64. rewrite (quantum_comp x y H).
  assert (E : (x / 2 ^ quantum y == y / 2 ^ quantum y)%Q) by now rewrite H.
  now rewrite (rne_comp _ _ E).
Qed.

(** The error is half a quantum at most. *)
Lemma round64_error (x : Q) :
  (round64 x - 2 ^ quantum x / 2 <= x)%Q /\
  (x <= round64 x + 2 ^ quantum x / 2)%Q.
Proof.
  unfold round64. pose proof (pow2_pos (quantum x)) as Hq.
  destruct (rne_spec (x / 2 ^ quantum x)) as [H1 H2].
  set (R := inject_Z (rne (x / 2 ^ quantum x))) in *.
  set (p := (2 ^ quantum x)%Q) in *.
  assert (Hx : (x == x / p * p)%Q) by (field; lra).
  set (s := (x / p)%Q) in *.
  assert (Hp2 : (p / 2 == p * (1 # 2))%Q) by field.
  assert (Ha : (0 <= (s - R + (1 # 2)) * p)%Q)
    by (apply Qmult_le_0_compat; lra).
  assert (Hb : (0 <= (R + (1 # 2) - s) * p)%Q)
    by (apply Qmult_le_0_compat; lra).
  split; lra.
Qed.

(** A multiple of a power of two that is no finer than the quantum is a
    float. *)
Lemma round64_fixed (x : Q) (k p : Z) :
  (x == inject_Z k * 2 ^ p)%Q -> quantum x <= p -> (round64 x == x)%Q.
Proof.
  intros Hx Hp. unfold round64. set (q := quantum x) in *.
  pose proof (pow2_pos q) as Hq.
  assert (E : (x / 2 ^ q == inject_Z (k * 2 ^ (p - q)))%Q).
  { rewrite inject_Z_mult, pow2_Z by lia. rewrite <- pow2_div, Hx. field. lra. }
  rewrite (rne_comp _ _ E), rne_Z, <- E. field. lra.
Qed.

(** Rounding does not cross a multiple of a power of two that is no finer
    than the quantum. *)
Lemma round64_ge (x y : Q) (k p : Z) :
  (y == inject_Z k * 2 ^ p)%Q -> quantum x <= p -> (y <= x)%Q ->
  (y <= round64 x)%Q.
Proof.
  intros Hy Hp Hle. unfold round64. set (q := quantum x) in *.
  pose proof (pow2_pos q) as Hq.
  assert (E : (y / 2 ^ q == inject_Z (k * 2 ^ (p - q)))%Q).
  { rewrite inject_Z_mult, pow2_Z by lia. rewrite <- pow2_div, Hy. field. lra. }
  assert (Hs : (y / 2 ^ q <= x / 2 ^ q)%Q).
  { unfold Qdiv. apply Qmult_le_compat_r; [exact Hle |].
    apply Qinv_le_0_compat. lra. }
  apply rne_monotone in Hs. rewrite (rne_comp _ _ E), rne_Z in Hs.
  rewrite Zle_Qle, <- E in Hs.
  assert (Hy' : (y == y / 2 ^ q * 2 ^ q)%Q) by (field; lra).
  rewrite Hy'. apply Qmult_le_compat_r; lra.
Qed.

Lemma round64_le (x y : Q) (k p : Z) :
  (y == inject_Z k * 2 ^ p)%Q -> quantum x <= p -> (x <= y)%Q ->
  (round64 x <= y)%Q.
Proof.
  intros Hy Hp Hle. unfold round64. set (q := quantum x) in *.
  pose proof (pow2_pos q) as Hq.
  assert (E : (y / 2 ^ q == inject_Z (k * 2 ^ (p - q)))%Q).
  { rewrite inject_Z_mult, pow2_Z by lia. rewrite <- pow2_div, Hy. field. lra. }
  assert (Hs : (x / 2 ^ q <= y / 2 ^ q)%Q).
  { unfold Qdiv. apply Qmult_le_compat_r; [exact Hle |].
    apply Qinv_le_0_compat. lra. }
  apply rne_monotone in Hs. rewrite (rne_comp _ _ E), rne_Z in Hs.
  rewrite Zle_Qle, <- E in Hs.
  assert (Hy' : (y == y / 2 ^ q * 2 ^ q)%Q) by (field; lra).
  rewrite Hy'. apply Qmult_le_compat_r; lra.
Qed.

Lemma round64_0 : (round64 0 == 0)%Q.
Proof. reflexivity. Qed.

Lemma round64_nonneg (x : Q) : (0 <= x)%Q -> (0 <= round64 x)%Q.
Proof.
  intros H. apply (round64_ge x 0 0 (quantum x)); [ring | lia | exact H].
Qed.

Lemma round64_nonpos (x : Q) : (x <= 0)%Q -> (round64 x <= 0)%Q.
Proof.
  intros H. apply (round64_le x 0 0 (quantum x)); [ring | lia | exact H].
Qed.

(** The binade of a number. *)
Lemma binade (x : Q) :
  let e := Z.max (exponent x) (-1022) in
  (Qabs x < 2 ^ (e + 1))%Q /\
  (~ (x == 0)%Q -> -1022 <= exponent x -> (2 ^ e <= Qabs x)%Q).
Proof.
  intros e. split.
  - destruct (Qeq_dec x 0) as [E | E].
    + rewrite E. change (Qabs 0) with 0%Q. apply pow2_pos.
    + destruct (exponent_spec x E) as [_ H].
      apply Qlt_le_trans with (1 := H). apply pow2_le. lia.
  - intros E He. destruct (exponent_spec x E) as [H _].
    replace e with (exponent x) by lia. exact H.
Qed.

Lemma quantum_binade (x : Q) : quantum x = Z.max (exponent x) (-1022) - 52.
Proof. reflexivity. Qed.

Lemma round64_bound (x : Q) :
  let e := Z.max (exponent x) (-1022) in
  (- 2 ^ (e + 1) <= round64 x)%Q /\ (round64 x <= 2 ^ (e + 1))%Q.
Proof.
  intros e. destruct (binade x) as [H _]. fold e in H.
  apply Qabs_Qlt_condition in H. split.
  - apply (round64_ge x _ (-1) (e + 1)); [ring | rewrite quantum_binade; lia | lra].
  - apply (round64_le x _ 1 (e + 1)); [ring | rewrite quantum_binade; lia | lra].
Qed.

Lemma Qabs_pow2 (e : Z) : (Qabs (2 ^ e) == 2 ^ e)%Q.
Proof. apply Qabs_pos. pose proof (pow2_pos e). lra. Qed.

Lemma exponent_le (x : Q) (e : Z) :
  ~ (x == 0)%Q -> (Qabs x < 2 ^ (e + 1))%Q -> exponent x <= e.
Proof.
  intros Hx H. destruct (exponent_spec x Hx) as [H1 _].
  assert (H2 : (2 ^ exponent x < 2 ^ (e + 1))%Q) by lra.
  apply pow2_lt_inv in H2. lia.
Qed.

Lemma exponent_ge (x : Q) (e : Z) :
  (2 ^ e <= Qabs x)%Q -> e <= exponent x.
Proof.
  intros H.
  assert (Hx : ~ (x == 0)%Q).
  { intros E. rewrite E in H. change (Qabs 0) with 0%Q in H.
    pose proof (pow2_pos e). lra. }
  destruct (exponent_spec x Hx) as [_ H1].
  assert (H2 : (2 ^ e < 2 ^ (exponent x + 1))%Q) by lra.
  apply pow2_lt_inv in H2. lia.
Qed.

(** What rounding gives is a float. *)
Lemma round64_idempotent (x : Q) : (round64 (round64 x) == round64 x)%Q.
Proof.
  set (e := Z.max (exponent x) (-1022)).
  destruct (round64_bound x) as [H1 H2]. fold e in H1, H2.
  set (v := round64 x) in *.
  destruct (Qeq_dec v 0) as [E0 | E0].
  { rewrite (round64_comp v 0 E0), E0. apply round64_0. }
  destruct (Qeq_dec v (2 ^ (e + 1))) as [E1 | E1].
  { apply (round64_fixed v 1 (e + 1)); [rewrite E1; ring |].
    rewrite quantum_binade.
    rewrite (exponent_unique v (e + 1)); [lia | |];
      rewrite E1, Qabs_pow2; [lra | apply pow2_lt; lia]. }
  destruct (Qeq_dec v (- 2 ^ (e + 1))) as [E2 | E2].
  { apply (round64_fixed v (-1) (e + 1)); [rewrite E2; ring |].
    rewrite quantum_binade.
    rewrite (exponent_unique v (e + 1)); [lia | |];
      rewrite E2, Qabs_opp, Qabs_pow2; [lra | apply pow2_lt; lia]. }
  apply (round64_fixed v (rne (x / 2 ^ quantum x)) (quantum x)); [reflexivity |].
  rewrite (quantum_binade v), (quantum_binade x). fold e.
  assert (He : exponent v <= e).
  { apply exponent_le; [exact E0 |]. apply Qabs_Qlt_condition. split; lra. }
  lia.
Qed.

Lemma round64_monotone (x y : Q) :
  (x <= y)%Q -> (round64 x <= round64 y)%Q.
Proof.
  intros Hxy.
  destruct (Qlt_le_dec 0 x) as [Hx | Hx].
  - (* both positive *)
    assert (Hy : (0 < y)%Q) by lra.
    assert (Hax : (Qabs x == x)%Q) by (apply Qabs_pos; lra).
    assert (Hay : (Qabs y == y)%Q) by (apply Qabs_pos; lra).
    assert (Hx0 : ~ (x == 0)%Q) by lra. assert (Hy0 : ~ (y == 0)%Q) by lra.
    destruct (exponent_spec x Hx0) as [Hx1 Hx2].
    destruct (exponent_spec y Hy0) as [Hy1 Hy2].
    assert (He : exponent x <= exponent y).
    { assert (H : (2 ^ exponent x < 2 ^ (exponent y + 1))%Q) by lra.
      apply pow2_lt_inv in H. lia. }
    destruct (Z.eq_dec (quantum x) (quantum y)) as [Eq | Eq].
    + unfold round64. rewrite Eq. pose proof (pow2_pos (quantum y)) as Hq.
      apply Qmult_le_compat_r; [| lra]. rewrite <- Zle_Qle.
      apply rne_monotone. unfold Qdiv. apply Qmult_le_compat_r; [exact Hxy |].
      apply Qinv_le_0_compat. lra.
    + rewrite !quantum_binade in Eq.
      set (e := Z.max (exponent x) (-1022)) in *.
      assert (Hey : e + 1 <= exponent y) by lia.
      destruct (round64_bound x) as [_ H1]. fold e in H1.
      apply Qle_trans with (1 := H1).
      apply Qle_trans with (2 ^ exponent y)%Q; [now apply pow2_le |].
      apply (round64_ge y _ 1 (exponent y)); [ring | | lra].
      rewrite quantum_binade. lia.
  - destruct (Qlt_le_dec y 0) as [Hy | Hy].
    + (* both negative *)
      assert (Hx' : (x < 0)%Q) by lra.
      assert (Hax : (Qabs x == - x)%Q) by (apply Qabs_neg; lra).
      assert (Hay : (Qabs y == - y)%Q) by (apply Qabs_neg; lra).
      assert (Hx0 : ~ (x == 0)%Q) by lra. assert (Hy0 : ~ (y == 0)%Q) by lra.
      destruct (exponent_spec x Hx0) as [Hx1 Hx2].
      destruct (exponent_spec y Hy0) as [Hy1 Hy2].
      assert (He : exponent y <= exponent x).
      { assert (H : (2 ^ exponent y < 2 ^ (exponent x + 1))%Q) by lra.
        apply pow2_lt_inv in H. lia. }
      destruct (Z.eq_dec (quantum x) (quantum y)) as [Eq | Eq].
      * unfold round64. rewrite Eq. pose proof (pow2_pos (quantum y)) as Hq.
        apply Qmult_le_compat_r; [| lra]. rewrite <- Zle_Qle.
        apply rne_monotone. unfold Qdiv. apply Qmult_le_compat_r; [exact Hxy |].
        apply Qinv_le_0_compat. lra.
      * rewrite !quantum_binade in Eq.
        set (e := Z.max (exponent y) (-1022)) in *.
        assert (Hex : e + 1 <= exponent x) by lia.
        destruct (round64_bound y) as [H1 _]. fold e in H1.
        apply Qle_trans with (2 := H1).
        apply Qle_trans with (- 2 ^ exponent x)%Q.
        { apply (round64_le x _ (-1) (exponent x)); [ring | | lra].
          rewrite quantum_binade. lia. }
        apply Qopp_le_compat. now apply pow2_le.
    + apply Qle_trans with 0%Q; [now apply round64_nonpos | now apply round64_nonneg].
Qed.

Lemma round64_int (n : Z) :
  Z.abs n <= 2 ^ 53 -> (round64 (inject_Z n) == inject_Z n)%Q.
Proof.
  intros Hn.
  destruct (Z.eq_dec n 0) as [-> | Hn0]; [apply round64_0 |].
  destruct (Z.eq_dec (Z.abs n) (2 ^ 53)) as [E | E].
  - assert (Hcase : n = 2 ^ 53 \/ n = - 2 ^ 53) by lia.
    destruct Hcase as [-> | ->]; reflexivity.
  - apply (round64_fixed _ n 0); [change (2 ^ 0)%Q with 1%Q; ring |].
    rewrite quantum_binade.
    assert (He : exponent (inject_Z n) <= 52).
    { apply exponent_le.
      - intros H. apply Hn0. unfold Qeq in H. cbn in H. lia.
      - change (52 + 1) with 53. rewrite <- pow2_Z by lia.
        apply Qabs_Qlt_condition. rewrite <- inject_Z_opp, <- !Zlt_Qlt. lia. }
    lia.
Qed.

(** A float is a multiple of [2 ^ -1074]. *)
Lemma float_multiple (x : Q) :
  (round64 x == x)%Q -> exists k, (x == inject_Z k * 2 ^ (-1074))%Q.
Proof.
  intros H. exists (rne (x / 2 ^ quantum x) * 2 ^ (quantum x + 1074)).
  rewrite <- H at 1. unfold round64.
  assert (Hq : 0 <= quantum x + 1074) by (rewrite quantum_binade; lia).
  rewrite inject_Z_mult, pow2_Z by exact Hq.
  rewrite <- Qmult_assoc, <- pow2_plus.
  replace (quantum x + 1074 + -1074) with (quantum x) by lia. reflexivity.
Qed.

Lemma multiple_sub (x y : Q) :
  (round64 x == x)%Q -> (round64 y == y)%Q ->
  exists k, (x - y == inject_Z k * 2 ^ (-1074))%Q.
Proof.
  intros Hx Hy. destruct (float_multiple x Hx) as [k Hk].
  destruct (float_multiple y Hy) as [l Hl].
  exists (k - l). unfold Z.sub. rewrite inject_Z_plus, inject_Z_opp, Hk, Hl. ring.
Qed.

Lemma round64_sub_nonzero (x y : Q) :
  (round64 x == x)%Q -> (round64 y == y)%Q -> ~ (x == y)%Q ->
  ~ (round64 (x - y) == 0)%Q.
Proof.
  intros Hx Hy Hne. destruct (multiple_sub x y Hx Hy) as [k Hk].
  pose proof (pow2_pos (-1074)) as Hp.
  assert (Hk0 : k <> 0).
  { intros ->. apply Hne. change (inject_Z 0) with 0%Q in Hk. lra. }
  assert (Hmin : (round64 (2 ^ (-1074)) == 2 ^ (-1074))%Q) by reflexivity.
  assert (Hmin' : (round64 (- 2 ^ (-1074)) == - 2 ^ (-1074))%Q) by reflexivity.
  destruct (Z_lt_le_dec 0 k) as [Hpos | Hneg].
  - assert (H1 : (inject_Z 1 <= inject_Z k)%Q) by (rewrite <- Zle_Qle; lia).
    change (inject_Z 1) with 1%Q in H1.
    assert (H2 : (2 ^ (-1074) <= x - y)%Q) by (rewrite Hk; nra).
    apply round64_monotone in H2. rewrite Hmin in H2. lra.
  - assert (H1 : (inject_Z k <= inject_Z (-1))%Q) by (rewrite <- Zle_Qle; lia).
    change (inject_Z (-1)) with (-1)%Q in H1.
    assert (H2 : (x - y <= - 2 ^ (-1074))%Q) by (rewrite Hk; nra).
    apply round64_monotone in H2. rewrite Hmin' in H2. lra.
Qed.

(** *** The laws of rounding, for double precision *)

Lemma u64_pow2 : (2 ^ (-53) == u64)%Q.
Proof. reflexivity. Qed.

(** In the normal range the error is relative. *)
Lemma round64_relative (x : Q) :
  ~ (x == 0)%Q -> -1022 <= exponent x ->
  (x - u64 * Qabs x <= round64 x)%Q /\ (round64 x <= x + u64 * Qabs x)%Q.
Proof.
  intros Hx He. destruct (round64_error x) as [H1 H2].
  destruct (exponent_spec x Hx) as [H3 _].
  rewrite quantum_binade in H1, H2.
  replace (Z.max (exponent x) (-1022) - 52) with (exponent x + -53 + 1)
    in H1, H2 by lia.
  rewrite pow2_succ, pow2_plus, u64_pow2 in H1, H2.
  pose proof (pow2_pos (exponent x)) as Hp.
  set (p := (2 ^ exponent x)%Q) in *.
  assert (Hu : (0 < u64)%Q) by reflexivity.
  assert (E : (2 * (p * u64) / 2 == p * u64)%Q) by field.
  rewrite E in H1, H2.
  assert (Hpu : (p * u64 <= u64 * Qabs x)%Q) by nra.
  split; lra.
Qed.

(** Below it the error is half of the least quantum at most. *)
Lemma round64_absolute (x : Q) :
  exponent x <= -1022 ->
  (x - 2 ^ (-1074) / 2 <= round64 x)%Q /\ (round64 x <= x + 2 ^ (-1074) / 2)%Q.
Proof.
  intros He. destruct (round64_error x) as [H1 H2].
  rewrite quantum_binade in H1, H2.
  replace (Z.max (exponent x) (-1022) - 52) with (-1074) in H1, H2 by lia.
  split; lra.
Qed.

Lemma least_quantum_small : (2 ^ (-1074) / 2 <= u64)%Q.
Proof. apply Qle_bool_iff. vm_compute. reflexivity. Qed.

Lemma binary64_laws : FloatLaws binary64.
Proof.
  split; cbn [fl is_float binary64].
  - exact round64_comp.
  - intros x y H Hx. rewrite <- (round64_comp x y H), Hx. exact H.
  - exact round64_idempotent.
  - intros x Hx. exact Hx.
  - exact round64_monotone.
  - exact round64_int.
  - exact round64_sub_nonzero.
Qed.

Lemma binary64_accuracy : FloatAccuracy binary64 u64.
Proof.
  assert (Hu : (0 < u64)%Q) by reflexivity.
  split; cbn [fl is_float binary64].
  - split; [lra | unfold Qle; simpl; lia].
  - intros x y Hx Hy Hle. set (z := (x - y)%Q).
    destruct (Qeq_dec z 0) as [E | E].
    { rewrite (round64_comp z 0 E), round64_0, E. split; lra. }
    assert (Hz : (0 < z)%Q) by (unfold z in *; lra).
    assert (Ha : (Qabs z == z)%Q) by (apply Qabs_pos; lra).
    destruct (Z_le_gt_dec (-1022) (exponent z)) as [He | He].
    + destruct (round64_relative z E He) as [H1 H2]. rewrite Ha in H1, H2.
      split; lra.
    + destruct (multiple_sub x y Hx Hy) as [k Hk]. fold z in Hk.
      assert (Hfix : (round64 z == z)%Q).
      { apply (round64_fixed z k (-1074) Hk). rewrite quantum_binade. lia. }
      rewrite Hfix. split; nra.
  - intros x m Hm Hlo Hhi.
    assert (Ha : (Qabs x <= m)%Q) by (apply Qabs_Qle_condition; split; lra).
    destruct (Qeq_dec x 0) as [E | E].
    { rewrite (round64_comp x 0 E), round64_0, E. split; nra. }
    destruct (Z_le_gt_dec (-1022) (exponent x)) as [He | He].
    + destruct (round64_relative x E He) as [H1 H2].
      assert (Hb : (u64 * Qabs x <= u64 * m)%Q) by nra.
      split; lra.
    + destruct (round64_absolute x ltac:(lia)) as [H1 H2].
      pose proof least_quantum_small as Hs.
      assert (Hb : (u64 <= u64 * m)%Q) by nra.
      split; lra.
Qed.

Lemma Qfloor_near (x y : Q) :
  (x - 1 < y)%Q -> (y < x + 1)%Q ->
  Qfloor x - 1 <= Qfloor y <= Qfloor x + 1.
Proof.
  intros Hlo Hhi.
  pose proof (Qfloor_le x) as Hx1. pose proof (Qlt_floor x) as Hx2.
  pose proof (Qfloor_le y) as Hy1. pose proof (Qlt_floor y) as Hy2.
  rewrite inject_Z_plus in Hx2, Hy2. change (inject_Z 1) with 1%Q in Hx2, Hy2.
  assert (H1 : (inject_Z (Qfloor y) < inject_Z (Qfloor x + 2))%Q)
    by (rewrite inject_Z_plus; change (inject_Z 2) with 2%Q; lra).
  assert (H2 : (inject_Z (Qfloor x) < inject_Z (Qfloor y + 2))%Q)
    by (rewrite inject_Z_plus; change (inject_Z 2) with 2%Q; lra).
  rewrite <- Zlt_Qlt in H1, H2. lia.
Qed.

Lemma hue_standard_range (r g b : Q) :
  (0 <= hue_standard r g b)%Q /\ (hue_standard r g b < 1)%Q.
Proof.
  unfold hue_standard. cbv zeta.
  match goal with |- context [Qfloor ?x] =>
    pose proof (Qfloor_le x) as H1; pose proof (Qlt_floor x) as H2;
    rewrite inject_Z_plus in H2; change (inject_Z 1) with 1%Q in H2
  end.
  split; lra.
Qed.

(** Exact arithmetic makes no error. *)
Lemma exact_accuracy : FloatAccuracy exact 0.
Proof.
  split.
  - split; [lra | unfold Qle; simpl; lia].
  - intros x y _ _ _. cbn [fl exact]. split; lra.
  - intros x m _ _ _. cbn [fl exact]. split; lra.
Qed.

(** C2, as the code has it: for a colour whose channels are floats in
    [0, 1], [rgb_to_hsv] returns; its value is the largest channel, and
    is not used; its saturation and its hue are those of the textbook
    transform up to rounding, within 3 and 6 units of roundoff (or the hue
    is 0 where the textbook hue is that close to a full turn).  The values
    sent are the hue times 65535 and the saturation times 254, each
    truncated, never rounded to the nearest; the hue sent lies in
    [0, 65535] and the saturation in [0, 254].  Each is the integer the
    textbook transform gives, or one next to it (or hue 0 for 65534, round
    the circle), and is that integer when nothing is rounded.  White gives
    saturation 0, and red gives hue 0 and saturation 254. *)
Theorem device_color_near_standard
    {F : FloatModel} {L : FloatLaws F} {u : Q} {A : FloatAccuracy F u}
    (r g b : Q) :
  is_float r -> is_float g -> is_float b ->
  (0 <= r)%Q /\ (r <= 1)%Q ->
  (0 <= g)%Q /\ (g <= 1)%Q ->
  (0 <= b)%Q /\ (b <= 1)%Q ->
  (exists h s v,
     rgb_to_hsv r g b = Ok (h, s, v) /\
     (v == Qmax r (Qmax g b))%Q /\
     ((saturation_standard r g b - 3 * u <= s)%Q /\
      (s <= saturation_standard r g b + 3 * u)%Q) /\
     (((hue_standard r g b - 6 * u <= h)%Q /\
       (h <= hue_standard r g b + 6 * u)%Q) \/
      ((h == 0)%Q /\ (1 - 6 * u <= hue_standard r g b)%Q)) /\
     0 <= hue_value h <= 65535 /\
     0 <= saturation_value s <= 254 /\
     ((inject_Z (hue_value h) <= fl (h * 65535))%Q /\
      (fl (h * 65535) < inject_Z (hue_value h + 1))%Q) /\
     ((inject_Z (saturation_value s) <= fl (s * 254))%Q /\
      (fl (s * 254) < inject_Z (saturation_value s + 1))%Q) /\
     (Qfloor (hue_standard r g b * 65535) - 1 <= hue_value h
      <= Qfloor (hue_standard r g b * 65535) + 1 \/
      (hue_value h = 0 /\ Qfloor (hue_standard r g b * 65535) = 65534)) /\
     Qfloor (saturation_standard r g b * 254) - 1 <= saturation_value s
     <= Qfloor (saturation_standard r g b * 254) + 1 /\
     ((u == 0)%Q ->
      hue_value h = Qfloor (hue_standard r g b * 65535) /\
      saturation_value s = Qfloor (saturation_standard r g b * 254))) /\
  (exists h s v,
     rgb_to_hsv 1 1 1 = Ok (h, s, v) /\ saturation_value s = 0) /\
  (exists h s v,
     rgb_to_hsv 1 0 0 = Ok (h, s, v) /\
     hue_value h = 0 /\ saturation_value s = 254).
Proof.
  intros Hrf Hgf Hbf Hr Hg Hb. split; [| split].
  - destruct acc_unit as [Hu0 Hu1].
    assert (Hu2 : (u <= 1 # 16777216)%Q) by exact Hu1. clear Hu1.
    destruct (rgb_to_hsv_near_standard r g b Hrf Hgf Hbf Hr Hg Hb)
      as (h & s & v & Hhsv & Hv & Hs & Hh).
    destruct (rgb_to_hsv_returns r g b Hrf Hgf Hbf Hr Hg Hb)
      as (h' & s' & v' & Hhsv' & Hh0 & Hh1 & Hs0 & Hs1 & _).
    rewrite Hhsv in Hhsv'. injection Hhsv' as <- <- <-.
    destruct (hue_value_range h Hh0 Hh1) as (Hhue & Hhlo & Hhhi).
    destruct (saturation_value_range s Hs0 Hs1) as (Hsat & Hslo & Hshi).
    destruct (hue_standard_range r g b) as [HH0 HH1].
    set (H := hue_standard r g b) in *.
    set (S := saturation_standard r g b) in *.
    destruct (acc_round (h * 65535) 65535 ltac:(lra) ltac:(nra) ltac:(nra))
      as [Hy1 Hy2].
    destruct (acc_round (s * 254) 254 ltac:(lra) ltac:(nra) ltac:(nra))
      as [Hz1 Hz2].
    assert (Hy0 : (0 <= fl (h * 65535))%Q) by (apply fl_nonneg; nra).
    assert (Hz0 : (0 <= fl (s * 254))%Q) by (apply fl_nonneg; nra).
    assert (Hhv : hue_value h = Qfloor (fl (h * 65535)))
      by (apply int_of_float_nonneg; exact Hy0).
    assert (Hsv : saturation_value s = Qfloor (fl (s * 254)))
      by (apply int_of_float_nonneg; exact Hz0).
    exists h, s, v. split; [exact Hhsv |]. split; [exact Hv |].
    split; [exact Hs |]. split; [exact Hh |].
    split; [exact Hhue |]. split; [exact Hsat |].
    split; [split; assumption |]. split; [split; assumption |].
    split; [| split].
    + destruct Hh as [[Hh2 Hh3] | [Hh2 Hh3]].
      * left. rewrite Hhv. apply Qfloor_near; nra.
      * right. split.
        { rewrite (hue_value_comp _ _ Hh2). apply hue_value_0. }
        apply Qfloor_unique.
        { change (inject_Z 65534) with 65534%Q. nra. }
        { change (inject_Z (65534 + 1)) with 65535%Q. nra. }
    + rewrite Hsv. destruct Hs as [Hs2 Hs3]. apply Qfloor_near; nra.
    + intros Hu. rewrite Hhv, Hsv.
      assert (Hheq : (h == H)%Q).
      { destruct Hh as [[Hh2 Hh3] | [Hh2 Hh3]]; lra. }
      assert (Hseq : (s == S)%Q) by (destruct Hs; lra).
      split; apply Qfloor_comp.
      * assert (fl (h * 65535) == h * 65535)%Q as -> by nra. now rewrite Hheq.
      * assert (fl (s * 254) == s * 254)%Q as -> by nra. now rewrite Hseq.
  - exists 0%Q, 0%Q, 1%Q. split; [apply rgb_to_hsv_white |].
    apply saturation_value_0.
  - destruct rgb_to_hsv_red as (h & s & Hhsv & Hh & Hs).
    exists h, s, 1%Q. split; [exact Hhsv |]. split.
    + rewrite (hue_value_comp _ _ Hh). apply hue_value_0.
    + rewrite (saturation_value_comp _ _ Hs). apply saturation_value_1.
Qed.

Lemma device_color_near_standard_witness :
  exists h s v,
    @rgb_to_hsv binary64 0 (round64 (5 # 255)) (round64 (2 # 255)) = Ok (h, s, v) /\
    26213 <= @hue_value binary64 h <= 26215 /\
    253 <= @saturation_value binary64 s <= 255.
Proof.
  destruct (proj1 (@device_color_near_standard binary64 binary64_laws u64
              binary64_accuracy 0 (round64 (5 # 255)) (round64 (2 # 255))
              round64_0 (round64_idempotent _) (round64_idempotent _)
              ltac:(split; apply Qle_bool_iff; vm_compute; reflexivity)
              ltac:(split; apply Qle_bool_iff; vm_compute; reflexivity)
              ltac:(split; apply Qle_bool_iff; vm_compute; reflexivity)))
    as (h & s & v & Hhsv & _ & _ & _ & _ & _ & _ & _ & Hhue & Hsat & _).
  assert (Eh : Qfloor (hue_standard 0 (round64 (5 # 255)) (round64 (2 # 255)) * 65535)
               = 26214) by (vm_compute; reflexivity).
  assert (Es : Qfloor (saturation_standard 0 (round64 (5 # 255)) (round64 (2 # 255)) * 254)
               = 254) by (vm_compute; reflexivity).
  rewrite Eh in Hhue. rewrite Es in Hsat.
  exists h, s, v. split; [exact Hhsv |]. split; [| lia].
  destruct Hhue as [Hhue | [_ Hwrap]]; [lia | discriminate Hwrap].
Defined.

(** C2 fails as stated: in double precision the colour (0, 5, 2) of the
    dialog gives the hue 26213, where the textbook hue of its channels
    (as the fractions 0, 5/255 and 2/255, and as the floats that the
    division by 255 gives, alike), times 65535 and truncated, is 26214;
    and the colour (254, 240, 220) gives the hue 6424 and the saturation
    33, where the textbook transform of 254/255, 240/255 and 220/255 gives
    6425 and 34. *)
Lemma device_color_not_textbook :
  (exists r g b h s v,
     @normalize binary64 0 = Ok r /\ @normalize binary64 5 = Ok g /\
     @normalize binary64 2 = Ok b /\
     @rgb_to_hsv binary64 r g b = Ok (h, s, v) /\
     @hue_value binary64 h = 26213 /\
     Qfloor (hue_standard r g b * 65535) = 26214 /\
     Qfloor (hue_standard 0 (5 # 255) (2 # 255) * 65535) = 26214) /\
  (exists r g b h s v,
     @normalize binary64 254 = Ok r /\ @normalize binary64 240 = Ok g /\
     @normalize binary64 220 = Ok b /\
     @rgb_to_hsv binary64 r g b = Ok (h, s, v) /\
     @hue_value binary64 h = 6424 /\
     @saturation_value binary64 s = 33 /\
     Qfloor (hue_standard (254 # 255) (240 # 255) (220 # 255) * 65535) = 6425 /\
     Qfloor (saturation_standard (254 # 255) (240 # 255) (220 # 255) * 254) = 34).
Proof.
  split.
  - eexists _, _, _, _, _, _.
    do 3 (split; [reflexivity |]). split; [vm_compute; reflexivity |].
    split; [vm_compute; reflexivity |]. split; vm_compute; reflexivity.
  - eexists _, _, _, _, _, _.
    do 3 (split; [reflexivity |]). split; [vm_compute; reflexivity |].
    split; [vm_compute; reflexivity |]. split; [vm_compute; reflexivity |].
    split; vm_compute; reflexivity.
Qed.

(** ** The callbacks *)

(** A channel of the colour dialog, normalised: a float in [0, 1]. *)
Lemma normalize_channel {F : FloatModel} {L : FloatLaws F} (c : Z) :
  0 <= c <= 255 ->
  exists x, normalize c = Ok x /\ is_float x /\ (0 <= x)%Q /\ (x <= 1)%Q.
Proof.
  intros Hc. exists (fl (inject_Z c / 255)). split; [reflexivity |].
  split; [apply fl_float |].
  assert (H0 : (inject_Z 0 <= inject_Z c)%Q) by (rewrite <- Zle_Qle; lia).
  assert (H255 : (inject_Z c <= inject_Z 255)%Q) by (rewrite <- Zle_Qle; lia).
  change (inject_Z 0) with 0%Q in H0. change (inject_Z 255) with 255%Q in H255.
  split; [apply fl_nonneg | apply fl_le_1].
  - apply Qle_shift_div_l; lra.
  - apply Qle_shift_div_r; lra.
Qed.

(** C10: when the colour dialog is dismissed, [pick_color] makes no bridge
    call and changes nothing: the application is left as it was. *)
Theorem pick_color_dismissed {F : FloatModel}
    (st : LightApp) (light : loc) (ack : reply unit) :
  pick_color light None ack st = Some (Ok tt, st).
Proof. reflexivity. Qed.

(** C3: for a light of the store and any colour of the dialog (channels
    from 0 to 255), [pick_color] makes exactly one bridge call, the
    combined [set_light] that carries the converted hue, the converted
    saturation and [on = True], whatever the state recorded for the
    light. *)
Theorem pick_color_one_combined_command {F : FloatModel} {L : FloatLaws F}
    (st : LightApp) (light : loc) (rec : Light.t) (c0 c1 c2 : Z)
    (ack : reply unit) :
  store st !! light = Some rec ->
  0 <= c0 <= 255 -> 0 <= c1 <= 255 -> 0 <= c2 <= 255 ->
  exists r g b h s v st',
    normalize c0 = Ok r /\ normalize c1 = Ok g /\ normalize c2 = Ok b /\
    rgb_to_hsv r g b = Ok (h, s, v) /\
    pick_color light (Some (c0, c1, c2)) ack st = Some (outcome ack, st') /\
    bridge st' =
      bridge st ++
        [SetLightDict (Light.id rec)
           [("hue", VInt (hue_value h)); ("sat", VInt (saturation_value s));
            ("on", VBool true)]].
Proof.
  intros Hrec H0 H1 H2.
  destruct (normalize_channel c0 H0) as (r & Hr & Hrf & Hr0 & Hr1).
  destruct (normalize_channel c1 H1) as (g & Hg & Hgf & Hg0 & Hg1).
  destruct (normalize_channel c2 H2) as (b & Hb & Hbf & Hb0 & Hb1).
  destruct (rgb_to_hsv_returns r g b Hrf Hgf Hbf (conj Hr0 Hr1) (conj Hg0 Hg1)
              (conj Hb0 Hb1)) as (h & s & v & Hhsv & _).
  exists r, g, b, h, s, v.
  unfold pick_color. run. rewrite Hr, Hg, Hb, Hhsv. run. rewrite Hrec. run.
  destruct ack as [[] | e]; eexists; repeat split; reflexivity.
Qed.

Lemma pick_color_one_combined_command_witness :
  exists st',
    @pick_color exact 0%nat (Some (255, 0, 0)) (Returns tt)
      (mkApp [Light.mk 1 "Desk" "Default" false 100 5000 100] [0%nat] ∅ [] [] [])
      = Some (Ok tt, st') /\
    length (bridge st') = 1%nat.
Proof.
  destruct (@pick_color_one_combined_command exact exact_laws
              (mkApp [Light.mk 1 "Desk" "Default" false 100 5000 100] [0%nat] ∅ [] [] [])
              0%nat (Light.mk 1 "Desk" "Default" false 100 5000 100)
              255 0 0 (Returns tt) eq_refl
              ltac:(lia) ltac:(lia) ltac:(lia))
    as (r & g & b & h & s & v & st' & _ & _ & _ & _ & Hrun & Hbridge).
  exists st'. split; [exact Hrun |]. now rewrite Hbridge.
Defined.

(** C4: evaluation of [pick_color] on a light recorded as off with hue 5000
    and saturation 100, for the colour red.  The bridge is told hue 0,
    saturation 254 and on, and the dict of the light is left as it was:
    the record is not updated. *)
Theorem pick_color_leaves_record :
  let rec := Light.mk 1 "Desk" "Default" false 100 5000 100 in
  let st := mkApp [rec] [0%nat] ∅ [] [] [] in
  exists st',
    @pick_color exact 0%nat (Some (255, 0, 0)) (Returns tt) st = Some (Ok tt, st') /\
    bridge st' =
      [SetLightDict 1 [("hue", VInt 0); ("sat", VInt 254); ("on", VBool true)]] /\
    store st' !! 0%nat = Some rec /\
    Light.state rec = false /\ Light.hue rec = 5000 /\ Light.saturation rec = 100.
Proof.
  eexists. split; [vm_compute; reflexivity |]. repeat split.
Qed.

(** C1, as the code has it: [set_brightness] truncates the number of the
    slider toward zero and makes exactly one bridge call, the single-field
    "bri" command with that integer for the light.  It does not clamp: a
    number within [1, 254], which is what the slider can hold, gives an
    integer within [1, 254]; 130.7 gives 130, 0 gives 0 and 999 gives 999. *)
Theorem set_brightness_truncates
    (st : LightApp) (light : loc) (rec : Light.t) (var : Q) (ack : reply unit) :
  store st !! light = Some rec ->
  (exists st',
     set_brightness light var ack st = Some (outcome ack, st') /\
     bridge st' =
       bridge st ++ [SetLight (Light.id rec) "bri" (VInt (int_of_float var))]) /\
  ((0 <= var)%Q ->
     (inject_Z (int_of_float var) <= var)%Q /\
     (var < inject_Z (int_of_float var + 1))%Q) /\
  ((1 <= var)%Q -> (var <= 254)%Q -> 1 <= int_of_float var <= 254) /\
  int_of_float (1307 # 10) = 130 /\
  int_of_float 0 = 0 /\
  int_of_float 999 = 999.
Proof.
  intros Hrec. split; [| split; [| split]].
  - unfold set_brightness, bind, getdict, print, call_bridge.
    rewrite Hrec. cbn [store lights light_controls light_frame bridge stdout].
    destruct ack as [[] | e]; eexists; split; reflexivity.
  - intros Hpos. rewrite int_of_float_nonneg by exact Hpos.
    split; [apply Qfloor_le | apply Qlt_floor].
  - intros Hlo Hhi. apply int_of_float_range; [lia | exact Hlo | exact Hhi].
  - repeat split.
Qed.

Lemma set_brightness_truncates_witness :
  (exists st',
     set_brightness 0%nat (1307 # 10) (Returns tt)
       (mkApp [Light.mk 1 "Desk" "Default" false 100 5000 100] [0%nat] ∅ [] [] [])
       = Some (Ok tt, st') /\
     bridge st' = [SetLight 1 "bri" (VInt 130)]).
Proof.
  exact (proj1 (set_brightness_truncates
           (mkApp [Light.mk 1 "Desk" "Default" false 100 5000 100] [0%nat] ∅ [] [] [])
           0%nat (Light.mk 1 "Desk" "Default" false 100 5000 100)
           (1307 # 10) (Returns tt) eq_refl)).
Defined.

(** C1 fails as stated: for the raw value 0 the command carries 0, not 1,
    and the brightness recorded for the light stays 100, not 1. *)
Lemma set_brightness_zero_not_clamped :
  let st := mkApp [Light.mk 1 "Desk" "Default" false 100 5000 100] [0%nat] ∅ [] [] [] in
  exists st',
    set_brightness 0%nat 0 (Returns tt) st = Some (Ok tt, st') /\
    bridge st' = [SetLight 1 "bri" (VInt 0)] /\
    bridge st' <> [SetLight 1 "bri" (VInt 1)] /\
    Light.brightness <$> store st' !! 0%nat = Some 100 /\
    Light.brightness <$> store st' !! 0%nat <> Some 1.
Proof.
  eexists. split; [vm_compute; reflexivity |].
  repeat split; simpl; congruence.
Qed.

(** C6, as the code has it: a callback is bound to the dict of its light,
    not to an identifier, and looks nothing up.  For a dict whose identifier
    is not in the registry, [toggle_light] and [set_brightness] still make
    their bridge call for that identifier and return what the call returns,
    and [pick_color] runs as for any other dict; the list [self.lights] and
    every dict it refers to are left as they were. *)
Theorem callbacks_on_unregistered_light {F : FloatModel}
    (st : LightApp) (light : loc) (rec : Light.t) (ack : reply unit) :
  store st !! light = Some rec ->
  Light.id rec ∉ registry_ids st ->
  (forall var, exists st',
     toggle_light light var ack st = Some (outcome ack, st') /\
     bridge st' = bridge st ++ [SetLight (Light.id rec) "on" (VBool var)] /\
     lights st' = lights st /\
     forall l, l ∈ lights st -> store st' !! l = store st !! l) /\
  (forall var, exists st',
     set_brightness light var ack st = Some (outcome ack, st') /\
     bridge st' =
       bridge st ++ [SetLight (Light.id rec) "bri" (VInt (int_of_float var))] /\
     lights st' = lights st /\
     forall l, l ∈ lights st -> store st' !! l = store st !! l) /\
  (forall color, exists res st',
     pick_color light color ack st = Some (res, st') /\
     store st' = store st /\ lights st' = lights st).
Proof.
  intros Hrec Hid.
  assert (Hnot : light ∉ lights st).
  { intros Hin. apply Hid. unfold registry_ids.
    apply list_elem_of_omap. exists light. split; [exact Hin |].
    now rewrite Hrec. }
  split; [| split].
  - intros var. unfold toggle_light, bind, setdict, getdict, print, call_bridge.
    rewrite Hrec. cbn [store lights light_controls light_frame bridge stdout].
    rewrite list_lookup_insert_eq by (eapply lookup_lt_Some; exact Hrec).
    cbn [Light.id Light.state Light.set_state].
    destruct ack as [[] | e]; eexists; (split; [reflexivity |]);
      cbn [store lights light_controls light_frame bridge stdout];
      (split; [reflexivity |]); (split; [reflexivity |]);
      intros l Hl; apply list_lookup_insert_ne; intros ->; contradiction.
  - intros var. unfold set_brightness, bind, getdict, print, call_bridge.
    rewrite Hrec. cbn [store lights light_controls light_frame bridge stdout].
    destruct ack as [[] | e]; eexists; repeat split; reflexivity.
  - intros [[[c0 c1] c2] |]; [| now exists (Ok tt), st].
    unfold pick_color. run.
    destruct (normalize c0) as [r | e0]; [| now eexists _, st].
    destruct (normalize c1) as [g | e1]; [| now eexists _, st].
    destruct (normalize c2) as [b | e2]; [| now eexists _, st].
    destruct (rgb_to_hsv r g b) as [[[h s] v] | e3]; [| now eexists _, st].
    run. rewrite Hrec. run.
    destruct ack as [[] | e]; eexists _, _; repeat split; reflexivity.
Qed.

Lemma callbacks_on_unregistered_light_witness :
  exists st',
    toggle_light 1%nat true (Returns tt)
      (mkApp [Light.mk 1 "Desk" "Default" false 100 0 254;
              Light.mk 99 "Gone" "Default" false 50 0 254]
             [0%nat] ∅ [] [] [])
      = Some (Ok tt, st') /\
    bridge st' = [SetLight 99 "on" (VBool true)] /\
    lights st' = [0%nat].
Proof.
  destruct (proj1 (@callbacks_on_unregistered_light exact
           (mkApp [Light.mk 1 "Desk" "Default" false 100 0 254;
                   Light.mk 99 "Gone" "Default" false 50 0 254]
                  [0%nat] ∅ [] [] [])
           1%nat (Light.mk 99 "Gone" "Default" false 50 0 254) (Returns tt)
           eq_refl
           ltac:(compute_done)) true)
    as (st' & Hrun & Hbridge & Hlights & _).
  exists st'. split; [exact Hrun |]. split; [exact Hbridge | exact Hlights].
Defined.

(** C6 fails as stated: [toggle_light] on a dict with identifier 99, when
    the registry holds only light 1, raises nothing; it returns, after the
    "on" command for 99 has gone to the bridge and the dict has been
    updated. *)
Lemma toggle_light_unknown_id_returns :
  let st := mkApp [Light.mk 1 "Desk" "Default" false 100 0 254;
                   Light.mk 99 "Gone" "Default" false 50 0 254]
                  [0%nat] ∅ [] [] [] in
  registry_ids st = [1] /\
  exists st',
    toggle_light 1%nat true (Returns tt) st = Some (Ok tt, st') /\
    bridge st' = [SetLight 99 "on" (VBool true)] /\
    Light.state <$> store st' !! 1%nat = Some true /\
    ~ exists e st'', toggle_light 1%nat true (Returns tt) st = Some (Raise e, st'').
Proof.
  split; [reflexivity |].
  eexists. split; [vm_compute; reflexivity |].
  repeat split. intros (e & st'' & H). vm_compute in H. discriminate.
Qed.

(** ** Grouping by environment *)

Lemma elem_of_first_seen (e : string) (l : list string) :
  e ∈ first_seen l <-> e ∈ l.
Proof.
  induction l as [| a l IH]; [reflexivity |].
  cbn [first_seen]. rewrite !elem_of_cons, list_elem_of_filter, IH.
  destruct (decide (e = a)); tauto.
Qed.

Lemma NoDup_first_seen (l : list string) : NoDup (first_seen l).
Proof.
  induction l as [| a l IH]; [constructor |].
  cbn [first_seen]. constructor.
  - rewrite list_elem_of_filter. tauto.
  - now apply NoDup_filter.
Qed.

Lemma first_seen_snoc (l : list string) (e : string) :
  first_seen (l ++ [e])
  = if decide (e ∈ l) then first_seen l else first_seen l ++ [e].
Proof.
  induction l as [| a l IH]; [reflexivity |].
  cbn [app first_seen]. rewrite IH.
  destruct (decide (e ∈ l)) as [Hin | Hnin].
  - rewrite decide_True by (now right). reflexivity.
  - rewrite filter_app. destruct (decide (e = a)) as [-> | Hne].
    + rewrite decide_True by (now left).
      rewrite (filter_cons_False _ a) by tauto.
      now rewrite filter_nil, app_nil_r.
    + rewrite decide_False by (rewrite elem_of_cons; tauto).
      rewrite (filter_cons_True _ e) by exact Hne.
      now rewrite filter_nil.
Qed.
Lemma envs_snoc (dicts : list Light.t) (done : list loc) (l : loc) (r : Light.t) :
  dicts !! l = Some r ->
  envs dicts (done ++ [l]) = envs dicts done ++ [Light.environment r].
Proof.
  intros Hr. unfold envs. rewrite omap_app. f_equal.
  cbn [omap list_omap]. unfold env_of at 1. now rewrite Hr.
Qed.

Lemma filter_env_snoc (dicts : list Light.t) (done : list loc) (l : loc)
    (r : Light.t) (e : string) :
  dicts !! l = Some r ->
  filter (fun l' => env_of dicts l' = Some e) (done ++ [l])
  = filter (fun l' => env_of dicts l' = Some e) done
    ++ (if decide (Light.environment r = e) then [l] else []).
Proof.
  intros Hr. rewrite filter_app. f_equal.
  destruct (decide (Light.environment r = e)) as [He | He].
  - rewrite filter_cons_True; [now rewrite filter_nil |].
    unfold env_of. rewrite Hr. cbn. now f_equal.
  - rewrite filter_cons_False; [now rewrite filter_nil |].
    unfold env_of. rewrite Hr. cbn. congruence.
Qed.

Lemma filter_env_unseen (dicts : list Light.t) (done : list loc) (e : string) :
  e ∉ envs dicts done ->
  filter (fun l => env_of dicts l = Some e) done = [].
Proof.
  intros Hnin. induction done as [| l done IH]; [reflexivity |].
  rewrite filter_cons_False.
  - apply IH. intros Hin. apply Hnin. unfold envs in *.
    apply list_elem_of_omap in Hin as (x & Hx & Hex).
    apply list_elem_of_omap. exists x. split; [now right | exact Hex].
  - intros He. apply Hnin. apply list_elem_of_omap. exists l.
    split; [now left | exact He].
Qed.

Lemma view_inv_new (dicts : list Light.t) (done : list loc)
    (ef : gmap string nat) (fr : list EnvFrame) (l : loc) (r : Light.t)
    (blk : LightBlock) :
  dicts !! l = Some r ->
  ef !! Light.environment r = None ->
  bound_light blk = l ->
  view_inv dicts done ef fr ->
  view_inv dicts (done ++ [l]) (<[Light.environment r := length fr]> ef)
           (fr ++ [mkEnvFrame (Light.environment r) [blk]]).
Proof.
  intros Hr Hnone Hblk [Hlab Hch Hfr].
  assert (Hfresh : Light.environment r ∉ env_label <$> fr).
  { intros Hin. apply list_elem_of_fmap in Hin as (f & Hf & Hin).
    apply list_elem_of_lookup in Hin as (i & Hi).
    assert (ef !! Light.environment r = Some i) as Hsome
      by (apply Hfr; exists f; split; [exact Hi | now symmetry]).
    congruence. }
  assert (Hunseen : Light.environment r ∉ envs dicts done).
  { rewrite <- elem_of_first_seen, <- Hlab. exact Hfresh. }
  split.
  - rewrite fmap_app, Hlab, (envs_snoc _ _ _ _ Hr), first_seen_snoc.
    now rewrite decide_False by exact Hunseen.
  - intros i f Hi. rewrite (filter_env_snoc _ _ _ _ _ Hr).
    apply lookup_app_Some in Hi as [Hi | [Hlen Hi]].
    + rewrite decide_False, app_nil_r; [now apply (Hch i) |].
      intros He. apply Hfresh. rewrite He.
      apply list_elem_of_fmap. exists f. split; [reflexivity |].
      apply list_elem_of_lookup. now exists i.
    + apply list_lookup_singleton_Some in Hi as [_ <-]. cbn [env_label env_children].
      rewrite decide_True by reflexivity.
      rewrite filter_env_unseen by exact Hunseen. cbn. now rewrite Hblk.
  - intros e i. rewrite lookup_insert. case_decide as He.
    + subst e. split.
      * intros [= <-]. exists (mkEnvFrame (Light.environment r) [blk]).
        split; [| reflexivity].
        now rewrite lookup_app_r, Nat.sub_diag by lia.
      * intros (f & Hi & Hf). apply lookup_app_Some in Hi as [Hi | [Hlen Hi]].
        -- exfalso. apply Hfresh. rewrite <- Hf.
           apply list_elem_of_fmap. exists f. split; [reflexivity |].
           apply list_elem_of_lookup. now exists i.
        -- apply list_lookup_singleton_Some in Hi as [Hi _]. f_equal. lia.
    + rewrite Hfr. split.
      * intros (f & Hi & Hf). exists f. split; [| exact Hf].
        now apply lookup_app_l_Some.
      * intros (f & Hi & Hf). apply lookup_app_Some in Hi as [Hi | [Hlen Hi]].
        -- now exists f.
        -- apply list_lookup_singleton_Some in Hi as [_ <-]. cbn in Hf. congruence.
Qed.

Lemma view_inv_old (dicts : list Light.t) (done : list loc)
    (ef : gmap string nat) (fr : list EnvFrame) (l : loc) (r : Light.t)
    (blk : LightBlock) (i : nat) (f : EnvFrame) :
  dicts !! l = Some r ->
  ef !! Light.environment r = Some i ->
  fr !! i = Some f ->
  bound_light blk = l ->
  view_inv dicts done ef fr ->
  view_inv dicts (done ++ [l]) ef
           (<[i := mkEnvFrame (env_label f) (env_children f ++ [blk])]> fr).
Proof.
  intros Hr Hsome Hi Hblk [Hlab Hch Hfr].
  assert (Hf : env_label f = Light.environment r).
  { apply Hfr in Hsome as (f' & Hi' & Hf'). congruence. }
  assert (Hseen : Light.environment r ∈ envs dicts done).
  { rewrite <- elem_of_first_seen, <- Hlab, <- Hf.
    apply list_elem_of_fmap. exists f. split; [reflexivity |].
    apply list_elem_of_lookup. now exists i. }
  assert (Hsame : env_label <$> <[i := mkEnvFrame (env_label f)
                                         (env_children f ++ [blk])]> fr
                  = env_label <$> fr).
  { rewrite list_fmap_insert. apply list_insert_id.
    now rewrite list_lookup_fmap, Hi. }
  split.
  - rewrite Hsame, Hlab, (envs_snoc _ _ _ _ Hr), first_seen_snoc.
    now rewrite decide_True by exact Hseen.
  - intros j f' Hj. rewrite (filter_env_snoc _ _ _ _ _ Hr).
    destruct (decide (i = j)) as [<- | Hne].
    + rewrite list_lookup_insert_eq in Hj by (eapply lookup_lt_Some; exact Hi).
      injection Hj as <-. cbn [env_label env_children].
      rewrite decide_True by (now symmetry).
      rewrite fmap_app, (Hch i f Hi). cbn. now rewrite Hblk.
    + rewrite list_lookup_insert_ne in Hj by exact Hne.
      rewrite decide_False, app_nil_r; [now apply (Hch j) |].
      intros He. apply Hne.
      eapply (NoDup_lookup (env_label <$> fr)).
      * rewrite Hlab. apply NoDup_first_seen.
      * rewrite list_lookup_fmap, Hi. cbn. now rewrite Hf.
      * rewrite list_lookup_fmap, Hj. cbn. now rewrite He.
  - intros e j. rewrite Hfr. split.
    + intros (f' & Hj & Hf'). destruct (decide (i = j)) as [<- | Hne].
      * eexists. split.
        -- apply list_lookup_insert_eq. eapply lookup_lt_Some; exact Hi.
        -- cbn. congruence.
      * exists f'. split; [| exact Hf'].
        now rewrite list_lookup_insert_ne by exact Hne.
    + intros (f' & Hj & Hf'). destruct (decide (i = j)) as [<- | Hne].
      * rewrite list_lookup_insert_eq in Hj by (eapply lookup_lt_Some; exact Hi).
        injection Hj as <-. exists f. split; [exact Hi | exact Hf'].
      * rewrite list_lookup_insert_ne in Hj by exact Hne. now exists f'.
Qed.

(** One turn of the loop of [populate_lights]. *)
Lemma populate_step_inv (st : LightApp) (done : list loc)
    (ef : gmap string nat) (light : loc) (r : Light.t) :
  store st !! light = Some r ->
  view_inv (store st) done ef (light_frame st) ->
  exists ef' st',
    populate_step light ef st = Some (Ok ef', st') /\
    store st' = store st /\ lights st' = lights st /\
    bridge st' = bridge st /\ stdout st' = stdout st /\
    view_inv (store st) (done ++ [light]) ef' (light_frame st').
Proof.
  intros Hr Hinv. unfold populate_step, bind at 1, getdict. rewrite Hr.
  destruct (ef !! Light.environment r) as [i |] eqn:Hef.
  - destruct (proj1 (inv_frames _ _ _ _ Hinv _ _) Hef) as (f & Hi & Hf).
    run. rewrite Hef. run. rewrite Hi. run.
    eexists _, _. split; [reflexivity |]. run.
    repeat (split; [reflexivity |]).
    apply (view_inv_old _ _ _ _ _ r);
      [exact Hr | exact Hef | exact Hi | reflexivity | exact Hinv].
  - run. rewrite lookup_insert_eq. run.
    rewrite lookup_app_r, Nat.sub_diag by lia.
    cbn [lookup list_lookup env_label env_children app]. run.
    eexists _, _. split; [reflexivity |]. run.
    repeat (split; [reflexivity |]).
    rewrite insert_app_r_alt, Nat.sub_diag by lia. cbn [insert list_insert].
    apply view_inv_new; [exact Hr | exact Hef | reflexivity | exact Hinv].
Qed.

Lemma populate_loop_inv (rest : list loc) :
  forall (done : list loc) (ef : gmap string nat) (st : LightApp),
    Forall (fun l => is_Some (store st !! l)) rest ->
    view_inv (store st) done ef (light_frame st) ->
    exists ef' st',
      populate_loop rest ef st = Some (Ok tt, st') /\
      store st' = store st /\ lights st' = lights st /\
      bridge st' = bridge st /\ stdout st' = stdout st /\
      view_inv (store st) (done ++ rest) ef' (light_frame st').
Proof.
  induction rest as [| light rest IH]; intros done ef st Hwf Hinv.
  - exists ef, st. rewrite app_nil_r.
    do 5 (split; [reflexivity |]). exact Hinv.
  - apply Forall_cons in Hwf as [[r Hr] Hwf].
    destruct (populate_step_inv st done ef light r Hr Hinv)
      as (ef1 & st1 & Hstep & Hstore & Hlights & Hbridge & Hout & Hinv1).
    destruct (IH (done ++ [light]) ef1 st1) as
      (ef2 & st2 & Hloop & Hstore2 & Hlights2 & Hbridge2 & Hout2 & Hinv2).
    { now rewrite Hstore. }
    { now rewrite Hstore. }
    exists ef2, st2. cbn [populate_loop]. unfold bind. rewrite Hstep.
    split; [exact Hloop |].
    rewrite <- app_assoc in Hinv2. rewrite Hstore in Hinv2.
    do 4 (split; [congruence |]). exact Hinv2.
Qed.

Lemma populate_lights_unfold (st : LightApp) :
  populate_lights st
  = populate_loop (lights st) ∅
      (mkApp (store st) (lights st) ∅ [] (bridge st) (stdout st)).
Proof. reflexivity. Qed.

Lemma view_inv_start (dicts : list Light.t) : view_inv dicts [] ∅ [].
Proof.
  split; [reflexivity | intros i f Hi; discriminate Hi |].
  intros e i. rewrite lookup_empty. split; [discriminate |].
  intros (f & Hi & _). discriminate Hi.
Qed.

(** [populate_lights] on a well-formed application: it returns, touches
    only the widgets and the control table, and leaves the frames grouped. *)
Lemma populate_lights_run (st : LightApp) :
  well_formed st ->
  exists ef st',
    populate_lights st = Some (Ok tt, st') /\
    store st' = store st /\ lights st' = lights st /\
    bridge st' = bridge st /\ stdout st' = stdout st /\
    view_inv (store st) (lights st) ef (light_frame st').
Proof.
  intros Hwf. rewrite populate_lights_unfold.
  destruct (populate_loop_inv (lights st) [] ∅
              (mkApp (store st) (lights st) ∅ [] (bridge st) (stdout st)))
    as (ef & st' & Hrun & Hrest).
  - exact Hwf.
  - apply view_inv_start.
  - exists ef, st'. split; [exact Hrun | exact Hrest].
Qed.

(** C9: [populate_lights] partitions the lights by their environment.  The
    frames carry distinct labels, the environments in the order they are
    first seen in [self.lights]; the blocks of a frame are bound to the
    lights of that environment, in the order of [self.lights]; the dicts
    and the list are not touched; and a second call builds the same
    widgets again. *)
Theorem populate_lights_groups (st : LightApp) :
  well_formed st ->
  exists st',
    populate_lights st = Some (Ok tt, st') /\
    env_label <$> light_frame st' = first_seen (envs (store st) (lights st)) /\
    NoDup (env_label <$> light_frame st') /\
    (forall f, f ∈ light_frame st' ->
       bound_light <$> env_children f
       = filter (fun l => env_of (store st) l = Some (env_label f)) (lights st)) /\
    store st' = store st /\ lights st' = lights st /\
    populate_lights st' = Some (Ok tt, st').
Proof.
  intros Hwf.
  destruct (populate_lights_run st Hwf)
    as (ef & st' & Hrun & Hstore & Hlights & Hbridge & Hout & [Hlab Hch _]).
  exists st'. split; [exact Hrun |]. split; [exact Hlab |].
  split; [rewrite Hlab; apply NoDup_first_seen |].
  split.
  { intros f Hf. apply list_elem_of_lookup in Hf as [i Hi]. now apply (Hch i). }
  split; [exact Hstore |]. split; [exact Hlights |].
  rewrite populate_lights_unfold, Hstore, Hlights, Hbridge, Hout.
  rewrite <- populate_lights_unfold. exact Hrun.
Qed.

Lemma populate_lights_groups_witness :
  exists st',
    populate_lights
      (mkApp [Light.mk 1 "a" "Kitchen" false 100 0 254;
              Light.mk 2 "b" "Hall" true 10 0 254;
              Light.mk 3 "c" "Kitchen" true 20 0 254]
             [0; 1; 2]%nat ∅ [] [] []) = Some (Ok tt, st') /\
    env_label <$> light_frame st' = ["Kitchen"; "Hall"].
Proof.
  destruct (populate_lights_groups
              (mkApp [Light.mk 1 "a" "Kitchen" false 100 0 254;
                      Light.mk 2 "b" "Hall" true 10 0 254;
                      Light.mk 3 "c" "Kitchen" true 20 0 254]
                     [0; 1; 2]%nat ∅ [] [] []))
    as (st' & Hrun & Hlab & _).
  - unfold well_formed. cbn [lights store].
    repeat constructor; cbn; eexists; reflexivity.
  - exists st'. split; [exact Hrun | exact Hlab].
Defined.

(** ** Fetching and refreshing *)

Section Fetching.

Context {P : PyConfig}.

Lemma py_int_raise (x : device_id) (e : exn) :
  py_int x = Raise e ->
  exists s, x = IdStr s /\ e = ValueError s /\ int_of_str s = None.
Proof.
  destruct x as [n | s]; cbn [py_int]; [discriminate |].
  destruct (int_of_str s) eqn:E; [discriminate |].
  intros [= <-]. now exists s.
Qed.

(** The dict literal: what it gives, and when. *)
Lemma light_dict_ok (light_id : device_id) (light : Device.t) (n h s : Z) :
  py_int light_id = Ok n ->
  Device.hue light = Some h ->
  Device.saturation light = Some s ->
  light_dict light_id light
  = Ok (Light.mk n (Device.name light) "Default" (Device.on light)
                 (Device.brightness light) h s).
Proof. intros Hn Hh Hs. unfold light_dict. now rewrite Hn, Hh, Hs. Qed.

Lemma light_dict_inv (light_id : device_id) (light : Device.t) (r : Light.t) :
  light_dict light_id light = Ok r ->
  py_int light_id = Ok (Light.id r) /\
  Light.name r = Device.name light /\
  Light.environment r = "Default" /\
  Light.state r = Device.on light /\
  Light.brightness r = Device.brightness light /\
  Device.hue light = Some (Light.hue r) /\
  Device.saturation light = Some (Light.saturation r).
Proof.
  unfold light_dict. destruct (py_int light_id) as [n | e]; [| discriminate].
  destruct (Device.hue light) as [h |]; [| discriminate].
  destruct (Device.saturation light) as [s |]; [| discriminate].
  intros [= <-]. now repeat split.
Qed.

Lemma light_dict_raise (light_id : device_id) (light : Device.t) (e : exn) :
  light_dict light_id light = Raise e ->
  (exists s, light_id = IdStr s /\ e = ValueError s /\ int_of_str s = None) \/
  (exists n, py_int light_id = Ok n /\
     ((Device.hue light = None /\ e = KeyError "hue") \/
      (is_Some (Device.hue light) /\ Device.saturation light = None /\
       e = KeyError "sat"))).
Proof.
  unfold light_dict. destruct (py_int light_id) as [n | e'] eqn:Hn.
  - intros Hrun. right. exists n. split; [reflexivity |].
    destruct (Device.hue light) as [h |].
    + destruct (Device.saturation light) as [s |]; [discriminate |].
      injection Hrun as <-. right. now repeat split.
    + injection Hrun as <-. now left.
  - intros [= <-]. left. now apply py_int_raise.
Qed.

(** The dicts of a response whose identifiers convert and whose lights
    report their colour. *)
Lemma light_dict_built (items : list (device_id * Device.t)) (ns : list Z) :
  Forall2 (fun it n => py_int it.1 = Ok n) items ns ->
  Forall (fun it => reports_color it.2) items ->
  exists rs,
    Forall2 (fun it r => light_dict it.1 it.2 = Ok r) items rs /\
    Light.id <$> rs = ns.
Proof.
  induction 1 as [| [light_id light] n items ns Hn _ IH]; intros Hcol.
  - now exists [].
  - apply Forall_cons in Hcol as [[[h Hh] [s Hs]] Hcol].
    destruct (IH Hcol) as (rs & Hrs & Hids). cbn [fst snd] in *.
    eexists (_ :: rs). split.
    + constructor; [apply (light_dict_ok _ _ n h s Hn Hh Hs) | exact Hrs].
    + cbn. now rewrite Hids.
Qed.

(** The loop of [get_lights_from_hue] when every item gives its dict: one
    new dict for each item, in order, and nothing else changes. *)
Lemma fetch_loop_ok (items : list (device_id * Device.t)) (rs : list Light.t) :
  Forall2 (fun it r => light_dict it.1 it.2 = Ok r) items rs ->
  forall (acc : list loc) (st : LightApp),
    fetch_loop items acc st
    = Some (Ok (acc ++ seq (length (store st)) (length items)),
            mkApp (store st ++ rs) (lights st)
                  (light_controls st) (light_frame st) (bridge st) (stdout st)).
Proof.
  induction 1 as [| [light_id light] r items rs Hr _ IH]; intros acc st.
  - cbn. rewrite !app_nil_r. now destruct st.
  - cbn [fetch_loop]. cbn [fst snd] in Hr. run. rewrite Hr. run.
    rewrite IH. cbn [store lights light_controls light_frame bridge stdout].
    rewrite length_app. cbn [length seq].
    rewrite <- !app_assoc, Nat.add_1_r. reflexivity.
Qed.



(** [get_lights_from_hue] when every item gives its dict. *)
Lemma get_lights_from_hue_ok (items : list (device_id * Device.t))
    (rs : list Light.t) (st : LightApp) :
  Forall2 (fun it r => light_dict it.1 it.2 = Ok r) items rs ->
  get_lights_from_hue (Returns items) st
  = Some (Ok (seq (length (store st)) (length items)),
          mkApp (store st ++ rs) (lights st)
                (light_controls st) (light_frame st)
                (bridge st ++ [GetLightObjects "id"]) (stdout st)).
Proof.
  intros Hrs. unfold get_lights_from_hue. run.
  now rewrite (fetch_loop_ok items rs Hrs).
Qed.


(** C8: evaluation of [get_lights_from_hue] on a response with a colour
    lamp and a white bulb, which reports no hue and no saturation.
    Reading the hue of the bulb raises [KeyError], and [getattr] gives its
    default for [AttributeError] only: the fetch raises, no dict with hue 0
    and saturation 254 is built for the bulb, and neither [refresh_lights]
    nor [__init__] gets to list any light. *)
Theorem fetch_light_without_color_raises :
  let lamp := Device.mk "Lamp" true 200 (Some 1234) (Some 77) in
  let bulb := Device.mk "Desk" false 100 None None in
  let items := [(IdInt 1, lamp); (IdInt 2, bulb)] in
  reports_color lamp /\ ~ reports_color bulb /\
  light_dict (IdInt 2) bulb = Raise (KeyError "hue") /\
  light_dict (IdInt 2) bulb
  <> Ok (Light.mk 2 "Desk" "Default" false 100 0 254) /\
  get_lights_from_hue (Returns items) new_app
  = Some (Raise (KeyError "hue"),
          mkApp [Light.mk 1 "Lamp" "Default" true 200 1234 77] [] ∅ []
                [GetLightObjects "id"] []) /\
  refresh_lights (Returns items) new_app
  = Some (Raise (KeyError "hue"),
          mkApp [Light.mk 1 "Lamp" "Default" true 200 1234 77] [] ∅ []
                [GetLightObjects "id"] []) /\
  init (Returns tt) (Returns items) new_app
  = Some (Raise (KeyError "hue"),
          mkApp [Light.mk 1 "Lamp" "Default" true 200 1234 77] [] ∅ []
                [Connect; GetLightObjects "id"] []).
Proof.
  cbv zeta. split; [split; eexists; reflexivity |].
  split; [intros [[h Hh] _]; discriminate Hh |].
  split; [reflexivity |]. split; [discriminate |].
  now repeat split.
Qed.

Lemma populate_step_no_raise (light : loc) (ef : gmap string nat)
    (st st' : LightApp) (e : exn) :
  populate_step light ef st <> Some (Raise e, st').
Proof.
  unfold populate_step. run.
  destruct (store st !! light) as [r |]; [| discriminate].
  destruct (ef !! Light.environment r) as [i |] eqn:Hef; run.
  - rewrite Hef. run. destruct (light_frame st !! i); discriminate.
  - rewrite lookup_insert_eq. run.
    destruct ((light_frame st ++ [mkEnvFrame (Light.environment r) []])
                !! length (light_frame st)); discriminate.
Qed.

Lemma populate_loop_no_raise (ls : list loc) :
  forall (ef : gmap string nat) (st st' : LightApp) (e : exn),
    populate_loop ls ef st <> Some (Raise e, st').
Proof.
  induction ls as [| light ls IH]; intros ef st st' e; [discriminate |].
  cbn [populate_loop]. unfold bind.
  destruct (populate_step light ef st) as [[[ef1 | e1] st1] |] eqn:Hstep.
  - apply IH.
  - now apply populate_step_no_raise in Hstep.
  - discriminate.
Qed.

(** The loop of [get_lights_from_hue] only adds dicts to the store. *)
Lemma fetch_loop_frame (items : list (device_id * Device.t)) :
  forall (acc : list loc) (st st' : LightApp) (res : result (list loc)),
    fetch_loop items acc st = Some (res, st') ->
    exists new,
      st' = mkApp (store st ++ new) (lights st) (light_controls st)
                  (light_frame st) (bridge st) (stdout st).
Proof.
  induction items as [| [light_id light] items IH]; intros acc st st' res.
  - intros [= <- <-]. exists []. rewrite app_nil_r. now destruct st.
  - cbn [fetch_loop]. run. destruct (light_dict light_id light) as [r | e].
    + run. intros Hrun. apply IH in Hrun as [new ->].
      cbn [store lights light_controls light_frame bridge stdout].
      exists (r :: new). now rewrite <- app_assoc.
    + run. intros [= <- <-]. exists []. rewrite app_nil_r. now destruct st.
Qed.

(** A call of [refresh_lights] that raises leaves the registry alone. *)
Lemma refresh_lights_raise_frame
    (answer : reply (list (device_id * Device.t))) (st st' : LightApp) (e : exn) :
  refresh_lights answer st = Some (Raise e, st') ->
  lights st' = lights st /\
  (forall l r, store st !! l = Some r -> store st' !! l = Some r) /\
  light_controls st' = light_controls st /\
  light_frame st' = light_frame st.
Proof.
  unfold refresh_lights, get_lights_from_hue. run.
  destruct answer as [items | e'].
  - destruct (fetch_loop items [] _) as [[[l | e1] st1] |] eqn:Hfetch;
      [| | discriminate].
    + run. intros Hpop. rewrite populate_lights_unfold in Hpop.
      now apply populate_loop_no_raise in Hpop.
    + intros [= <- <-]. apply fetch_loop_frame in Hfetch as [new ->].
      cbn [store lights light_controls light_frame bridge stdout].
      split; [reflexivity |]. split; [| now split].
      intros l r Hl. now apply lookup_app_l_Some.
  - intros [= <- <-]. cbn [store lights light_controls light_frame].
    now repeat split.
Qed.



(** C5: when the enumeration call of the bridge raises, [refresh_lights]
    raises that error and the registry is what it was: the list
    [self.lights], the dicts, the widgets and the control table are
    unchanged, and only the call is on record.  More generally, whenever
    [refresh_lights] raises, whatever the cause, the list, every dict that
    existed, the widgets and the control table are unchanged. *)
Theorem refresh_lights_failure_keeps_registry (st : LightApp) :
  (forall e, exists st',
     refresh_lights (Fails e) st = Some (Raise (BridgeError e), st') /\
     lights st' = lights st /\
     store st' = store st /\
     light_controls st' = light_controls st /\
     light_frame st' = light_frame st /\
     bridge st' = bridge st ++ [GetLightObjects "id"]) /\
  (forall answer e st',
     refresh_lights answer st = Some (Raise e, st') ->
     lights st' = lights st /\
     (forall l r, store st !! l = Some r -> store st' !! l = Some r) /\
     light_controls st' = light_controls st /\
     light_frame st' = light_frame st).
Proof.
  split.
  - intros e. eexists. split; [reflexivity |]. now repeat split.
  - intros answer e st'. apply refresh_lights_raise_frame.
Qed.

End Fetching.


Lemma refresh_lights_failure_keeps_registry_witness :
  let st := mkApp [Light.mk 7 "Old" "Default" true 50 0 254] [0%nat] ∅ [] [] [] in
  exists st',
    @refresh_lights cpython_default (Fails "timed out") st
    = Some (Raise (BridgeError "timed out"), st') /\
    lights st' = [0%nat] /\
    store st' !! 0%nat = Some (Light.mk 7 "Old" "Default" true 50 0 254).
Proof.
  intros st.
  destruct (proj1 (@refresh_lights_failure_keeps_registry cpython_default st) "timed out")
    as (st' & Hrun & Hlights & Hstore & _).
  exists st'. split; [exact Hrun |]. split; [exact Hlights |].
  destruct (proj2 (@refresh_lights_failure_keeps_registry cpython_default st)
              (Fails "timed out") (BridgeError "timed out") st' Hrun)
    as (_ & Hdicts & _).
  apply Hdicts. reflexivity.
Defined.

(** * Further properties *)

(** ** The callbacks, run *)

(** The line [toggle_light] prints. *)
Lemma toggle_light_run (st : LightApp) (light : loc) (rec : Light.t)
    (var : bool) (ack : reply unit) :
  store st !! light = Some rec ->
  toggle_light light var ack st
  = Some (outcome ack,
          mkApp (<[light := Light.set_state var rec]> (store st)) (lights st)
                (light_controls st) (light_frame st)
                (bridge st ++ [SetLight (Light.id rec) "on" (VBool var)])
                (stdout st ++
                   match ack with
                   | Returns _ =>
                       ["Toggled " +:+ Light.name rec +:+ " to " +:+
                        (if var then "ON" else "OFF")]
                   | Fails _ => []
                   end)).
Proof.
  intros Hrec. unfold toggle_light. run. rewrite Hrec. run.
  rewrite list_lookup_insert_eq by (eapply lookup_lt_Some; exact Hrec).
  cbn [Light.id Light.state Light.name Light.set_state].
  destruct ack as [[] | e]; run; [reflexivity |].
  now rewrite app_nil_r.
Qed.

Lemma set_brightness_run (st : LightApp) (light : loc) (rec : Light.t)
    (var : Q) (ack : reply unit) :
  store st !! light = Some rec ->
  set_brightness light var ack st
  = Some (outcome ack,
          mkApp (store st) (lights st) (light_controls st) (light_frame st)
                (bridge st ++
                   [SetLight (Light.id rec) "bri" (VInt (int_of_float var))])
                (stdout st ++
                   match ack with
                   | Returns _ =>
                       ["Set " +:+ Light.name rec +:+ " brightness to " +:+
                        str (int_of_float var)]
                   | Fails _ => []
                   end)).
Proof.
  intros Hrec. unfold set_brightness. run. rewrite Hrec. run.
  destruct ack as [[] | e]; run; [reflexivity |].
  now rewrite app_nil_r.
Qed.

(** [pick_color] only adds to the record of bridge calls and to the lines
    printed. *)
Lemma pick_color_frame {F : FloatModel} (st : LightApp) (light : loc)
    (rec : Light.t) (color : option (Z * Z * Z)) (ack : reply unit) :
  store st !! light = Some rec ->
  exists res calls lines,
    pick_color light color ack st
    = Some (res, mkApp (store st) (lights st) (light_controls st)
                       (light_frame st) (bridge st ++ calls)
                       (stdout st ++ lines)).
Proof.
  intros Hrec.
  assert (Hsame : forall res : result unit, exists calls lines,
            Some (res, st)
            = Some (res, mkApp (store st) (lights st) (light_controls st)
                               (light_frame st) (bridge st ++ calls)
                               (stdout st ++ lines))).
  { intros res. exists [], []. rewrite !app_nil_r. now destruct st. }
  destruct color as [[[c0 c1] c2] |]; [| exists (Ok tt); apply Hsame].
  unfold pick_color. run.
  destruct (normalize c0) as [r | e0]; [| eexists; apply Hsame].
  destruct (normalize c1) as [g | e1]; [| eexists; apply Hsame].
  destruct (normalize c2) as [b | e2]; [| eexists; apply Hsame].
  destruct (rgb_to_hsv r g b) as [[[h s] v] | e3]; [| eexists; apply Hsame].
  run. rewrite Hrec. run.
  destruct ack as [[] | e]; eexists _, [_], [_]; reflexivity.
Qed.

(** X1: [toggle_light] writes the new state into the dict before it calls
    the bridge.  When the call raises, the error is raised, the dict keeps
    the new state and no line is printed; when it returns, one line is
    printed.  Either way the command is on record, only the [state] of that
    one dict has changed, and the registry list, the other dicts, the
    widgets and the control table are as before. *)
Theorem toggle_light_optimistic (st : LightApp) (light : loc) (rec : Light.t)
    (var : bool) (ack : reply unit) :
  store st !! light = Some rec ->
  exists st' rec',
    toggle_light light var ack st = Some (outcome ack, st') /\
    store st' !! light = Some rec' /\
    Light.state rec' = var /\
    (Light.id rec', Light.name rec', Light.environment rec',
     Light.brightness rec', Light.hue rec', Light.saturation rec')
    = (Light.id rec, Light.name rec, Light.environment rec,
       Light.brightness rec, Light.hue rec, Light.saturation rec) /\
    (forall l, l <> light -> store st' !! l = store st !! l) /\
    length (store st') = length (store st) /\
    lights st' = lights st /\
    light_frame st' = light_frame st /\
    light_controls st' = light_controls st /\
    bridge st' = bridge st ++ [SetLight (Light.id rec) "on" (VBool var)] /\
    (forall e, ack = Fails e -> stdout st' = stdout st) /\
    (ack = Returns tt -> length (stdout st') = S (length (stdout st))).
Proof.
  intros Hrec. eexists _, (Light.set_state var rec).
  split; [apply (toggle_light_run st light rec var ack Hrec) |].
  cbn [store lights light_controls light_frame bridge stdout].
  split; [apply list_lookup_insert_eq; eapply lookup_lt_Some; exact Hrec |].
  do 2 (split; [reflexivity |]).
  split; [intros l Hl; now apply list_lookup_insert_ne |].
  split; [apply length_insert |].
  do 4 (split; [reflexivity |]).
  split.
  - intros e ->. apply app_nil_r.
  - intros ->. rewrite length_app. cbn. lia.
Qed.

Lemma toggle_light_optimistic_witness :
  exists st' rec',
    toggle_light 0%nat true (Fails "unreachable")
      (mkApp [Light.mk 1 "Desk" "Default" false 100 0 254] [0%nat] ∅ [] [] [])
    = Some (Raise (BridgeError "unreachable"), st') /\
    store st' !! 0%nat = Some rec' /\ Light.state rec' = true /\
    stdout st' = [].
Proof.
  destruct (toggle_light_optimistic
              (mkApp [Light.mk 1 "Desk" "Default" false 100 0 254] [0%nat] ∅ [] [] [])
              0%nat (Light.mk 1 "Desk" "Default" false 100 0 254) true
              (Fails "unreachable") eq_refl)
    as (st' & rec' & Hrun & Hrec' & Hstate & _ & _ & _ & _ & _ & _ & _ & Hout & _).
  exists st', rec'. split; [exact Hrun |]. split; [exact Hrec' |].
  split; [exact Hstate |]. exact (Hout _ eq_refl).
Defined.

(** X2: two toggles of one light in a row: the dicts end as after the
    second alone (the last write wins), both commands are on record in
    order, and toggling back to the state the dict had restores the dicts
    exactly. *)
Theorem toggle_light_twice (st : LightApp) (light : loc) (rec : Light.t)
    (v1 v2 : bool) (ack1 ack2 : reply unit) :
  store st !! light = Some rec ->
  exists st1 st2,
    toggle_light light v1 ack1 st = Some (outcome ack1, st1) /\
    toggle_light light v2 ack2 st1 = Some (outcome ack2, st2) /\
    store st2 = <[light := Light.set_state v2 rec]> (store st) /\
    (v2 = Light.state rec -> store st2 = store st) /\
    bridge st2 = bridge st ++ [SetLight (Light.id rec) "on" (VBool v1);
                               SetLight (Light.id rec) "on" (VBool v2)].
Proof.
  intros Hrec. eexists _, _.
  split; [apply (toggle_light_run st light rec v1 ack1 Hrec) |].
  split.
  { apply toggle_light_run. cbn [store].
    apply list_lookup_insert_eq. eapply lookup_lt_Some; exact Hrec. }
  cbn [store bridge Light.set_state Light.id Light.name Light.environment
       Light.brightness Light.hue Light.saturation].
  split; [now rewrite list_insert_insert_eq |].
  split; [| now rewrite <- app_assoc].
  intros ->. rewrite list_insert_insert_eq. apply list_insert_id.
  refine (eq_trans Hrec _). now destruct rec.
Qed.

Lemma toggle_light_twice_witness :
  exists st1 st2,
    toggle_light 0%nat true (Returns tt)
      (mkApp [Light.mk 1 "Desk" "Default" false 100 0 254] [0%nat] ∅ [] [] [])
    = Some (Ok tt, st1) /\
    toggle_light 0%nat false (Returns tt) st1 = Some (Ok tt, st2) /\
    store st2 = [Light.mk 1 "Desk" "Default" false 100 0 254].
Proof.
  destruct (toggle_light_twice
              (mkApp [Light.mk 1 "Desk" "Default" false 100 0 254] [0%nat] ∅ [] [] [])
              0%nat (Light.mk 1 "Desk" "Default" false 100 0 254) true false
              (Returns tt) (Returns tt) eq_refl)
    as (st1 & st2 & Hrun1 & Hrun2 & _ & Hback & _).
  exists st1, st2. split; [exact Hrun1 |]. split; [exact Hrun2 |].
  exact (Hback eq_refl).
Defined.

(** X3: toggles of two different lights do not interfere: whichever comes
    first, the dicts end the same, each with its own new state. *)
Theorem toggle_light_commute (st : LightApp) (l1 l2 : loc) (r1 r2 : Light.t)
    (v1 v2 : bool) (a1 a2 : reply unit) :
  l1 <> l2 ->
  store st !! l1 = Some r1 ->
  store st !! l2 = Some r2 ->
  exists s1 s12 s2 s21,
    toggle_light l1 v1 a1 st = Some (outcome a1, s1) /\
    toggle_light l2 v2 a2 s1 = Some (outcome a2, s12) /\
    toggle_light l2 v2 a2 st = Some (outcome a2, s2) /\
    toggle_light l1 v1 a1 s2 = Some (outcome a1, s21) /\
    store s12 = store s21 /\
    store s12 !! l1 = Some (Light.set_state v1 r1) /\
    store s12 !! l2 = Some (Light.set_state v2 r2).
Proof.
  intros Hne H1 H2. eexists _, _, _, _.
  split; [apply (toggle_light_run st l1 r1 v1 a1 H1) |].
  split.
  { apply toggle_light_run. cbn [store].
    rewrite list_lookup_insert_ne by exact Hne. exact H2. }
  split; [apply (toggle_light_run st l2 r2 v2 a2 H2) |].
  split.
  { apply toggle_light_run. cbn [store].
    rewrite list_lookup_insert_ne by (intros E; apply Hne; now symmetry).
    exact H1. }
  cbn [store]. split; [| split].
  - apply list_insert_insert_ne. intros E. apply Hne. now symmetry.
  - rewrite list_lookup_insert_ne by (intros E; apply Hne; now symmetry).
    apply list_lookup_insert_eq. eapply lookup_lt_Some; exact H1.
  - apply list_lookup_insert_eq. rewrite length_insert.
    eapply lookup_lt_Some; exact H2.
Qed.

Lemma toggle_light_commute_witness :
  exists s1 s12,
    toggle_light 0%nat true (Returns tt)
      (mkApp [Light.mk 1 "Desk" "Default" false 100 0 254;
              Light.mk 2 "Lamp" "Default" true 200 0 254]
             [0; 1]%nat ∅ [] [] [])
    = Some (Ok tt, s1) /\
    toggle_light 1%nat false (Returns tt) s1 = Some (Ok tt, s12) /\
    store s12 !! 0%nat = Some (Light.mk 1 "Desk" "Default" true 100 0 254) /\
    store s12 !! 1%nat = Some (Light.mk 2 "Lamp" "Default" false 200 0 254).
Proof.
  destruct (toggle_light_commute
              (mkApp [Light.mk 1 "Desk" "Default" false 100 0 254;
                      Light.mk 2 "Lamp" "Default" true 200 0 254]
                     [0; 1]%nat ∅ [] [] [])
              0%nat 1%nat (Light.mk 1 "Desk" "Default" false 100 0 254)
              (Light.mk 2 "Lamp" "Default" true 200 0 254) true false
              (Returns tt) (Returns tt) ltac:(lia) eq_refl eq_refl)
    as (s1 & s12 & _ & _ & Hrun1 & Hrun2 & _ & _ & _ & Hl1 & Hl2).
  exists s1, s12. split; [exact Hrun1 |]. split; [exact Hrun2 |].
  split; [exact Hl1 | exact Hl2].
Defined.

Lemma int_of_float_monotone (x y : Q) :
  (x <= y)%Q -> int_of_float x <= int_of_float y.
Proof.
  destruct x as [p q], y as [p' q']. unfold Qle, int_of_float. cbn [Qnum Qden].
  intros H.
  rewrite <- (Z.quot_mul_cancel_r p (Z.pos q) (Z.pos q')) by lia.
  rewrite <- (Z.quot_mul_cancel_r p' (Z.pos q') (Z.pos q)) by lia.
  rewrite (Z.mul_comm (Z.pos q') (Z.pos q)).
  apply Z.quot_le_mono; lia.
Qed.

Lemma Qltb_irrefl (x : Q) : Qltb x x = false.
Proof.
  unfold Qltb. now rewrite (proj2 (Qle_bool_iff x x) (Qle_refl x)).
Qed.

(** A grey has no hue and no saturation, whatever the rounding. *)
Lemma rgb_to_hsv_grey {F : FloatModel} (x : Q) :
  rgb_to_hsv x x x = Ok (0%Q, 0%Q, x).
Proof.
  unfold rgb_to_hsv, max3, min3. rewrite !Qltb_irrefl.
  now rewrite (proj2 (Qeq_bool_iff x x) (Qeq_refl x)).
Qed.

(** X4: [set_brightness] and [pick_color] only talk to the bridge and to
    the console: the dicts, the registry list, the widgets and the control
    table are never changed.  They differ when the bridge call raises:
    [set_brightness] prints after the call, so nothing is printed, while
    [pick_color] prints before it, so its line is there although the
    command failed. *)
Theorem brightness_and_color_effects {F : FloatModel} {L : FloatLaws F}
    (st : LightApp) (light : loc) (rec : Light.t) :
  store st !! light = Some rec ->
  (forall var ack, exists st',
     set_brightness light var ack st = Some (outcome ack, st') /\
     store st' = store st /\ lights st' = lights st /\
     light_frame st' = light_frame st /\
     light_controls st' = light_controls st /\
     (forall e, ack = Fails e -> stdout st' = stdout st)) /\
  (forall color ack, exists res st',
     pick_color light color ack st = Some (res, st') /\
     store st' = store st /\ lights st' = lights st /\
     light_frame st' = light_frame st /\
     light_controls st' = light_controls st) /\
  (forall c0 c1 c2 e,
     0 <= c0 <= 255 -> 0 <= c1 <= 255 -> 0 <= c2 <= 255 ->
     exists st' line,
       pick_color light (Some (c0, c1, c2)) (Fails e) st
       = Some (Raise (BridgeError e), st') /\
       stdout st' = stdout st ++ [line]).
Proof.
  intros Hrec. split; [| split].
  - intros var ack. eexists.
    split; [apply (set_brightness_run st light rec var ack Hrec) |].
    cbn [store lights light_controls light_frame stdout].
    do 4 (split; [reflexivity |]). intros e ->. apply app_nil_r.
  - intros color ack.
    destruct (pick_color_frame st light rec color ack Hrec)
      as (res & calls & lines & Hrun).
    eexists _, _. split; [exact Hrun |]. now repeat split.
  - intros c0 c1 c2 e H0 H1 H2.
    destruct (normalize_channel c0 H0) as (r & Hr & Hrf & Hr0 & Hr1).
    destruct (normalize_channel c1 H1) as (g & Hg & Hgf & Hg0 & Hg1).
    destruct (normalize_channel c2 H2) as (b & Hb & Hbf & Hb0 & Hb1).
    destruct (rgb_to_hsv_returns r g b Hrf Hgf Hbf (conj Hr0 Hr1)
                (conj Hg0 Hg1) (conj Hb0 Hb1)) as (h & s & v & Hhsv & _).
    unfold pick_color. run. rewrite Hr, Hg, Hb, Hhsv. run. rewrite Hrec. run.
    eexists _, _. split; reflexivity.
Qed.

Lemma brightness_and_color_effects_witness :
  exists st' line,
    @pick_color exact 0%nat (Some (0, 0, 255)) (Fails "unreachable")
      (mkApp [Light.mk 1 "Desk" "Default" false 100 0 254] [0%nat] ∅ [] [] [])
    = Some (Raise (BridgeError "unreachable"), st') /\
    stdout st' = [line].
Proof.
  exact (proj2 (proj2 (@brightness_and_color_effects exact exact_laws
           (mkApp [Light.mk 1 "Desk" "Default" false 100 0 254] [0%nat] ∅ [] [] [])
           0%nat (Light.mk 1 "Desk" "Default" false 100 0 254) eq_refl))
           0 0 255 "unreachable" ltac:(lia) ltac:(lia) ltac:(lia)).
Defined.

(** X5: the integers sent keep the order of what they are computed from: a
    slider further along never gives a smaller brightness, and a larger hue
    or saturation of [rgb_to_hsv] never gives a smaller device value. *)
Theorem sent_values_keep_order {F : FloatModel} {L : FloatLaws F} :
  (forall var var', (var <= var')%Q -> int_of_float var <= int_of_float var') /\
  (forall h h', (h <= h')%Q -> hue_value h <= hue_value h') /\
  (forall s s', (s <= s')%Q -> saturation_value s <= saturation_value s').
Proof.
  split; [exact int_of_float_monotone |].
  split; intros x y Hxy; apply int_of_float_monotone, fl_monotone; lra.
Qed.

Lemma sent_values_keep_order_witness :
  @hue_value exact (1 # 3) <= @hue_value exact (2 # 3).
Proof.
  apply (proj1 (proj2 (@sent_values_keep_order exact exact_laws))).
  unfold Qle; simpl; lia.
Defined.

(** X6: every grey of the dialog (three equal channels, black and white
    included) makes [pick_color] send hue 0 and saturation 0, with
    [on = True], whatever the rounding. *)
Theorem pick_color_grey {F : FloatModel} {L : FloatLaws F}
    (st : LightApp) (light : loc) (rec : Light.t) (c : Z) (ack : reply unit) :
  store st !! light = Some rec ->
  exists st',
    pick_color light (Some (c, c, c)) ack st = Some (outcome ack, st') /\
    bridge st' =
      bridge st ++
        [SetLightDict (Light.id rec)
           [("hue", VInt 0); ("sat", VInt 0); ("on", VBool true)]].
Proof.
  intros Hrec. unfold pick_color. run.
  change (normalize c) with (Ok (fl (inject_Z c / 255))). run.
  rewrite rgb_to_hsv_grey. run. rewrite Hrec. run.
  rewrite hue_value_0, saturation_value_0.
  destruct ack as [[] | e]; eexists; split; reflexivity.
Qed.

Lemma pick_color_grey_witness :
  exists st',
    @pick_color exact 0%nat (Some (128, 128, 128)) (Returns tt)
      (mkApp [Light.mk 1 "Desk" "Default" false 100 5000 100] [0%nat] ∅ [] [] [])
    = Some (Ok tt, st') /\
    bridge st' =
      [SetLightDict 1 [("hue", VInt 0); ("sat", VInt 0); ("on", VBool true)]].
Proof.
  exact (@pick_color_grey exact exact_laws
           (mkApp [Light.mk 1 "Desk" "Default" false 100 5000 100] [0%nat] ∅ [] [] [])
           0%nat (Light.mk 1 "Desk" "Default" false 100 5000 100) 128
           (Returns tt) eq_refl).
Defined.

(** ** The widgets that [populate_lights] builds *)

Lemma all_blocks_snoc (frames : list EnvFrame) (env : string) (blk : LightBlock) :
  all_blocks (frames ++ [mkEnvFrame env [blk]]) = all_blocks frames ++ [blk].
Proof. unfold all_blocks. now rewrite bind_app, bind_singleton. Qed.

Lemma all_blocks_insert (frames : list EnvFrame) (i : nat) (f : EnvFrame)
    (blk : LightBlock) :
  frames !! i = Some f ->
  all_blocks (<[i := mkEnvFrame (env_label f) (env_children f ++ [blk])]> frames)
  ≡ₚ all_blocks frames ++ [blk].
Proof.
  intros Hi. pose proof (lookup_lt_Some _ _ _ Hi) as Hlt.
  rewrite insert_take_drop by exact Hlt.
  rewrite <- (take_drop_middle frames i f Hi) at 3.
  unfold all_blocks. rewrite !bind_app, !bind_cons. cbn [env_children].
  rewrite <- !app_assoc. do 2 f_equiv. apply Permutation_app_comm.
Qed.

(** One turn of the loop: one more block, one more entry of the table. *)
Lemma populate_step_shape (st : LightApp) (done : list loc)
    (ef : gmap string nat) (light : loc) (r : Light.t) :
  store st !! light = Some r ->
  view_inv (store st) done ef (light_frame st) ->
  exists ef' st',
    populate_step light ef st = Some (Ok ef', st') /\
    store st' = store st /\ lights st' = lights st /\
    bridge st' = bridge st /\ stdout st' = stdout st /\
    light_controls st' = <[Light.id r := controls_of r]> (light_controls st) /\
    all_blocks (light_frame st')
    ≡ₚ all_blocks (light_frame st) ++ [block_of light r] /\
    view_inv (store st) (done ++ [light]) ef' (light_frame st').
Proof.
  intros Hr Hinv. unfold populate_step, bind at 1, getdict. rewrite Hr.
  destruct (ef !! Light.environment r) as [i |] eqn:Hef.
  - destruct (proj1 (inv_frames _ _ _ _ Hinv _ _) Hef) as (f & Hi & Hf).
    run. rewrite Hef. run. rewrite Hi. run.
    eexists _, _. split; [reflexivity |]. run.
    do 5 (split; [reflexivity |]).
    split; [now apply all_blocks_insert |].
    apply (view_inv_old _ _ _ _ _ r);
      [exact Hr | exact Hef | exact Hi | reflexivity | exact Hinv].
  - run. rewrite lookup_insert_eq. run.
    rewrite lookup_app_r, Nat.sub_diag by lia.
    cbn [lookup list_lookup env_label env_children app]. run.
    eexists _, _. split; [reflexivity |]. run.
    do 5 (split; [reflexivity |]).
    rewrite insert_app_r_alt, Nat.sub_diag by lia. cbn [insert list_insert].
    split; [now rewrite all_blocks_snoc |].
    apply view_inv_new; [exact Hr | exact Hef | reflexivity | exact Hinv].
Qed.

Lemma populate_loop_shape (rest : list loc) :
  forall (done : list loc) (ef : gmap string nat) (st : LightApp),
    Forall (fun l => is_Some (store st !! l)) rest ->
    view_inv (store st) done ef (light_frame st) ->
    exists st',
      populate_loop rest ef st = Some (Ok tt, st') /\
      store st' = store st /\ lights st' = lights st /\
      bridge st' = bridge st /\ stdout st' = stdout st /\
      light_controls st' = controls_after (store st) rest (light_controls st) /\
      all_blocks (light_frame st')
      ≡ₚ all_blocks (light_frame st) ++ blocks_of (store st) rest.
Proof.
  induction rest as [| light rest IH]; intros done ef st Hwf Hinv.
  - exists st. unfold blocks_of. cbn. rewrite app_nil_r. now repeat split.
  - apply Forall_cons in Hwf as [[r Hr] Hwf].
    destruct (populate_step_shape st done ef light r Hr Hinv)
      as (ef1 & st1 & Hstep & Hstore & Hlights & Hbridge & Hout & Hctl & Hblk
          & Hinv1).
    destruct (IH (done ++ [light]) ef1 st1) as
      (st2 & Hloop & Hstore2 & Hlights2 & Hbridge2 & Hout2 & Hctl2 & Hblk2).
    { now rewrite Hstore. }
    { now rewrite Hstore. }
    exists st2. cbn [populate_loop]. unfold bind. rewrite Hstep.
    split; [exact Hloop |]. do 4 (split; [congruence |]). split.
    + rewrite Hctl2, Hstore, Hctl. unfold controls_after. cbn [foldl].
      now rewrite Hr.
    + rewrite Hblk2, Hblk, Hstore. unfold blocks_of. cbn [omap list_omap].
      rewrite Hr. cbn [fmap option_fmap option_map]. now rewrite <- app_assoc.
Qed.

Lemma populate_lights_shape (st : LightApp) :
  well_formed st ->
  exists st',
    populate_lights st = Some (Ok tt, st') /\
    store st' = store st /\ lights st' = lights st /\
    bridge st' = bridge st /\ stdout st' = stdout st /\
    light_controls st' = controls_after (store st) (lights st) ∅ /\
    all_blocks (light_frame st') ≡ₚ blocks_of (store st) (lights st).
Proof.
  intros Hwf. rewrite populate_lights_unfold.
  destruct (populate_loop_shape (lights st) [] ∅
              (mkApp (store st) (lights st) ∅ [] (bridge st) (stdout st))
              Hwf (view_inv_start _))
    as (st' & Hrun & Hrest).
  exists st'. split; [exact Hrun | exact Hrest].
Qed.

Lemma blocks_of_bound (dicts : list Light.t) (ls : list loc) :
  Forall (fun l => is_Some (dicts !! l)) ls ->
  bound_light <$> blocks_of dicts ls = ls.
Proof.
  induction 1 as [| l ls [r Hr] _ IH]; [reflexivity |].
  unfold blocks_of in *. cbn [omap list_omap]. rewrite Hr. cbn. now rewrite IH.
Qed.

Lemma blocks_of_show (dicts : list Light.t) (ls : list loc) :
  Forall (fun blk => exists r, dicts !! bound_light blk = Some r /\
                               blk = block_of (bound_light blk) r)
         (blocks_of dicts ls).
Proof.
  apply Forall_forall. intros blk Hblk. unfold blocks_of in Hblk.
  apply list_elem_of_omap in Hblk as (l & _ & Hl).
  destruct (dicts !! l) as [r |] eqn:Hr; [| discriminate].
  injection Hl as <-. exists r. now split.
Qed.

(** X7: after [populate_lights] every light of the registry has exactly one
    block on display, and every block shows the name, the state and the
    brightness of the dict its callbacks are bound to; the bridge is not
    called and nothing is printed. *)
Theorem populate_lights_blocks (st : LightApp) :
  well_formed st ->
  exists st',
    populate_lights st = Some (Ok tt, st') /\
    bound_lights st' ≡ₚ lights st /\
    length (all_blocks (light_frame st')) = length (lights st) /\
    Forall (fun blk => exists r,
              store st' !! bound_light blk = Some r /\
              light_label blk = Light.name r /\
              toggle blk = Light.state r /\
              bright_slider blk = Light.brightness r)
           (all_blocks (light_frame st')) /\
    bridge st' = bridge st /\ stdout st' = stdout st.
Proof.
  intros Hwf.
  destruct (populate_lights_shape st Hwf)
    as (st' & Hrun & Hstore & Hlights & Hbridge & Hout & _ & Hblk).
  exists st'. split; [exact Hrun |].
  assert (Hbound : bound_lights st' ≡ₚ lights st).
  { unfold bound_lights. rewrite Hblk. now rewrite blocks_of_bound. }
  split; [exact Hbound |]. split.
  { rewrite <- (length_fmap bound_light). fold (bound_lights st').
    now rewrite Hbound. }
  split; [| now split].
  rewrite Hblk, Hstore.
  eapply Forall_impl; [apply blocks_of_show |].
  intros blk (r & Hr & Heq). exists r. split; [exact Hr |].
  rewrite Heq. now repeat split.
Qed.

Lemma populate_lights_blocks_witness :
  exists st',
    populate_lights
      (mkApp [Light.mk 1 "a" "Kitchen" false 100 0 254;
              Light.mk 2 "b" "Hall" true 10 0 254;
              Light.mk 3 "c" "Kitchen" true 20 0 254]
             [0; 1; 2]%nat ∅ [] [] []) = Some (Ok tt, st') /\
    length (all_blocks (light_frame st')) = 3%nat.
Proof.
  destruct (populate_lights_blocks
              (mkApp [Light.mk 1 "a" "Kitchen" false 100 0 254;
                      Light.mk 2 "b" "Hall" true 10 0 254;
                      Light.mk 3 "c" "Kitchen" true 20 0 254]
                     [0; 1; 2]%nat ∅ [] [] []))
    as (st' & Hrun & _ & Hlen & _).
  - unfold well_formed. cbn [lights store].
    repeat constructor; cbn; eexists; reflexivity.
  - exists st'. split; [exact Hrun | exact Hlen].
Defined.

Lemma controls_after_other (dicts : list Light.t) (ls : list loc) :
  forall (m : gmap Z Controls) (n : Z),
    n ∉ ids_of dicts ls -> controls_after dicts ls m !! n = m !! n.
Proof.
  induction ls as [| l ls IH]; intros m n Hn; [reflexivity |].
  unfold controls_after, ids_of in *. cbn [foldl omap list_omap] in *.
  destruct (dicts !! l) as [r |]; cbn [fmap option_fmap option_map] in Hn.
  - rewrite IH by (intros H; apply Hn; now right).
    apply lookup_insert_ne. intros E. apply Hn. rewrite E. now left.
  - now apply IH.
Qed.

Lemma controls_after_keys (dicts : list Light.t) (ls : list loc) :
  forall (m : gmap Z Controls) (n : Z),
    is_Some (controls_after dicts ls m !! n)
    <-> n ∈ ids_of dicts ls \/ is_Some (m !! n).
Proof.
  induction ls as [| l ls IH]; intros m n.
  - unfold ids_of. cbn. rewrite elem_of_nil. tauto.
  - unfold controls_after, ids_of in *. cbn [foldl omap list_omap].
    destruct (dicts !! l) as [r |]; cbn [fmap option_fmap option_map].
    + rewrite IH, elem_of_cons, lookup_insert.
      case_decide as E.
      * subst n. split; [tauto |]. intros _. right. now eexists.
      * split; [intros [H | H]; tauto |].
        intros [[H | H] | H]; [congruence | tauto | tauto].
    + apply IH.
Qed.

(** X8: [populate_lights] rebuilds the control table from nothing: its
    keys are exactly the identifiers of the registry (what an earlier
    build had left is gone), and the entry of an identifier holds the
    state and brightness of the last light that carries it. *)
Theorem populate_lights_controls (st : LightApp) :
  well_formed st ->
  exists st',
    populate_lights st = Some (Ok tt, st') /\
    (forall n, is_Some (light_controls st' !! n) <-> n ∈ registry_ids st) /\
    (forall pre l post r,
       lights st = pre ++ l :: post ->
       store st !! l = Some r ->
       Light.id r ∉ ids_of (store st) post ->
       light_controls st' !! Light.id r = Some (controls_of r)).
Proof.
  intros Hwf.
  destruct (populate_lights_shape st Hwf)
    as (st' & Hrun & _ & _ & _ & _ & Hctl & _).
  exists st'. split; [exact Hrun |]. rewrite Hctl. split.
  - intros n. rewrite controls_after_keys, lookup_empty.
    change (ids_of (store st) (lights st)) with (registry_ids st).
    split; [intros [H | [x H]]; [exact H | discriminate] | tauto].
  - intros pre l post r Hsplit Hr Hlast. rewrite Hsplit.
    unfold controls_after. rewrite foldl_app. cbn [foldl]. rewrite Hr.
    fold (controls_after (store st) pre ∅).
    fold (controls_after (store st) post
            (<[Light.id r := controls_of r]> (controls_after (store st) pre ∅))).
    rewrite controls_after_other by exact Hlast.
    apply lookup_insert_eq.
Qed.

Lemma populate_lights_controls_witness :
  exists st',
    populate_lights
      (mkApp [Light.mk 1 "a" "Kitchen" false 100 0 254;
              Light.mk 2 "b" "Hall" true 10 0 254;
              Light.mk 1 "c" "Kitchen" true 20 0 254]
             [0; 1; 2]%nat (<[9 := mkControls true 1]> ∅) [] [] [])
    = Some (Ok tt, st') /\
    light_controls st' !! 1 = Some (mkControls true 20) /\
    ~ is_Some (light_controls st' !! 9).
Proof.
  destruct (populate_lights_controls
              (mkApp [Light.mk 1 "a" "Kitchen" false 100 0 254;
                      Light.mk 2 "b" "Hall" true 10 0 254;
                      Light.mk 1 "c" "Kitchen" true 20 0 254]
                     [0; 1; 2]%nat (<[9 := mkControls true 1]> ∅) [] [] []))
    as (st' & Hrun & Hkeys & Hlast).
  - unfold well_formed. cbn [lights store].
    repeat constructor; cbn; eexists; reflexivity.
  - exists st'. split; [exact Hrun |]. split.
    + apply (Hlast [0; 1]%nat 2%nat [] (Light.mk 1 "c" "Kitchen" true 20 0 254));
        [reflexivity | reflexivity | compute_done].
    + rewrite Hkeys. compute_done.
Defined.

(** ** Fetching, refreshing and the life of the window *)





(** A state whose registry is the dicts just added to the store. *)
Lemma fresh_registry_well_formed (st : LightApp) (old new : list Light.t) :
  store st = old ++ new ->
  lights st = seq (length old) (length new) ->
  well_formed st.
Proof.
  intros Hstore Hlights. unfold well_formed. rewrite Hstore, Hlights.
  apply Forall_forall. intros l Hl. apply elem_of_seq in Hl.
  apply lookup_lt_is_Some. rewrite length_app. lia.
Qed.

(** [populate_lights] leaves the application in order. *)
Lemma populate_lights_inv (st : LightApp) :
  well_formed st ->
  exists ef st',
    populate_lights st = Some (Ok tt, st') /\
    store st' = store st /\ lights st' = lights st /\
    bridge st' = bridge st /\ stdout st' = stdout st /\
    light_controls st' = controls_after (store st) (lights st) ∅ /\
    view_inv (store st) (lights st) ef (light_frame st') /\
    app_inv st'.
Proof.
  intros Hwf.
  destruct (populate_lights_shape st Hwf)
    as (st' & Hrun & Hstore & Hlights & Hbridge & Hout & Hctl & Hblk).
  destruct (populate_lights_run st Hwf)
    as (ef & st'' & Hrun' & _ & _ & _ & _ & Hinv).
  assert (st'' = st') as -> by congruence.
  exists ef, st'. split; [exact Hrun |].
  do 5 (split; [assumption |]). split; [exact Hinv |].
  split.
  - unfold well_formed. now rewrite Hstore, Hlights.
  - unfold bound_lights. rewrite Hblk, Hlights. now rewrite blocks_of_bound.
Qed.

Section Window.

Context {F : FloatModel} {P : PyConfig}.

(** The loop of [get_lights_from_hue] always comes to an end: with the
    list of the new dicts, or with an exception. *)
Lemma fetch_loop_total (items : list (device_id * Device.t)) :
  forall (acc : list loc) (st : LightApp),
    exists res new,
      fetch_loop items acc st
      = Some (res, mkApp (store st ++ new) (lights st) (light_controls st)
                         (light_frame st) (bridge st) (stdout st)) /\
      forall l, res = Ok l -> l = acc ++ seq (length (store st)) (length new).
Proof.
  induction items as [| [light_id light] items IH]; intros acc st.
  - exists (Ok acc), []. rewrite !app_nil_r. split; [now destruct st |].
    now intros l [= <-].
  - cbn [fetch_loop]. run. destruct (light_dict light_id light) as [r | e].
    + run.
      destruct (IH (acc ++ [length (store st)])
                  (mkApp (store st ++ [r]) (lights st)
                         (light_controls st) (light_frame st) (bridge st)
                         (stdout st)))
        as (res & new & Hrun & Hres).
      exists res, (r :: new). split.
      * refine (eq_trans Hrun _).
        cbn [store lights light_controls light_frame bridge stdout].
        now rewrite <- app_assoc.
      * intros l Hl. rewrite (Hres l Hl).
        cbn [store length seq]. rewrite length_app, Nat.add_1_r.
        now rewrite <- app_assoc.
    + run. exists (Raise e), []. rewrite app_nil_r.
      split; [now destruct st | discriminate].
Qed.

(** What [refresh_lights] does in every case. *)
Lemma refresh_lights_cases
    (answer : reply (list (device_id * Device.t))) (st : LightApp) :
  exists res st' new,
    refresh_lights answer st = Some (res, st') /\
    store st' = store st ++ new /\
    bridge st' = bridge st ++ [GetLightObjects "id"] /\
    stdout st' = stdout st /\
    match res with
    | Ok _ => lights st' = seq (length (store st)) (length new) /\ app_inv st'
    | Raise _ =>
        lights st' = lights st /\ light_frame st' = light_frame st /\
        light_controls st' = light_controls st
    end.
Proof.
  unfold refresh_lights, get_lights_from_hue. run.
  destruct answer as [items | e].
  - destruct (fetch_loop_total items []
                (mkApp (store st) (lights st) (light_controls st)
                       (light_frame st) (bridge st ++ [GetLightObjects "id"])
                       (stdout st)))
      as ([l | e] & new & Hrun & Hres).
    + rewrite Hrun. run. rewrite (Hres l eq_refl). cbn [app store].
      set (st1 := mkApp _ _ _ _ _ _).
      destruct (populate_lights_inv st1)
        as (ef & st' & Hpop & Hstore & Hlights & Hbridge & Hout & _ & _ & Hinv).
      { now apply (fresh_registry_well_formed st1 (store st) new). }
      exists (Ok tt), st', new. split; [exact Hpop |].
      rewrite Hstore, Hbridge, Hout, Hlights.
      do 3 (split; [reflexivity |]). split; [reflexivity | exact Hinv].
    + rewrite Hrun. eexists (Raise e), _, new. split; [reflexivity |].
      now repeat split.
  - eexists (Raise (BridgeError e)), _, []. split; [reflexivity |].
    cbn [store lights light_controls light_frame bridge stdout].
    rewrite app_nil_r. now repeat split.
Qed.

(** The invariant does not look at the record of bridge calls, the lines
    printed or the control table, and dicts may be added or, in place,
    replaced. *)
Lemma app_inv_frame (st st' : LightApp) :
  (forall l, is_Some (store st !! l) -> is_Some (store st' !! l)) ->
  lights st' = lights st ->
  light_frame st' = light_frame st ->
  app_inv st -> app_inv st'.
Proof.
  intros Hstore Hlights Hframe [Hwf Hbound]. split.
  - unfold well_formed in *. rewrite Hlights.
    eapply Forall_impl; [exact Hwf | exact Hstore].
  - unfold bound_lights in *. now rewrite Hframe, Hlights.
Qed.

Lemma on_display_light (st : LightApp) (light : loc) :
  app_inv st -> light ∈ bound_lights st -> is_Some (store st !! light).
Proof.
  intros [Hwf Hbound] Hin. rewrite Hbound in Hin.
  unfold well_formed in Hwf. rewrite Forall_forall in Hwf. now apply Hwf.
Qed.

(** Every event of a widget on display runs to its end and leaves the
    application in order. *)
Lemma fire_inv (st : LightApp) (e : event) :
  app_inv st -> on_display st e ->
  exists res st', fire e st = Some (res, st') /\ app_inv st'.
Proof.
  intros Hinv Hon.
  destruct e as [light var ack | light var ack | light color ack | answer];
    cbn [fire on_display] in *.
  - destruct (on_display_light st light Hinv Hon) as [rec Hrec].
    eexists _, _. split; [apply (toggle_light_run st light rec var ack Hrec) |].
    apply (app_inv_frame st); [| reflexivity | reflexivity | exact Hinv].
    intros l Hl. cbn [store]. apply lookup_lt_is_Some. rewrite length_insert.
    now apply lookup_lt_is_Some.
  - destruct (on_display_light st light Hinv Hon) as [rec Hrec].
    eexists _, _. split; [apply (set_brightness_run st light rec var ack Hrec) |].
    now apply (app_inv_frame st).
  - destruct (on_display_light st light Hinv Hon) as [rec Hrec].
    destruct (pick_color_frame st light rec color ack Hrec)
      as (res & calls & lines & Hrun).
    eexists _, _. split; [exact Hrun |]. now apply (app_inv_frame st).
  - destruct (refresh_lights_cases answer st)
      as (res & st' & new & Hrun & Hstore & _ & _ & Hres).
    exists res, st'. split; [exact Hrun |].
    destruct res as [[] | err]; [tauto |].
    destruct Hres as (Hlights & Hframe & _).
    apply (app_inv_frame st); [| exact Hlights | exact Hframe | exact Hinv].
    intros l Hl. rewrite Hstore. apply lookup_lt_is_Some. rewrite length_app.
    apply lookup_lt_is_Some in Hl. lia.
Qed.

Lemma init_inv (connected : reply unit)
    (answer : reply (list (device_id * Device.t))) (st : LightApp) :
  init connected answer new_app = Some (Ok tt, st) ->
  app_inv st /\ bridge st = [Connect; GetLightObjects "id"] /\ stdout st = [].
Proof.
  unfold init, get_lights_from_hue, new_app. run.
  destruct connected as [[] | e]; [| discriminate]. run.
  destruct answer as [items | e]; [| discriminate]. cbn [app].
  destruct (fetch_loop_total items []
              (mkApp [] [] ∅ [] [Connect; GetLightObjects "id"] []))
    as ([l | e] & new & Hrun & Hres).
  - cbn [store lights light_controls light_frame bridge stdout app] in Hrun.
    rewrite Hrun. run. rewrite (Hres l eq_refl). cbn [app store length].
    set (st1 := mkApp _ _ _ _ _ _).
    destruct (populate_lights_inv st1)
      as (ef & st' & Hpop & _ & _ & Hbridge & Hout & _ & _ & Hinv).
    { now apply (fresh_registry_well_formed st1 [] new). }
    rewrite Hpop. intros [= <-]. split; [exact Hinv |].
    rewrite Hbridge, Hout. now split.
  - cbn [store lights light_controls light_frame bridge stdout app] in Hrun.
    rewrite Hrun. discriminate.
Qed.

(** X9: in every state the window can reach (after an [__init__] that
    returned, and any events of widgets on display, failed callbacks
    included) the registry refers to dicts only, the blocks on display are
    those of the lights of the registry, one each, and so whatever event a
    widget on display sends next, its callback finds its dict and runs to
    its end. *)
Theorem reachable_in_order (st : LightApp) :
  reachable st ->
  app_inv st /\
  forall e, on_display st e -> exists res st', fire e st = Some (res, st').
Proof.
  intros Hreach.
  assert (Hinv : app_inv st).
  { induction Hreach as [connected answer st Hinit
                        | st e res st' _ IH Hon Hfire].
    - now apply init_inv in Hinit.
    - destruct (fire_inv st e IH Hon) as (res' & st'' & Hfire' & Hinv').
      congruence. }
  split; [exact Hinv |].
  intros e Hon. destruct (fire_inv st e Hinv Hon) as (res & st' & Hfire & _).
  now exists res, st'.
Qed.

End Window.

Lemma reachable_in_order_witness :
  exists st,
    @init cpython_default (Returns tt)
      (Returns [(IdInt 1, Device.mk "Desk" false 100 (Some 0) (Some 254));
                (IdStr "2", Device.mk "Lamp" true 200 (Some 1234) (Some 77))])
      new_app = Some (Ok tt, st) /\
    app_inv st.
Proof.
  eexists. split; [vm_compute; reflexivity |].
  refine (proj1 (@reachable_in_order exact cpython_default _
                   (@reachable_init exact cpython_default (Returns tt)
                      (Returns [(IdInt 1, Device.mk "Desk" false 100 (Some 0)
                                                    (Some 254));
                                (IdStr "2", Device.mk "Lamp" true 200 (Some 1234)
                                                      (Some 77))])
                      _ _))).
  vm_compute; reflexivity.
Defined.

Section Refreshing.

Context {P : PyConfig}.

(** The loop over a response that starts with items that give their dicts
    and goes on with an identifier that does not convert. *)
Lemma fetch_loop_first_bad (good : list (device_id * Device.t))
    (rs : list Light.t) :
  Forall2 (fun it r => light_dict it.1 it.2 = Ok r) good rs ->
  forall (s : string) (d : Device.t) (rest : list (device_id * Device.t))
         (acc : list loc) (st : LightApp),
    int_of_str s = None ->
    fetch_loop (good ++ (IdStr s, d) :: rest) acc st
    = Some (Raise (ValueError s),
            mkApp (store st ++ rs) (lights st)
                  (light_controls st) (light_frame st) (bridge st) (stdout st)).
Proof.
  induction 1 as [| [light_id light] r good rs Hr _ IH];
    intros s d rest acc st Hs.
  - cbn [app fetch_loop]. run. unfold light_dict. cbn [py_int]. rewrite Hs.
    run. cbn. rewrite app_nil_r. now destruct st.
  - cbn [app fetch_loop]. cbn [fst snd] in Hr. run. rewrite Hr. run.
    rewrite (IH s d rest _ _ Hs).
    cbn [store lights light_controls light_frame bridge stdout].
    now rewrite <- app_assoc.
Qed.

(** X10: [get_lights_from_hue] stops at the first identifier that does not
    convert: [ValueError] is raised for that one, exactly the dicts of the
    devices before it (which give theirs) have been built, the devices
    after it are not looked at, and [self.lights] is not touched. *)
Theorem fetch_stops_at_first_bad_identifier
    (st : LightApp) (good rest : list (device_id * Device.t))
    (rs : list Light.t) (s : string) (d : Device.t) :
  Forall2 (fun it r => light_dict it.1 it.2 = Ok r) good rs ->
  int_of_str s = None ->
  exists st',
    get_lights_from_hue (Returns (good ++ (IdStr s, d) :: rest)) st
    = Some (Raise (ValueError s), st') /\
    store st' = store st ++ rs /\
    length (store st') = (length (store st) + length good)%nat /\
    lights st' = lights st /\
    bridge st' = bridge st ++ [GetLightObjects "id"].
Proof.
  intros Hgood Hs. eexists. split.
  - unfold get_lights_from_hue. run.
    apply (fetch_loop_first_bad good rs Hgood s d rest [] _ Hs).
  - cbn [store lights bridge]. split; [reflexivity |].
    split; [| now split].
    rewrite length_app. apply Forall2_length in Hgood. lia.
Qed.

(** X11: [refresh_lights] makes one bridge call, the enumeration, whether
    it returns or raises; it never sends a command to a light and prints
    nothing; and it always comes to an end. *)
Theorem refresh_lights_one_call
    (answer : reply (list (device_id * Device.t))) (st : LightApp) :
  exists res st',
    refresh_lights answer st = Some (res, st') /\
    bridge st' = bridge st ++ [GetLightObjects "id"] /\
    stdout st' = stdout st.
Proof.
  destruct (@refresh_lights_cases P answer st)
    as (res & st' & new & Hrun & _ & Hbridge & Hout & _).
  now exists res, st'.
Qed.

(** [refresh_lights] when every identifier converts, with all that
    [populate_lights] sets up. *)
Lemma refresh_lights_full (items : list (device_id * Device.t))
    (rs : list Light.t) (st : LightApp) :
  Forall2 (fun it r => light_dict it.1 it.2 = Ok r) items rs ->
  exists ef st',
    refresh_lights (Returns items) st = Some (Ok tt, st') /\
    store st' = store st ++ rs /\
    lights st' = seq (length (store st)) (length items) /\
    view_inv (store st') (lights st') ef (light_frame st') /\
    light_controls st' = controls_after (store st') (lights st') ∅ /\
    app_inv st'.
Proof.
  intros Hrs. unfold refresh_lights. unfold bind at 1.
  rewrite (get_lights_from_hue_ok items rs st Hrs). run.
  set (st1 := mkApp _ _ _ _ _ _).
  destruct (populate_lights_inv st1)
    as (ef & st' & Hrun & Hstore & Hlights & _ & _ & Hctl & Hview & Hinv).
  { apply (fresh_registry_well_formed st1 (store st) rs); [reflexivity |].
    subst st1. cbn [lights]. apply Forall2_length in Hrs. now rewrite Hrs. }
  exists ef, st'. split; [exact Hrun |].
  rewrite Hstore, Hlights. subst st1. cbn [store lights] in *.
  now repeat (split; [assumption || reflexivity |]).
Qed.


(** X13: a refresh that returns (every item of the response gives its
    dict) overwrites an edit made by [toggle_light]:
    whatever was toggled before, the dict that the registry now holds for a
    device carries the on/off state that the device reports.  The dict that
    was toggled keeps its state but is no longer in the registry. *)
Theorem refresh_overwrites_toggle
    (st : LightApp) (light : loc) (rec : Light.t) (var : bool)
    (ack : reply unit) (items : list (device_id * Device.t))
    (rs : list Light.t) (i : nat) (light_id : device_id) (d : Device.t) :
  store st !! light = Some rec ->
  Forall2 (fun it r => light_dict it.1 it.2 = Ok r) items rs ->
  items !! i = Some (light_id, d) ->
  exists st1 st2 l r,
    toggle_light light var ack st = Some (outcome ack, st1) /\
    refresh_lights (Returns items) st1 = Some (Ok tt, st2) /\
    lights st2 !! i = Some l /\
    store st2 !! l = Some r /\
    Light.state r = Device.on d /\
    (light ∉ lights st2) /\
    Light.state <$> (store st2 !! light) = Some var.
Proof.
  intros Hrec Hrs Hi.
  destruct (Forall2_lookup_l _ _ _ _ _ Hrs Hi) as (r & Hr & Hdict).
  cbn [fst snd] in Hdict.
  apply light_dict_inv in Hdict as (_ & _ & _ & Hstate & _).
  pose proof (toggle_light_run st light rec var ack Hrec) as Hrun1.
  set (st1 := mkApp _ _ _ _ _ _) in Hrun1.
  destruct (refresh_lights_full items rs st1 Hrs)
    as (ef & st2 & Hrun2 & Hstore & Hlights & _).
  assert (Hlen : length (store st1) = length (store st))
    by (subst st1; cbn [store]; apply length_insert).
  exists st1, st2, (length (store st1) + i)%nat, r.
  split; [exact Hrun1 |]. split; [exact Hrun2 |].
  split.
  { rewrite Hlights. apply lookup_seq. split; [reflexivity |].
    eapply lookup_lt_Some; exact Hi. }
  split.
  { rewrite Hstore, lookup_app_r by lia.
    replace (length (store st1) + i - length (store st1))%nat with i by lia.
    exact Hr. }
  split; [exact Hstate |]. split.
  - rewrite Hlights, elem_of_seq. apply lookup_lt_Some in Hrec. lia.
  - rewrite Hstore, lookup_app_l by (apply lookup_lt_Some in Hrec; lia).
    subst st1. cbn [store].
    rewrite list_lookup_insert_eq by (eapply lookup_lt_Some; exact Hrec).
    reflexivity.
Qed.

(** X14: a refresh that returns (every item of the response gives its
    dict) replaces the registry wholesale: the new
    list holds as many references as the response has devices, all
    distinct and all to dicts built by this fetch, in the order of the
    response; the dicts that existed are left as they were; and a callback
    still bound to one of them changes no dict of the new registry. *)
Theorem refresh_lights_replaces_registry
    (st : LightApp) (items : list (device_id * Device.t)) (rs : list Light.t) :
  Forall2 (fun it r => light_dict it.1 it.2 = Ok r) items rs ->
  exists st',
    refresh_lights (Returns items) st = Some (Ok tt, st') /\
    length (lights st') = length items /\
    NoDup (lights st') /\
    (forall l, l ∈ lights st' -> store st !! l = None /\ is_Some (store st' !! l)) /\
    (forall l r, store st !! l = Some r -> store st' !! l = Some r) /\
    (forall old rec var ack,
       store st !! old = Some rec ->
       exists st'',
         toggle_light old var ack st' = Some (outcome ack, st'') /\
         lights st'' = lights st' /\
         forall l, l ∈ lights st' -> store st'' !! l = store st' !! l).
Proof.
  intros Hrs.
  destruct (refresh_lights_full items rs st Hrs)
    as (ef & st' & Hrun & Hstore & Hlights & _ & _ & [Hwf _]).
  exists st'. split; [exact Hrun |].
  split; [now rewrite Hlights, length_seq |].
  split; [rewrite Hlights; apply NoDup_seq |].
  assert (Hfresh : forall l, l ∈ lights st' -> (length (store st) <= l)%nat).
  { intros l Hl. rewrite Hlights in Hl. apply elem_of_seq in Hl. lia. }
  split.
  { intros l Hl. split.
    - apply lookup_ge_None. now apply Hfresh.
    - unfold well_formed in Hwf. rewrite Forall_forall in Hwf. now apply Hwf. }
  split.
  { intros l r Hl. rewrite Hstore. now apply lookup_app_l_Some. }
  intros old rec var ack Hold.
  assert (Hold' : store st' !! old = Some rec)
    by (rewrite Hstore; now apply lookup_app_l_Some).
  eexists. split; [apply (toggle_light_run st' old rec var ack Hold') |].
  cbn [store lights]. split; [reflexivity |].
  intros l Hl. apply list_lookup_insert_ne.
  apply Hfresh in Hl. apply lookup_lt_Some in Hold. lia.
Qed.

(** X15: [__init__] is a connection followed by what the Refresh button
    does on an empty window.  When the connection raises, the error is
    raised and the enumeration is not asked for; when it returns, the
    outcome and the window are those of [refresh_lights] run on the empty
    application.  [__init__] always comes to an end, and when it raises
    there is no registry, no widget and no control entry. *)
Theorem init_connect_then_refresh
    (connected : reply unit) (answer : reply (list (device_id * Device.t))) :
  let connected_app := mkApp [] [] ∅ [] [Connect] [] in
  (forall e, connected = Fails e ->
     init connected answer new_app = Some (Raise (BridgeError e), connected_app)) /\
  (connected = Returns tt ->
     init connected answer new_app = refresh_lights answer connected_app) /\
  exists res st,
    init connected answer new_app = Some (res, st) /\
    (forall e, res = Raise e ->
       lights st = [] /\ light_frame st = [] /\ light_controls st = ∅).
Proof.
  intros connected_app.
  assert (Hfail : forall e, init (Fails e) answer new_app
                            = Some (Raise (BridgeError e), connected_app))
    by reflexivity.
  assert (Hok : init (Returns tt) answer new_app
                = refresh_lights answer connected_app).
  { unfold init, refresh_lights, new_app, connected_app. run.
    destruct (get_lights_from_hue answer _) as [[[l | e] st1] |]; reflexivity. }
  split; [now intros e -> |]. split; [now intros -> |].
  destruct connected as [[] | e].
  - rewrite Hok.
    destruct (@refresh_lights_cases P answer connected_app)
      as (res & st & new & Hrun & _ & _ & _ & Hres).
    exists res, st. split; [exact Hrun |].
    intros e ->. exact Hres.
  - rewrite Hfail. eexists _, _. split; [reflexivity |]. now intros e' _.
Qed.

(** The loop on a response whose identifiers convert and one of whose
    lights does not report its colour. *)
Lemma fetch_loop_keyerror (items : list (device_id * Device.t)) (ns : list Z) :
  Forall2 (fun it n => py_int it.1 = Ok n) items ns ->
  Exists (fun it => ~ reports_color it.2) items ->
  forall (acc : list loc) (st : LightApp),
    exists p new,
      (p = "hue" \/ p = "sat") /\
      fetch_loop items acc st
      = Some (Raise (KeyError p),
              mkApp (store st ++ new) (lights st) (light_controls st)
                    (light_frame st) (bridge st) (stdout st)).
Proof.
  induction 1 as [| [light_id light] n items ns Hn _ IH]; intros Hex acc st.
  - inversion Hex.
  - cbn [fst] in Hn. cbn [fetch_loop]. run.
    destruct (light_dict light_id light) as [r | e] eqn:Hdict.
    + apply light_dict_inv in Hdict as (_ & _ & _ & _ & _ & Hh & Hs).
      apply Exists_cons in Hex as [Hhead | Hex].
      { exfalso. apply Hhead. cbn [snd]. split; eexists; eassumption. }
      run.
      destruct (IH Hex (acc ++ [length (store st)])
                  (mkApp (store st ++ [r]) (lights st) (light_controls st)
                         (light_frame st) (bridge st) (stdout st)))
        as (p & new & Hp & Hrun).
      exists p, (r :: new). split; [exact Hp |].
      refine (eq_trans Hrun _).
      cbn [store lights light_controls light_frame bridge stdout].
      now rewrite <- app_assoc.
    + apply light_dict_raise in Hdict
        as [(s & -> & _ & Hs) | (m & _ & [[_ ->] | (_ & _ & ->)])].
      * cbn [py_int] in Hn. now rewrite Hs in Hn.
      * exists "hue", []. split; [now left |]. run.
        rewrite app_nil_r. now destruct st.
      * exists "sat", []. split; [now right |]. run.
        rewrite app_nil_r. now destruct st.
Qed.

(** X16: the dict that [get_lights_from_hue] builds for a light takes the
    name, the on/off state, the brightness, the hue and the saturation as
    the bridge reports them, and has the environment "Default".  The
    defaults 0 and 254 written in the [getattr] calls are never taken: a
    light that reports no hue or no saturation makes the fetch raise
    [KeyError], and [self.lights] is not touched. *)
Theorem fetch_takes_reported_fields
    (st : LightApp) (items : list (device_id * Device.t)) (ns : list Z) :
  Forall2 (fun it n => py_int it.1 = Ok n) items ns ->
  (Forall (fun it => reports_color it.2) items ->
   forall i light_id light,
     items !! i = Some (light_id, light) ->
     exists st' light_list l r,
       get_lights_from_hue (Returns items) st = Some (Ok light_list, st') /\
       light_list !! i = Some l /\
       store st' !! l = Some r /\
       py_int light_id = Ok (Light.id r) /\
       Light.name r = Device.name light /\
       Light.state r = Device.on light /\
       Light.brightness r = Device.brightness light /\
       Light.environment r = "Default" /\
       Device.hue light = Some (Light.hue r) /\
       Device.saturation light = Some (Light.saturation r)) /\
  (Exists (fun it => ~ reports_color it.2) items ->
   exists p st',
     (p = "hue" \/ p = "sat") /\
     get_lights_from_hue (Returns items) st = Some (Raise (KeyError p), st') /\
     lights st' = lights st).
Proof.
  intros Hns. split.
  - intros Hcol i light_id light Hi.
    destruct (light_dict_built items ns Hns Hcol) as (rs & Hrs & _).
    destruct (Forall2_lookup_l _ _ _ _ _ Hrs Hi) as (r & Hr & Hdict).
    cbn [fst snd] in Hdict.
    apply light_dict_inv in Hdict
      as (Hid & Hname & Henv & Hstate & Hbri & Hh & Hs).
    eexists _, _, (length (store st) + i)%nat, r.
    split; [apply (get_lights_from_hue_ok items rs st Hrs) |].
    split; [apply lookup_seq; split; [reflexivity | eapply lookup_lt_Some; exact Hi] |].
    split.
    { cbn [store]. rewrite lookup_app_r by lia.
      replace (length (store st) + i - length (store st))%nat with i by lia.
      exact Hr. }
    split; [exact Hid |]. split; [exact Hname |]. split; [exact Hstate |].
    split; [exact Hbri |]. split; [exact Henv |]. split; [exact Hh | exact Hs].
  - intros Hex.
    destruct (fetch_loop_keyerror items ns Hns Hex []
                (mkApp (store st) (lights st) (light_controls st)
                       (light_frame st) (bridge st ++ [GetLightObjects "id"])
                       (stdout st)))
      as (p & new & Hp & Hrun).
    exists p. eexists. split; [exact Hp |]. split.
    + unfold get_lights_from_hue. run. exact Hrun.
    + reflexivity.
Qed.

End Refreshing.

Lemma fetch_stops_at_first_bad_identifier_witness :
  exists st',
    @get_lights_from_hue cpython_default
      (Returns [(IdInt 1, Device.mk "Desk" false 100 (Some 0) (Some 254));
                (IdStr "x2", Device.mk "Lamp" true 200 (Some 1234) (Some 77));
                (IdInt 3, Device.mk "Door" true 30 (Some 9) (Some 8))])
      (mkApp [Light.mk 7 "Old" "Default" true 50 0 254] [0%nat] ∅ [] [] [])
    = Some (Raise (ValueError "x2"), st') /\
    length (store st') = 2%nat /\
    lights st' = [0%nat].
Proof.
  destruct (@fetch_stops_at_first_bad_identifier cpython_default
              (mkApp [Light.mk 7 "Old" "Default" true 50 0 254] [0%nat] ∅ [] [] [])
              [(IdInt 1, Device.mk "Desk" false 100 (Some 0) (Some 254))]
              [(IdInt 3, Device.mk "Door" true 30 (Some 9) (Some 8))]
              [Light.mk 1 "Desk" "Default" false 100 0 254]
              "x2" (Device.mk "Lamp" true 200 (Some 1234) (Some 77)))
    as (st' & Hrun & _ & Hlen & Hlights & _).
  - repeat constructor.
  - reflexivity.
  - exists st'. split; [exact Hrun |]. split; [exact Hlen | exact Hlights].
Defined.


Lemma refresh_overwrites_toggle_witness :
  exists st1 st2 l r,
    toggle_light 0%nat false (Returns tt)
      (mkApp [Light.mk 1 "Desk" "Default" true 100 0 254] [0%nat] ∅ [] [] [])
    = Some (Ok tt, st1) /\
    @refresh_lights cpython_default
      (Returns [(IdInt 1, Device.mk "Desk" true 100 (Some 0) (Some 254))]) st1
    = Some (Ok tt, st2) /\
    lights st2 !! 0%nat = Some l /\
    store st2 !! l = Some r /\
    Light.state r = true.
Proof.
  destruct (@refresh_overwrites_toggle cpython_default
              (mkApp [Light.mk 1 "Desk" "Default" true 100 0 254] [0%nat] ∅ [] [] [])
              0%nat (Light.mk 1 "Desk" "Default" true 100 0 254) false (Returns tt)
              [(IdInt 1, Device.mk "Desk" true 100 (Some 0) (Some 254))]
              [Light.mk 1 "Desk" "Default" true 100 0 254]
              0%nat (IdInt 1) (Device.mk "Desk" true 100 (Some 0) (Some 254)))
    as (st1 & st2 & l & r & Hrun1 & Hrun2 & Hl & Hr & Hstate & _).
  - reflexivity.
  - repeat constructor.
  - reflexivity.
  - exists st1, st2, l, r.
    split; [exact Hrun1 |]. split; [exact Hrun2 |]. split; [exact Hl |].
    split; [exact Hr | exact Hstate].
Defined.

Lemma refresh_lights_replaces_registry_witness :
  exists st',
    @refresh_lights cpython_default
      (Returns [(IdInt 1, Device.mk "Desk" true 100 (Some 0) (Some 254));
                (IdStr "1", Device.mk "Desk" true 100 (Some 0) (Some 254))])
      (mkApp [Light.mk 1 "Desk" "Default" false 100 0 254] [0%nat] ∅ [] [] [])
    = Some (Ok tt, st') /\
    length (lights st') = 2%nat /\
    NoDup (lights st') /\
    store st' !! 0%nat = Some (Light.mk 1 "Desk" "Default" false 100 0 254).
Proof.
  destruct (@refresh_lights_replaces_registry cpython_default
              (mkApp [Light.mk 1 "Desk" "Default" false 100 0 254] [0%nat] ∅ [] [] [])
              [(IdInt 1, Device.mk "Desk" true 100 (Some 0) (Some 254));
               (IdStr "1", Device.mk "Desk" true 100 (Some 0) (Some 254))]
              [Light.mk 1 "Desk" "Default" true 100 0 254;
               Light.mk 1 "Desk" "Default" true 100 0 254])
    as (st' & Hrun & Hlen & Hnodup & _ & Hkeep & _).
  - repeat constructor.
  - exists st'. split; [exact Hrun |]. split; [exact Hlen |].
    split; [exact Hnodup |]. now apply Hkeep.
Defined.

Lemma fetch_takes_reported_fields_witness :
  exists st' light_list l r,
    @get_lights_from_hue cpython_default
      (Returns [(IdInt 1, Device.mk "Desk" false 100 (Some 0) (Some 254));
                (IdStr "2", Device.mk "Lamp" true 200 (Some 1234) (Some 77))])
      new_app = Some (Ok light_list, st') /\
    light_list !! 1%nat = Some l /\
    store st' !! l = Some r /\
    Light.name r = "Lamp" /\ Light.hue r = 1234 /\ Light.saturation r = 77.
Proof.
  destruct (proj1 (@fetch_takes_reported_fields cpython_default new_app
              [(IdInt 1, Device.mk "Desk" false 100 (Some 0) (Some 254));
               (IdStr "2", Device.mk "Lamp" true 200 (Some 1234) (Some 77))]
              [1; 2] ltac:(repeat constructor))
              ltac:(repeat constructor; eexists; reflexivity)
              1%nat (IdStr "2") (Device.mk "Lamp" true 200 (Some 1234) (Some 77))
              eq_refl)
    as (st' & light_list & l & r & Hrun & Hl & Hr & _ & Hname & _ & _ & _
        & Hhue & Hsat).
  exists st', light_list, l, r.
  split; [exact Hrun |]. split; [exact Hl |]. split; [exact Hr |].
  split; [exact Hname |].
  cbn [Device.hue Device.saturation] in Hhue, Hsat.
  split; congruence.
Defined.
